(** * A shallow embedding of the propositional-logic engine

    The development follows the three engine modules of the repository:
    [logic_parser.py] (tokenizer, validator, shunting-yard conversion and
    postfix evaluation), [truth_table.py] (truth-table generation and its
    summary) and [simplifier.py] (the textual rewrite loop).

    Python strings are sequences of Unicode code points; they are modelled
    as lists of integers.  Dictionaries keyed by strings are finite maps,
    the variable set is a finite set. *)

From Stdlib Require Import ZArith String Ascii Lia.
From stdpp Require Import gmap list sorting.

Set Default Proof Using "Type".

(** ** Python strings *)

Abbreviation str := (list Z).

(** Source literals are written as UTF-8 text and decoded to code points. *)
Module Utf8.
Local Open Scope Z_scope.

Definition byte (a : ascii) : Z := Z.of_N (N_of_ascii a).
Definition cont (a : ascii) : Z := Z.land (byte a) 63.

Fixpoint decode (s : string) : str :=
  match s with
  | EmptyString => []
  | String a s1 =>
    let b := byte a in
    if b <? 128 then b :: decode s1
    else match s1 with
    | EmptyString => [b]
    | String a1 s2 =>
      if b <? 224 then (Z.land b 31 * 64 + cont a1) :: decode s2
      else match s2 with
      | EmptyString => [b]
      | String a2 s3 =>
        if b <? 240
        then (Z.land b 15 * 4096 + cont a1 * 64 + cont a2) :: decode s3
        else match s3 with
        | EmptyString => [b]
        | String a3 s4 =>
          (Z.land b 7 * 262144 + cont a1 * 4096 + cont a2 * 64 + cont a3)
            :: decode s4
        end
      end
    end
  end.
End Utf8.

Definition utf8 (s : string) : str := Utf8.decode s.

(** Python's Unicode character database outside ASCII, outside the white
    space characters and outside the six logic symbols of the operator
    alphabet.  The engine never inspects it on a token; it is kept as an
    interface so that [str.upper], [str.isalpha], [str.isupper] and
    [str.isdigit] are total on arbitrary text. *)
Class UnicodeData := {
  uni_upper : Z → list Z;
  uni_isalpha : Z → bool;
  uni_isupper : Z → bool;
  uni_isdigit : Z → bool
}.

Module Char.
Local Open Scope Z_scope.

Definition between (lo hi c : Z) : bool := (lo <=? c) && (c <=? hi).

Definition lparen : Z := 40.
Definition rparen : Z := 41.
Definition space : Z := 32.

Definition is_ascii_upper (c : Z) : bool := between 65 90 c.
Definition is_ascii_lower (c : Z) : bool := between 97 122 c.
Definition is_ascii_digit (c : Z) : bool := between 48 57 c.

(** The regular-expression class [[A-Za-z0-9]]. *)
Definition is_alnum (c : Z) : bool :=
  is_ascii_upper c || is_ascii_lower c || is_ascii_digit c.

(** [str.isspace] on one character, which is also the class [\s]. *)
Definition isspace (c : Z) : bool :=
  between 9 13 c || between 28 32 c || (c =? 133) || (c =? 160)
  || (c =? 5760) || between 8192 8202 c || (c =? 8232) || (c =? 8233)
  || (c =? 8239) || (c =? 8287) || (c =? 12288).

(** The six non-ASCII symbols of the operator alphabet:
    U+00AC, U+2227, U+2228, U+2192, U+2194, U+2295. *)
Definition is_logic_symbol (c : Z) : bool :=
  (c =? 172) || (c =? 8743) || (c =? 8744) || (c =? 8594) || (c =? 8596)
  || (c =? 8853).

(** The tokenizer's symbol class: the logic symbols without the
    restriction to non-ASCII, that is with [~], [!] and the parentheses. *)
Definition is_token_symbol (c : Z) : bool :=
  is_logic_symbol c || (c =? 126) || (c =? 33) || (c =? lparen)
  || (c =? rparen).

(** The complement of the validator's class of invalid characters. *)
Definition is_allowed (c : Z) : bool :=
  is_alnum c || isspace c || is_token_symbol c
  || (c =? 38) || (c =? 124) || (c =? 60) || (c =? 62) || (c =? 61)
  || (c =? 45) || (c =? 94).

Section WithUnicode.
Context `{UnicodeData}.

Definition upper (c : Z) : list Z :=
  if is_ascii_lower c then [c - 32]
  else if c <? 128 then [c]
  else if isspace c || is_logic_symbol c then [c]
  else uni_upper c.

Definition isalpha (c : Z) : bool :=
  if c <? 128 then is_ascii_upper c || is_ascii_lower c
  else if isspace c || is_logic_symbol c then false
  else uni_isalpha c.

Definition isupper (c : Z) : bool :=
  if c <? 128 then is_ascii_upper c
  else if isspace c || is_logic_symbol c then false
  else uni_isupper c.

Definition isdigit (c : Z) : bool :=
  if c <? 128 then is_ascii_digit c
  else if isspace c || is_logic_symbol c then false
  else uni_isdigit c.
End WithUnicode.
End Char.

(** String operations of the Python runtime used by the engine. *)
Module Str.

Definition eqb (a b : str) : bool := bool_decide (a = b).

Definition is_empty (s : str) : bool :=
  match s with [] => true | _ => false end.

Fixpoint starts_with (p s : str) : bool :=
  match p, s with
  | [], _ => true
  | _ :: _, [] => false
  | a :: p1, b :: s1 => (a =? b)%Z && starts_with p1 s1
  end.

(** [p in s] *)
Fixpoint contains (p s : str) : bool :=
  starts_with p s ||
  match s with
  | [] => false
  | _ :: s1 => contains p s1
  end.

(** [s.replace(old, new)] for a non-empty [old]: occurrences are replaced
    from left to right and do not overlap.  [skip] counts the characters
    of an occurrence that are still to be passed over. *)
Fixpoint replace_from (old new : str) (skip : nat) (s : str) : str :=
  match s with
  | [] => []
  | c :: s1 =>
    match skip with
    | S k => replace_from old new k s1
    | O =>
      if starts_with old s
      then new ++ replace_from old new (pred (length old)) s1
      else c :: replace_from old new 0 s1
    end
  end.

Definition replace (old new s : str) : str := replace_from old new 0 s.

Fixpoint lstrip (s : str) : str :=
  match s with
  | [] => []
  | c :: s1 => if Char.isspace c then lstrip s1 else s
  end.

Definition rstrip (s : str) : str := reverse (lstrip (reverse s)).
Definition strip (s : str) : str := rstrip (lstrip s).

(** [re.sub(r'\s+', ' ', s)] *)
Fixpoint collapse_spaces_from (in_run : bool) (s : str) : str :=
  match s with
  | [] => []
  | c :: s1 =>
    if Char.isspace c
    then (if in_run then [] else [Char.space]) ++ collapse_spaces_from true s1
    else c :: collapse_spaces_from false s1
  end.

Definition collapse_spaces (s : str) : str := collapse_spaces_from false s.

(** Lexicographic comparison of strings by code point, as [sorted] uses. *)
Fixpoint leb (a b : str) : bool :=
  match a, b with
  | [], _ => true
  | _ :: _, [] => false
  | x :: a1, y :: b1 => (x <? y)%Z || ((x =? y)%Z && leb a1 b1)
  end.

Section WithUnicode.
Context `{UnicodeData}.

Definition upper (s : str) : str := s ≫= Char.upper.

Definition isdigit (s : str) : bool :=
  negb (is_empty s) && forallb Char.isdigit s.
End WithUnicode.
End Str.

(** ** Exceptions *)

(** The [ValueError]s raised by the evaluator, by message. *)
Inductive value_error :=
  | MissingOperandNegation
  | MissingOperands (token : str)
  | TooManyOperands
  | UnknownOperator (operator : str).

(** [IndexError] is what [list.pop] raises on an empty list, [KeyError]
    what a dictionary subscript raises on a missing key. *)
Inductive exn :=
  | IndexError
  | KeyError (key : str)
  | ValueError (msg : value_error).

Inductive result (E A : Type) :=
  | Ok (a : A)
  | Raise (e : E).
Arguments Ok {E A} a.
Arguments Raise {E A} e.

(** Sequencing: an exception raised by the first computation propagates. *)
#[export] Instance result_bind {E} : MBind (result E) := λ A B k r,
  match r with
  | Ok a => k a
  | Raise e => Raise e
  end.

Definition is_ok {E A} (r : result E A) : bool :=
  match r with Ok _ => true | Raise _ => false end.

(** The second component of what [validate_expression] returns, by
    message text. *)
Inductive message :=
  | ValidExpression
  | EmptyExpression
  | UnbalancedParentheses
  | InvalidCharacters (chars : list Z)
  | BinaryOperatorPosition (token : str)
  | UnaryOperatorAtEnd (token : str)
  | InvalidName (token : str).

(** ** logic_parser.py *)

Module LogicParser.

(** Membership of a string in a list of strings ([token in [...]]). *)
Definition mem (x : str) (l : list str) : bool := existsb (Str.eqb x) l.

Definition negations : list str := [utf8 "¬"; utf8 "~"; utf8 "!"].

(** The set [operators]; the code only asks for membership in it. *)
Definition operators : list str :=
  [ utf8 "¬"; utf8 "~"; utf8 "!";
    utf8 "∧"; utf8 "&"; utf8 "&&"; utf8 "AND";
    utf8 "∨"; utf8 "|"; utf8 "||"; utf8 "OR";
    utf8 "→"; utf8 "->"; utf8 "=>"; utf8 "IMP";
    utf8 "↔"; utf8 "<->"; utf8 "<=>"; utf8 "XNOR";
    utf8 "⊕"; utf8 "^"; utf8 "XOR";
    utf8 "NAND"; utf8 "NOR" ].

(** The dictionary [operator_precedence]; its keys are distinct. *)
Definition operator_precedence : gmap str Z :=
  list_to_map
    [ (utf8 "¬", 4); (utf8 "~", 4); (utf8 "!", 4);
      (utf8 "∧", 3); (utf8 "&", 3); (utf8 "&&", 3); (utf8 "AND", 3);
      (utf8 "∨", 2); (utf8 "|", 2); (utf8 "||", 2); (utf8 "OR", 2);
      (utf8 "→", 1); (utf8 "->", 1); (utf8 "=>", 1); (utf8 "IMP", 1);
      (utf8 "↔", 1); (utf8 "<->", 1); (utf8 "<=>", 1); (utf8 "XNOR", 1);
      (utf8 "⊕", 2); (utf8 "^", 2); (utf8 "XOR", 2);
      (utf8 "NAND", 3); (utf8 "NOR", 2) ]%Z.

(** [operator_precedence.get(token, 0)] *)
Definition precedence (token : str) : Z :=
  default 0%Z (operator_precedence !! token).

(** The substitution table of [_tokenize], in insertion order. *)
Definition replacements : list (str * str) :=
  [ (utf8 "&&", utf8 " ∧ "); (utf8 " AND ", utf8 " ∧ ");
    (utf8 "||", utf8 " ∨ "); (utf8 " OR ", utf8 " ∨ ");
    (utf8 "->", utf8 " → "); (utf8 "=>", utf8 " → ");
    (utf8 " IMP ", utf8 " → ");
    (utf8 "<->", utf8 " ↔ "); (utf8 "<=>", utf8 " ↔ ");
    (utf8 " XNOR ", utf8 " ↔ ");
    (utf8 " XOR ", utf8 " ⊕ "); (utf8 " NAND ", utf8 " NAND ");
    (utf8 " NOR ", utf8 " NOR ") ].

Definition apply_replacements (table : list (str * str)) (expr : str) : str :=
  foldl (fun e r => Str.replace r.1 r.2 e) expr table.

(** [re.findall(r'[A-Za-z0-9]+|[symbols]', expr)]: a maximal run of
    alphanumerics is one token, a symbol is a token of its own, any other
    character is passed over.  [run] is the run being read. *)
Definition flush_run (run : str) : list str :=
  match run with [] => [] | _ => [run] end.

Fixpoint findall_tokens (run : str) (expr : str) : list str :=
  match expr with
  | [] => flush_run run
  | c :: rest =>
    if Char.is_alnum c then findall_tokens (run ++ [c]) rest
    else flush_run run
         ++ (if Char.is_token_symbol c then [[c]] else [])
         ++ findall_tokens [] rest
  end.

(** The postfix conversion; the operator stack has its top at the head,
    the output grows at its end. *)
Fixpoint pop_while (keep_popping : str → bool) (stack output : list str)
  : list str * list str :=
  match stack with
  | [] => ([], output)
  | top :: below =>
    if keep_popping top then pop_while keep_popping below (output ++ [top])
    else (stack, output)
  end.

Definition not_lparen (top : str) : bool := negb (Str.eqb top (utf8 "(")).

Section WithUnicode.
Context `{UnicodeData}.

Definition _tokenize (expression : str) : list str :=
  let expr := apply_replacements replacements (Str.upper expression) in
  List.filter (fun token => negb (Str.is_empty (Str.strip token)))
              (findall_tokens [] expr).

Definition _is_operator (token : str) : bool :=
  mem (Str.upper token) (map Str.upper operators)
  || mem token [utf8 "("; utf8 ")"].

(** [token.isalpha() and len(token) == 1 and token.isupper()]: on a
    string of one character the two string predicates are those of the
    character, and any other length fails the middle test. *)
Definition _is_variable (token : str) : bool :=
  match token with
  | [c] => Char.isalpha c && Char.isupper c
  | _ => false
  end.

Definition is_operand (token : str) : bool :=
  _is_variable token || mem token [utf8 "0"; utf8 "1"].

Definition extract_variables (expression : str) : gset str :=
  foldl (fun variables token =>
           if _is_variable token then variables ∪ {[Str.upper token]}
           else variables)
        ∅ (_tokenize expression).

Fixpoint shunting_yard (tokens stack output : list str)
  : result exn (list str) :=
  match tokens with
  | [] => Ok (pop_while (fun _ => true) stack output).2
  | token :: rest =>
    if is_operand token then shunting_yard rest stack (output ++ [token])
    else if Str.eqb token (utf8 "(") then
      shunting_yard rest (token :: stack) output
    else if Str.eqb token (utf8 ")") then
      let '(stack1, output1) := pop_while not_lparen stack output in
      match stack1 with
      | [] => Raise IndexError
      | _ :: stack2 => shunting_yard rest stack2 output1
      end
    else
      let '(stack1, output1) :=
        pop_while (fun top => not_lparen top
                              && (precedence token <=? precedence top)%Z)
                  stack output in
      shunting_yard rest (token :: stack1) output1
  end.

Definition to_postfix (expression : str) : result exn (list str) :=
  shunting_yard (_tokenize expression) [] [].

Definition _apply_operator (left right : bool) (operator : str)
  : result exn bool :=
  let operator := Str.upper operator in
  if mem operator [utf8 "∧"; utf8 "&"; utf8 "&&"; utf8 "AND"] then
    Ok (left && right)
  else if mem operator [utf8 "∨"; utf8 "|"; utf8 "||"; utf8 "OR"] then
    Ok (left || right)
  else if mem operator [utf8 "→"; utf8 "->"; utf8 "=>"; utf8 "IMP"] then
    Ok (negb left || right)
  else if mem operator [utf8 "↔"; utf8 "<->"; utf8 "<=>"; utf8 "XNOR"] then
    Ok (eqb left right)
  else if mem operator [utf8 "⊕"; utf8 "^"; utf8 "XOR"] then
    Ok (xorb left right)
  else if Str.eqb operator (utf8 "NAND") then Ok (negb (left && right))
  else if Str.eqb operator (utf8 "NOR") then Ok (negb (left || right))
  else Raise (ValueError (UnknownOperator operator)).

(** The evaluation loop over the postfix tokens; the operand stack has
    its top at the head. *)
Fixpoint eval_postfix (variable_values : gmap str bool)
    (postfix : list str) (stack : list bool) : result exn bool :=
  match postfix with
  | [] =>
    match stack with
    | [value] => Ok value
    | _ => Raise (ValueError TooManyOperands)
    end
  | token :: rest =>
    if is_operand token then
      if mem token [utf8 "0"; utf8 "1"] then
        eval_postfix variable_values rest
          (Str.eqb token (utf8 "1") :: stack)
      else
        eval_postfix variable_values rest
          (default false (variable_values !! Str.upper token) :: stack)
    else if mem token negations then
      match stack with
      | [] => Raise (ValueError MissingOperandNegation)
      | operand :: below =>
        eval_postfix variable_values rest (negb operand :: below)
      end
    else
      match stack with
      | right_operand :: left_operand :: below =>
        value ← _apply_operator left_operand right_operand token;
        eval_postfix variable_values rest (value :: below)
      | _ => Raise (ValueError (MissingOperands token))
      end
  end.

Definition evaluate_expression (expression : str)
    (variable_values : gmap str bool) : result exn bool :=
  postfix ← to_postfix expression;
  eval_postfix variable_values postfix [].

(** *** The validator *)

Fixpoint check_balanced_from (stack : list Z) (expression : str) : bool :=
  match expression with
  | [] => bool_decide (length stack = 0)
  | char :: rest =>
    if (char =? Char.lparen)%Z then check_balanced_from (char :: stack) rest
    else if (char =? Char.rparen)%Z then
      match stack with
      | [] => false
      | _ :: below => check_balanced_from below rest
      end
    else check_balanced_from stack rest
  end.

Definition _check_balanced_parentheses (expression : str) : bool :=
  check_balanced_from [] expression.

(** [list(set(re.findall(pattern, expression)))]: the distinct
    characters outside the allowed class. *)
Definition _find_invalid_characters (expression : str) : list Z :=
  elements (list_to_set
    (List.filter (fun c => negb (Char.is_allowed c)) expression) : gset Z).

(** The loop of [_check_operator_placement] from index [i] on, in a
    token list of length [n]. *)
Fixpoint check_placement_from (n i : Z) (tokens : list str)
  : option message :=
  match tokens with
  | [] => None
  | token :: rest =>
    if _is_operator token
       && negb (mem token negations) && ((i =? 0) || (i =? n - 1))%Z
    then Some (BinaryOperatorPosition token)
    else if _is_operator token && mem token negations && (i =? n - 1)%Z
    then Some (UnaryOperatorAtEnd token)
    else check_placement_from n (i + 1)%Z rest
  end.

Definition _check_operator_placement (expression : str) : option message :=
  let tokens := _tokenize expression in
  check_placement_from (Z.of_nat (length tokens)) 0 tokens.

Fixpoint check_names (tokens : list str) : option message :=
  match tokens with
  | [] => None
  | token :: rest =>
    if _is_variable token && bool_decide (1 < length token)
       && negb (Str.isdigit token)
       && negb (mem token operators)
       && negb (mem token [utf8 "0"; utf8 "1"; utf8 "true"; utf8 "false";
                           utf8 "TRUE"; utf8 "FALSE"])
    then Some (InvalidName token)
    else check_names rest
  end.

Definition _check_variable_names (expression : str) : option message :=
  check_names (_tokenize expression).

Definition validate_expression (expression : str) : bool * message :=
  if Str.is_empty expression || Str.is_empty (Str.strip expression)
  then (false, EmptyExpression)
  else
    let expr := Str.strip expression in
    if negb (_check_balanced_parentheses expr)
    then (false, UnbalancedParentheses)
    else
      let invalid_chars := _find_invalid_characters expr in
      if negb (bool_decide (invalid_chars = []))
      then (false, InvalidCharacters invalid_chars)
      else
        match _check_operator_placement expr with
        | Some op_error => (false, op_error)
        | None =>
          match _check_variable_names expr with
          | Some var_error => (false, var_error)
          | None => (true, ValidExpression)
          end
        end.

End WithUnicode.
End LogicParser.

(** ** truth_table.py *)

(** The [ValueError]s of the truth-table generator, by message prefix. *)
Inductive table_error :=
  | InvalidExpression (reason : message)
  | ErrorEvaluatingExpression (e : exn)
  | ErrorEvaluatingConstant (e : exn).

Record summary := {
  total_rows : Z;
  true_count : Z;
  false_count : Z;
  is_tautology : bool;
  is_contradiction : bool;
  is_contingency : bool
}.

Module TruthTableGenerator.

(** [itertools.product] over a list of pools, as the library documents it: every
    partial tuple is extended by every element of the next pool. *)
Definition product {A} (pools : list (list A)) : list (list A) :=
  foldl (fun tuples pool => x ← tuples; y ← pool; [x ++ [y]]) [[]] pools.

(** [dict(pairs)]: a later pair overrides an earlier one. *)
Definition dict (pairs : list (str * bool)) : gmap str bool :=
  foldl (fun d kv => <[kv.1 := kv.2]> d) ∅ pairs.

Definition str_le (a b : str) : Prop := Str.leb a b.

#[export] Instance str_le_dec : RelDecision str_le.
Proof. intros a b. unfold str_le. apply _. Defined.

(** [sorted(variables)] on a set of strings. *)
Definition sorted (variables : gset str) : list str :=
  merge_sort str_le (elements variables).

Definition result_key : str := utf8 "result".

(** [sum(1 for row in table_data if row['result'])] *)
Fixpoint count_true (table_data : list (gmap str bool)) : result exn Z :=
  match table_data with
  | [] => Ok 0%Z
  | row :: rest =>
    match row !! result_key with
    | None => Raise (KeyError result_key)
    | Some value =>
      n ← count_true rest;
      Ok ((if value : bool then 1 else 0) + n)%Z
    end
  end.

(** The empty dictionary returned for an empty table is [None]. *)
Definition get_truth_table_summary (table_data : list (gmap str bool))
    (variables : list str) : result exn (option summary) :=
  match table_data with
  | [] => Ok None
  | _ =>
    true_count ← count_true table_data;
    let total := Z.of_nat (length table_data) in
    let false_count := (total - true_count)%Z in
    Ok (Some {| total_rows := total;
                true_count := true_count;
                false_count := false_count;
                is_tautology := (true_count =? total)%Z;
                is_contradiction := (false_count =? total)%Z;
                is_contingency := (0 <? true_count)%Z && (0 <? false_count)%Z |})
  end.

Section WithUnicode.
Context `{UnicodeData}.
Import LogicParser.

Definition _generate_constant_truth_table (expression : str)
  : result table_error (list (gmap str bool) * list str) :=
  match evaluate_expression expression ∅ with
  | Ok value => Ok ([ {[ result_key := value ]} ], [])
  | Raise e => Raise (ErrorEvaluatingConstant e)
  end.

(** The loop over the combinations, [table_data] being the rows so far. *)
Fixpoint table_rows (expression : str) (variables : list str)
    (combinations : list (list bool)) (table_data : list (gmap str bool))
  : result table_error (list (gmap str bool) * list str) :=
  match combinations with
  | [] => Ok (table_data, variables)
  | combo :: rest =>
    let assignment := dict (zip variables combo) in
    match evaluate_expression expression assignment with
    | Ok value =>
      table_rows expression variables rest
        (table_data ++ [ <[result_key := value]> assignment ])
    | Raise e => Raise (ErrorEvaluatingExpression e)
    end
  end.

Definition generate_truth_table (expression : str)
  : result table_error (list (gmap str bool) * list str) :=
  let '(is_valid, reason) := validate_expression expression in
  if negb is_valid then Raise (InvalidExpression reason)
  else
    let variables := sorted (extract_variables expression) in
    match variables with
    | [] => _generate_constant_truth_table expression
    | _ =>
      let combinations :=
        product (replicate (length variables) [false; true]) in
      table_rows expression variables combinations []
    end.
End WithUnicode.
End TruthTableGenerator.

(** ** simplifier.py *)

Module ExpressionSimplifier.

(** The rule table, in insertion order. *)
Definition rules : list (str * str) :=
  [ (utf8 "A ∧ 1", utf8 "A");
    (utf8 "A ∨ 0", utf8 "A");
    (utf8 "A ∧ 0", utf8 "0");
    (utf8 "A ∨ 1", utf8 "1");
    (utf8 "A ∧ A", utf8 "A");
    (utf8 "A ∨ A", utf8 "A");
    (utf8 "¬¬A", utf8 "A");
    (utf8 "A ∧ ¬A", utf8 "0");
    (utf8 "A ∨ ¬A", utf8 "1");
    (utf8 "A ∧ B", utf8 "B ∧ A");
    (utf8 "A ∨ B", utf8 "B ∨ A");
    (utf8 "(A ∧ B) ∧ C", utf8 "A ∧ (B ∧ C)");
    (utf8 "(A ∨ B) ∨ C", utf8 "A ∨ (B ∨ C)");
    (utf8 "A ∧ (B ∨ C)", utf8 "(A ∧ B) ∨ (A ∧ C)");
    (utf8 "A ∨ (B ∧ C)", utf8 "(A ∨ B) ∧ (A ∨ C)");
    (utf8 "¬(A ∧ B)", utf8 "¬A ∨ ¬B");
    (utf8 "¬(A ∨ B)", utf8 "¬A ∧ ¬B");
    (utf8 "A ∧ (A ∨ B)", utf8 "A");
    (utf8 "A ∨ (A ∧ B)", utf8 "A");
    (utf8 "A → B", utf8 "¬A ∨ B");
    (utf8 "A ↔ B", utf8 "(A → B) ∧ (B → A)");
    (utf8 "A ⊕ B", utf8 "(A ∧ ¬B) ∨ (¬A ∧ B)") ].

Definition max_iterations : Z := 20.

(** The substitution table of [_normalize_expression]. *)
Definition replacements : list (str * str) :=
  [ (utf8 "&&", utf8 "∧"); (utf8 " AND ", utf8 " ∧ ");
    (utf8 "||", utf8 "∨"); (utf8 " OR ", utf8 " ∨ ");
    (utf8 "->", utf8 "→"); (utf8 "=>", utf8 "→");
    (utf8 "<->", utf8 "↔"); (utf8 "<=>", utf8 "↔");
    (utf8 "^", utf8 "⊕"); (utf8 " XOR ", utf8 " ⊕ ");
    (utf8 "!", utf8 "¬"); (utf8 "~", utf8 "¬") ].

(** [expr.replace(op, f' {op} ')] for each operator of the list. *)
Definition space_out (ops : list str) (expr : str) : str :=
  foldl (fun e op => Str.replace op (utf8 " " ++ op ++ utf8 " ") e) expr ops.

(** [expr.replace(f' {op} ', op)] for each operator of the list. *)
Definition space_in (ops : list str) (expr : str) : str :=
  foldl (fun e op => Str.replace (utf8 " " ++ op ++ utf8 " ") op e) expr ops.

Definition _apply_variable_rule (expression pattern replacement : str) : str :=
  if Str.contains pattern expression
  then Str.replace pattern replacement expression
  else expression.

Definition _apply_rule (expression pattern replacement : str) : str :=
  if Str.eqb expression pattern then replacement
  else if Str.contains (utf8 "A") pattern || Str.contains (utf8 "B") pattern
          || Str.contains (utf8 "C") pattern
  then _apply_variable_rule expression pattern replacement
  else expression.

Fixpoint is_balanced_from (count : Z) (expression : str) : bool :=
  match expression with
  | [] => (count =? 0)%Z
  | char :: rest =>
    if (char =? Char.lparen)%Z then is_balanced_from (count + 1) rest
    else if (char =? Char.rparen)%Z then
      let count := (count - 1)%Z in
      if (count <? 0)%Z then false else is_balanced_from count rest
    else is_balanced_from count rest
  end.

Definition _is_balanced (expression : str) : bool :=
  is_balanced_from 0 expression.

(** The class [[A-Z01]]. *)
Definition is_atom (c : Z) : bool :=
  Char.is_ascii_upper c || (c =? 48)%Z || (c =? 49)%Z.

(** [re.sub(r'\(([A-Z01])\)', r'\1', expr)] *)
Fixpoint unwrap_atoms (expr : str) : str :=
  match expr with
  | [] => []
  | a :: rest1 =>
    match rest1 with
    | b :: c :: rest3 =>
      if (a =? Char.lparen)%Z && is_atom b && (c =? Char.rparen)%Z
      then b :: unwrap_atoms rest3
      else a :: unwrap_atoms rest1
    | _ => a :: unwrap_atoms rest1
    end
  end.

Definition _remove_redundant_parentheses (expression : str) : str :=
  let expr := unwrap_atoms expression in
  if bool_decide (head expr = Some Char.lparen)
     && bool_decide (last expr = Some Char.rparen)
  then
    let inner := removelast (tail expr) in
    if _is_balanced inner then inner else expr
  else expr.

Definition _cleanup_expression (expression : str) : str :=
  let operators := [utf8 "∧"; utf8 "∨"; utf8 "→"; utf8 "↔"; utf8 "⊕"] in
  let expr := Str.strip (Str.collapse_spaces expression) in
  let expr := space_in operators expr in
  let expr := space_out operators expr in
  Str.strip (Str.collapse_spaces expr).

(** The state of the rewrite loop. *)
Record loop_state := {
  current_expr : str;
  steps : list str;
  changed : bool;
  iteration : Z
}.

(** The inner [for] loop: the first rule whose application changes the
    expression, with the changed expression. *)
Fixpoint first_rule (table : list (str * str)) (current : str)
  : option (str * str * str) :=
  match table with
  | [] => None
  | (pattern, replacement) :: rest =>
    let new_expr := _apply_rule current pattern replacement in
    if negb (Str.eqb new_expr current)
    then Some (pattern, replacement, new_expr)
    else first_rule rest current
  end.

Definition loop_cond (st : loop_state) : bool :=
  changed st && (iteration st <? max_iterations)%Z.

Definition loop_body (st : loop_state) : loop_state :=
  let iteration := (iteration st + 1)%Z in
  let st1 :=
    match first_rule rules (current_expr st) with
    | Some (pattern, replacement, new_expr) =>
      {| current_expr := new_expr;
         steps := steps st ++
           [utf8 "Applied " ++ pattern ++ utf8 " → " ++ replacement
            ++ utf8 ": " ++ new_expr];
         changed := true;
         iteration := iteration |}
    | None =>
      {| current_expr := current_expr st; steps := steps st;
         changed := false; iteration := iteration |}
    end in
  let new_expr := _remove_redundant_parentheses (current_expr st1) in
  if negb (Str.eqb new_expr (current_expr st1))
  then {| current_expr := new_expr;
          steps := steps st1
            ++ [utf8 "Removed redundant parentheses: " ++ new_expr];
          changed := true;
          iteration := iteration |}
  else st1.

(** The [while] loop; [None] when the fuel runs out before the loop
    condition fails. *)
Fixpoint while_loop (fuel : nat) (st : loop_state) : option loop_state :=
  match fuel with
  | O => None
  | S fuel1 =>
    if loop_cond st then while_loop fuel1 (loop_body st) else Some st
  end.

Definition final_cleanup (st : loop_state) : str * list str :=
  let final_expr := _cleanup_expression (current_expr st) in
  if negb (Str.eqb final_expr (current_expr st))
  then (final_expr, steps st ++ [utf8 "Final cleanup: " ++ final_expr])
  else (current_expr st, steps st).

Section WithUnicode.
Context `{UnicodeData}.

Definition _normalize_expression (expression : str) : str :=
  let expr := Str.upper expression in
  let expr := foldl (fun e r => Str.replace r.1 r.2 e) expr replacements in
  let expr :=
    space_out [utf8 "∧"; utf8 "∨"; utf8 "→"; utf8 "↔"; utf8 "⊕"; utf8 "¬"]
              expr in
  Str.strip (Str.collapse_spaces expr).

Definition initial_state (expression : str) : loop_state :=
  let current_expr := _normalize_expression expression in
  {| current_expr := current_expr;
     steps := [utf8 "Original: " ++ current_expr];
     changed := true;
     iteration := 0 |}.

Definition simplify (fuel : nat) (expression : str)
  : option (str * list str) :=
  final_cleanup <$> while_loop fuel (initial_state expression).
End WithUnicode.
End ExpressionSimplifier.

(** ** truth_table.py, the queries over a table *)

Module TruthTableQueries.
Import TruthTableGenerator.

(** The loop shared by [find_minterms] and [find_maxterms]: the indices of
    the rows whose result, seen through [select], is true; [terms] is the
    list built so far and [i] the index of the next row. *)
Fixpoint find_terms_from (select : bool → bool) (i : nat)
    (table_data : list (gmap str bool)) (terms : list nat)
  : result exn (list nat) :=
  match table_data with
  | [] => Ok terms
  | row :: rest =>
    match row !! result_key with
    | None => Raise (KeyError result_key)
    | Some value =>
      find_terms_from select (S i) rest
        (if select value then terms ++ [i] else terms)
    end
  end.

Definition find_minterms (table_data : list (gmap str bool))
    (variables : list str) : result exn (list nat) :=
  find_terms_from (fun value => value) 0 table_data [].

Definition find_maxterms (table_data : list (gmap str bool))
    (variables : list str) : result exn (list nat) :=
  find_terms_from negb 0 table_data [].

End TruthTableQueries.

(** ** gui.py, the rows shown for a truth table *)

Module Gui.
Import TruthTableGenerator.

(** [str(value)] for a boolean. *)
Definition str_of_bool (value : bool) : str :=
  if value then utf8 "True" else utf8 "False".

(** [columns = variables + ['Result']] *)
Definition table_columns (variables : list str) : list str :=
  variables ++ [utf8 "Result"].

(** [[str(row[var]) for var in variables]] *)
Fixpoint variable_values (row : gmap str bool) (variables : list str)
  : result exn (list str) :=
  match variables with
  | [] => Ok []
  | var :: rest =>
    match row !! var with
    | None => Raise (KeyError var)
    | Some value =>
      values ← variable_values row rest;
      Ok (str_of_bool value :: values)
    end
  end.

(** [values = [str(row[var]) for var in variables] + [str(row['result'])]] *)
Definition row_values (row : gmap str bool) (variables : list str)
  : result exn (list str) :=
  values ← variable_values row variables;
  match row !! result_key with
  | None => Raise (KeyError result_key)
  | Some value => Ok (values ++ [str_of_bool value])
  end.

End Gui.

(** * Vocabulary of the statements *)

(** The spellings of each operator kind. *)
Definition not_spellings : list str := [utf8 "¬"; utf8 "~"; utf8 "!"].
Definition and_spellings : list str :=
  [utf8 "∧"; utf8 "&"; utf8 "&&"; utf8 "AND"].
Definition or_spellings : list str :=
  [utf8 "∨"; utf8 "|"; utf8 "||"; utf8 "OR"].
Definition implies_spellings : list str :=
  [utf8 "→"; utf8 "->"; utf8 "=>"; utf8 "IMP"].
Definition iff_spellings : list str :=
  [utf8 "↔"; utf8 "<->"; utf8 "<=>"; utf8 "XNOR"].
Definition xor_spellings : list str := [utf8 "⊕"; utf8 "^"; utf8 "XOR"].

(** The sequence of parentheses of a text ([true] opens, [false] closes),
    and the same for a token list. *)
Definition paren_of_char (c : Z) : list bool :=
  if (c =? Char.lparen)%Z then [true]
  else if (c =? Char.rparen)%Z then [false] else [].

Definition parens (s : str) : list bool := s ≫= paren_of_char.

Definition paren_of_token (token : str) : list bool :=
  if Str.eqb token (utf8 "(") then [true]
  else if Str.eqb token (utf8 ")") then [false] else [].

Definition token_parens (tokens : list str) : list bool :=
  tokens ≫= paren_of_token.

(** Walking a parenthesis sequence from a nesting depth, never below 0 and
    ending at 0. *)
Fixpoint walk (depth : nat) (ps : list bool) : bool :=
  match ps with
  | [] => bool_decide (depth = 0)
  | true :: rest => walk (S depth) rest
  | false :: rest =>
    match depth with
    | O => false
    | S below => walk below rest
    end
  end.

Definition count_lparen (stack : list str) : nat :=
  length (List.filter (fun token => Str.eqb token (utf8 "(")) stack).

(** The [n] binary digits of [i], the most significant first. *)
Definition bits (n i : nat) : list bool :=
  (λ j, Nat.testbit i (n - 1 - j)) <$> seq 0 n.

Section Rows.
Context `{UnicodeData}.
Import LogicParser TruthTableGenerator.

(** The row built for a combination. *)
Definition is_row_of (expression : str) (variables : list str)
    (combo : list bool) (row : gmap str bool) : Prop :=
  ∃ value,
    evaluate_expression expression (dict (zip variables combo)) = Ok value
    ∧ row = <[result_key := value]> (dict (zip variables combo)).
End Rows.

(** A character database in which no character outside the written-out
    ranges has case or is a letter or a digit. *)
Definition no_case_data : UnicodeData := {|
  uni_upper c := [c];
  uni_isalpha _ := false;
  uni_isupper _ := false;
  uni_isdigit _ := false
|}.

(** A parenthesis sequence that never closes more than is open, from a
    nesting depth. *)
Fixpoint never_below (depth : nat) (ps : list bool) : bool :=
  match ps with
  | [] => true
  | true :: rest => never_below (S depth) rest
  | false :: rest =>
    match depth with
    | O => false
    | S below => never_below below rest
    end
  end.

Definition is_paren_token (token : str) : bool :=
  LogicParser.mem token [utf8 "("; utf8 ")"].

Definition not_paren_token (token : str) : bool := negb (is_paren_token token).

(** The two shapes of a token: a word of ASCII letters and digits, or one
    symbol of the tokenizer's symbol class. *)
Definition is_word (token : str) : bool :=
  negb (Str.is_empty token) && forallb Char.is_alnum token.

Definition is_symbol_token (token : str) : bool :=
  match token with
  | [c] => Char.is_token_symbol c
  | _ => false
  end.

(** The single letters A to Z. *)
Definition letters : list str := (λ c, [c]) <$> seqZ 65 26.

(** A row whose result is the given value. *)
Definition result_is (value : bool) (row : gmap str bool) : bool :=
  bool_decide (row !! TruthTableGenerator.result_key = Some value).

(** The indices, counted from [i], of the rows selected by their result. *)
Fixpoint selected_from (select : bool → bool) (i : nat)
    (table_data : list (gmap str bool)) : list nat :=
  match table_data with
  | [] => []
  | row :: rest =>
    (if select (default false (row !! TruthTableGenerator.result_key))
     then [i] else [])
    ++ selected_from select (S i) rest
  end.

(** The characters of a text that are not parentheses. *)
Definition is_paren_char (c : Z) : bool :=
  (c =? Char.lparen)%Z || (c =? Char.rparen)%Z.

Definition without_parens (s : str) : str :=
  List.filter (fun c => negb (is_paren_char c)) s.

(** No two white-space characters side by side. *)
Fixpoint no_double_space (s : str) : bool :=
  match s with
  | [] => true
  | c :: rest =>
    match rest with
    | [] => true
    | d :: _ => negb (Char.isspace c && Char.isspace d) && no_double_space rest
    end
  end.

(** A text in the simplifier's spacing: white space is the plain space
    only, never at either end and never doubled. *)
Definition well_spaced (s : str) : Prop :=
  Forall (λ c, Char.isspace c = true → c = Char.space) s
  ∧ (∀ c, head s = Some c → Char.isspace c = false)
  ∧ (∀ c, last s = Some c → Char.isspace c = false)
  ∧ no_double_space s = true.

(** Every negation sign is followed by white space, or ends the text. *)
Definition negation_sign : Z := 172.

Fixpoint negations_spaced (s : str) : bool :=
  match s with
  | [] => true
  | c :: rest =>
    match rest with
    | [] => true
    | d :: _ =>
      (if (c =? negation_sign)%Z then Char.isspace d else true)
      && negations_spaced rest
    end
  end.

(** A trace entry written by the rewrite loop. *)
Definition is_step (step : str) : Prop :=
  Str.starts_with (utf8 "Applied ") step = true
  ∨ Str.starts_with (utf8 "Removed redundant parentheses: ") step = true.

(** Formulas, their truth value under an assignment, and their postfix
    token sequence.  A variable is named by the code point of its letter;
    an absent variable counts as false. *)
Inductive binop := And | Or | Implies | Iff | Xor | Nand | Nor.

Inductive formula :=
  | FVar (letter : Z)
  | FConst (value : bool)
  | FNot (f : formula)
  | FBin (op : binop) (f g : formula).

Definition binop_token (op : binop) : str :=
  match op with
  | And => utf8 "∧"
  | Or => utf8 "∨"
  | Implies => utf8 "→"
  | Iff => utf8 "↔"
  | Xor => utf8 "⊕"
  | Nand => utf8 "NAND"
  | Nor => utf8 "NOR"
  end.

Definition binop_value (op : binop) (l r : bool) : bool :=
  match op with
  | And => l && r
  | Or => l || r
  | Implies => negb l || r
  | Iff => Bool.eqb l r
  | Xor => xorb l r
  | Nand => negb (l && r)
  | Nor => negb (l || r)
  end.

Fixpoint truth_value (a : gmap str bool) (f : formula) : bool :=
  match f with
  | FVar letter => default false (a !! [letter])
  | FConst value => value
  | FNot g => negb (truth_value a g)
  | FBin op g h => binop_value op (truth_value a g) (truth_value a h)
  end.

Fixpoint postfix_of (f : formula) : list str :=
  match f with
  | FVar letter => [[letter]]
  | FConst value => [if value then utf8 "1" else utf8 "0"]
  | FNot g => postfix_of g ++ [utf8 "¬"]
  | FBin op g h => postfix_of g ++ postfix_of h ++ [binop_token op]
  end.

Fixpoint letters_only (f : formula) : bool :=
  match f with
  | FVar letter => Char.is_ascii_upper letter
  | FConst _ => true
  | FNot g => letters_only g
  | FBin _ g h => letters_only g && letters_only h
  end.

(** The spellings of operators in plain ASCII punctuation. *)
Definition punctuation_spellings : list str :=
  [utf8 "&"; utf8 "&&"; utf8 "|"; utf8 "||"; utf8 "->"; utf8 "=>";
   utf8 "<->"; utf8 "<=>"; utf8 "^"].

(** * Properties *)

Arguments utf8 : simpl never.
Arguments LogicParser.mem : simpl never.
Arguments LogicParser.precedence : simpl never.
Arguments LogicParser._is_variable : simpl never.
Arguments LogicParser.is_operand : simpl never.
Arguments LogicParser._is_operator : simpl never.
Arguments LogicParser._apply_operator : simpl never.
Arguments LogicParser.not_lparen : simpl never.
Arguments Str.upper : simpl never.
Arguments Str.eqb : simpl never.
Arguments Str.strip : simpl never.
Arguments LogicParser._tokenize : simpl never.
Arguments LogicParser.extract_variables : simpl never.
Arguments LogicParser.evaluate_expression : simpl never.
Arguments LogicParser.validate_expression : simpl never.
Arguments LogicParser._check_balanced_parentheses : simpl never.
Arguments LogicParser._find_invalid_characters : simpl never.
Arguments LogicParser._check_operator_placement : simpl never.
Arguments LogicParser._check_variable_names : simpl never.
Arguments TruthTableGenerator.sorted : simpl never.
Arguments TruthTableGenerator.dict : simpl never.
Arguments TruthTableGenerator.product : simpl never.
Arguments TruthTableGenerator.result_key : simpl never.
Arguments ExpressionSimplifier.loop_body : simpl never.
Arguments ExpressionSimplifier.loop_cond : simpl never.
Arguments ExpressionSimplifier.initial_state : simpl never.
Arguments ExpressionSimplifier.rules : simpl never.
Arguments ExpressionSimplifier._remove_redundant_parentheses : simpl never.

(** ** The precedence table *)

Section Precedence.
Import LogicParser.

(** C3, amended: in the precedence table every spelling of XOR has the
    precedence of OR and NOR, namely 2, which is strictly below the
    common precedence 3 of AND and NAND; IMPLIES and IFF (XNOR) have
    precedence 1, the lowest of all operators, and NOT has 4, the
    highest. *)
Theorem xor_binds_like_or :
  Forall (fun op => precedence op = 2%Z)
         (xor_spellings ++ or_spellings ++ [utf8 "NOR"])
  ∧ Forall (fun op => precedence op = 3%Z) (and_spellings ++ [utf8 "NAND"])
  ∧ Forall (fun op => precedence op = 1%Z) (implies_spellings ++ iff_spellings)
  ∧ Forall (fun op => precedence op = 4%Z) not_spellings
  ∧ Forall (fun op => (1 ≤ precedence op ≤ 4)%Z) operators.
Proof.
  repeat split; apply (bool_decide_unpack _); vm_compute; exact I.
Qed.

(** C3 as stated fails: XOR does not share the precedence of AND. *)
Lemma xor_precedence_is_not_and :
  ¬ (precedence (utf8 "XOR") = precedence (utf8 "AND")
     ∧ precedence (utf8 "XOR") = precedence (utf8 "NAND")
     ∧ (precedence (utf8 "OR") < precedence (utf8 "XOR"))%Z
     ∧ Forall (fun op => (precedence (utf8 "IMP") ≤ precedence op)%Z
                         ∧ (precedence (utf8 "XNOR") ≤ precedence op)%Z)
              operators).
Proof. intros [Heq _]. vm_compute in Heq. discriminate. Qed.
End Precedence.

(** ** The evaluator *)

Section Evaluator.
Context `{UnicodeData}.
Import LogicParser.

Lemma mem_true (x : str) (l : list str) : mem x l = true ↔ x ∈ l.
Proof.
  unfold mem. rewrite existsb_exists. setoid_rewrite <- list_elem_of_In.
  unfold Str.eqb. split.
  - intros (y & Hy & Heq). apply bool_decide_eq_true in Heq. by subst.
  - intros Hx. exists x. split; [done|]. by apply bool_decide_eq_true.
Qed.

Lemma variable_is_not_constant (token : str) :
  _is_variable token = true → mem token [utf8 "0"; utf8 "1"] = false.
Proof.
  intros Hvar. apply not_true_is_false. rewrite mem_true.
  intros Hin. apply elem_of_cons in Hin as [-> | Hin].
  { vm_compute in Hvar. discriminate. }
  apply elem_of_cons in Hin as [-> | Hin].
  { vm_compute in Hvar. discriminate. }
  by apply elem_of_nil in Hin.
Qed.

(** Two assignments that give the same value, after defaulting, to every
    variable token of a postfix sequence evaluate it alike. *)
Lemma eval_postfix_ext (a1 a2 : gmap str bool) (postfix : list str) :
  (∀ token, token ∈ postfix → _is_variable token = true →
     default false (a1 !! Str.upper token)
     = default false (a2 !! Str.upper token)) →
  ∀ stack, eval_postfix a1 postfix stack = eval_postfix a2 postfix stack.
Proof.
  induction postfix as [|token rest IH]; intros Hagree stack; [done|].
  assert (Hrest : ∀ st, eval_postfix a1 rest st = eval_postfix a2 rest st).
  { apply IH. intros t Ht. apply Hagree. by right. }
  simpl. destruct (is_operand token) eqn:Hop.
  - destruct (mem token [utf8 "0"; utf8 "1"]) eqn:Hconst; [apply Hrest|].
    unfold is_operand in Hop. rewrite Hconst, orb_false_r in Hop.
    rewrite (Hagree token); [apply Hrest | by left | done].
  - destruct (mem token negations).
    + destruct stack; [done | apply Hrest].
    + destruct stack as [|r [|l below]]; try done.
      destruct (_apply_operator l r token); simpl; [apply Hrest | done].
Qed.

Lemma pop_while_elem (f : str → bool) (stack output s1 o1 : list str) :
  pop_while f stack output = (s1, o1) →
  ∀ t, t ∈ s1 ∨ t ∈ o1 → t ∈ stack ∨ t ∈ output.
Proof.
  revert output. induction stack as [|top below IH]; intros output Hpop t.
  - simpl in Hpop. injection Hpop as <- <-. tauto.
  - simpl in Hpop. destruct (f top).
    + intros Ht. destruct (IH _ Hpop t Ht) as [Hb | Ho].
      * left. by right.
      * apply elem_of_app in Ho as [Ho | Ho]; [by right|].
        apply list_elem_of_singleton in Ho as ->. left. by left.
    + injection Hpop as <- <-. tauto.
Qed.

(** The conversion only moves tokens around. *)
Lemma shunting_yard_elem (tokens : list str) :
  ∀ stack output postfix,
    shunting_yard tokens stack output = Ok postfix →
    ∀ t, t ∈ postfix → t ∈ tokens ∨ t ∈ stack ∨ t ∈ output.
Proof.
  induction tokens as [|token rest IH]; intros stack output postfix Hsy t Ht.
  - simpl in Hsy. injection Hsy as <-.
    destruct (pop_while (λ _, true) stack output) as [s1 o1] eqn:Hpop.
    right. eapply pop_while_elem; [exact Hpop|]. by right.
  - simpl in Hsy. destruct (is_operand token).
    { destruct (IH _ _ _ Hsy t Ht) as [?|[?|Ho]];
        [left; by right | by right; left |].
      apply elem_of_app in Ho as [Ho | Ho]; [by right; right|].
      apply list_elem_of_singleton in Ho as ->. left. by left. }
    destruct (Str.eqb token (utf8 "(")).
    { destruct (IH _ _ _ Hsy t Ht) as [?|[Hs|?]];
        [left; by right | | by right; right].
      apply elem_of_cons in Hs as [-> | Hs]; [left; by left | by right; left]. }
    destruct (Str.eqb token (utf8 ")")).
    { destruct (pop_while not_lparen stack output) as [s1 o1] eqn:Hpop.
      destruct s1 as [|top s2]; [done|].
      destruct (IH _ _ _ Hsy t Ht) as [?|[Hs|Ho]]; [left; by right | |].
      - right. eapply pop_while_elem; [exact Hpop|]. left. by right.
      - right. eapply pop_while_elem; [exact Hpop|]. by right. }
    destruct (pop_while _ stack output) as [s1 o1] eqn:Hpop.
    destruct (IH _ _ _ Hsy t Ht) as [?|[Hs|Ho]]; [left; by right | |].
    + apply elem_of_cons in Hs as [-> | Hs]; [left; by left|].
      right. eapply pop_while_elem; [exact Hpop|]. by left.
    + right. eapply pop_while_elem; [exact Hpop|]. by right.
Qed.

Lemma to_postfix_elem (expression : str) (postfix : list str) :
  to_postfix expression = Ok postfix →
  ∀ t, t ∈ postfix → t ∈ _tokenize expression.
Proof.
  intros Hp t Ht. unfold to_postfix in Hp.
  destruct (shunting_yard_elem _ _ _ _ Hp t Ht) as [?|[Hn|Hn]]; [done | |];
    by apply elem_of_nil in Hn.
Qed.

Lemma elem_of_extract_variables (expression : str) (v : str) :
  v ∈ extract_variables expression ↔
  ∃ token, token ∈ _tokenize expression ∧ _is_variable token = true
           ∧ v = Str.upper token.
Proof.
  unfold extract_variables.
  assert (Hgen : ∀ tokens (acc : gset str),
    v ∈ foldl (λ variables token,
                 if _is_variable token then variables ∪ {[Str.upper token]}
                 else variables) acc tokens
    ↔ v ∈ acc ∨ ∃ token, token ∈ tokens ∧ _is_variable token = true
                         ∧ v = Str.upper token).
  { induction tokens as [|token rest IH]; intros acc; simpl.
    - split; [by left|]. intros [?|(t & Ht & _)]; [done|].
      by apply elem_of_nil in Ht.
    - rewrite IH. split.
      + intros [Hacc | (t & Ht & Hv & ->)].
        * destruct (_is_variable token) eqn:Hvar; [|by left].
          apply elem_of_union in Hacc as [?|Hs]; [by left|].
          apply elem_of_singleton in Hs as ->.
          right. exists token. split; [by left | done].
        * right. exists t. split; [by right | done].
      + intros [Hacc | (t & Ht & Hv & ->)].
        * left. destruct (_is_variable token); [|done].
          apply elem_of_union. by left.
        * apply elem_of_cons in Ht as [-> | Ht].
          -- left. rewrite Hv. apply elem_of_union. right.
             by apply elem_of_singleton.
          -- right. by exists t. }
  rewrite Hgen. split; [|by right].
  intros [Hin | ?]; [|done]. by apply elem_of_empty in Hin.
Qed.

(** C10: the result of [evaluate_expression], a boolean or an exception,
    is the same under any two assignments that agree on every name of
    [extract_variables] of the same text. *)
Theorem evaluate_depends_on_extracted_variables
    (expression : str) (a1 a2 : gmap str bool) :
  (∀ name, name ∈ extract_variables expression → a1 !! name = a2 !! name) →
  evaluate_expression expression a1 = evaluate_expression expression a2.
Proof.
  intros Hagree. unfold evaluate_expression.
  destruct (to_postfix expression) as [postfix|e] eqn:Hp; [|done].
  simpl. apply eval_postfix_ext. intros token Ht Hvar.
  rewrite Hagree; [done|].
  apply elem_of_extract_variables. exists token.
  split; [by eapply to_postfix_elem | done].
Qed.


(** C7: under each of the four assignments of A and B, the texts
    "¬(A ∧ B)" and "¬A ∨ ¬B" evaluate to the same boolean. *)
Theorem de_morgan_duality (va vb : bool) :
  let assignment : gmap str bool :=
    <[utf8 "A" := va]> (<[utf8 "B" := vb]> ∅) in
  evaluate_expression (utf8 "¬(A ∧ B)") assignment
  = evaluate_expression (utf8 "¬A ∨ ¬B") assignment
  ∧ evaluate_expression (utf8 "¬(A ∧ B)") assignment = Ok (negb (va && vb)).
Proof. destruct va, vb; vm_compute; done. Qed.

End Evaluator.

(** ** The validator's name check *)

Section Names.
Context `{UnicodeData}.
Import LogicParser.

Lemma variable_has_length_one (token : str) :
  _is_variable token = true → length token = 1.
Proof. by destruct token as [|c [|d rest]]. Qed.

Lemma check_names_none (tokens : list str) : check_names tokens = None.
Proof.
  induction tokens as [|token rest IH]; [done|]. simpl.
  destruct (_is_variable token) eqn:Hvar; [|done].
  by rewrite (variable_has_length_one _ Hvar).
Qed.

(** C2 fails on the code: the name check never reports a token, because
    it asks of one token both to be a variable (one letter) and to be
    longer than one character.  The text "AB" is a single unknown token
    and is accepted. *)
Theorem unknown_token_is_accepted :
  (∀ expression, _check_variable_names expression = None)
  ∧ _tokenize (utf8 "AB") = [utf8 "AB"]
  ∧ _is_operator (utf8 "AB") = false
  ∧ validate_expression (utf8 "AB") = (true, ValidExpression).
Proof.
  split; [intros; apply check_names_none|]. by vm_compute.
Qed.
End Names.

(** ** The simplifier *)

Section Simplifier.
Import ExpressionSimplifier.

Lemma iteration_loop_body (st : loop_state) :
  iteration (loop_body st) = (iteration st + 1)%Z.
Proof.
  unfold loop_body.
  destruct (first_rule rules (current_expr st)) as [[[pattern replacement] e]|];
    cbn [current_expr]; by case_match.
Qed.

(** An iteration leaves [changed] false only if it applied no rule and
    removed no parentheses. *)
Lemma changed_loop_body (st : loop_state) :
  changed (loop_body st) = false ↔
  first_rule rules (current_expr st) = None
  ∧ _remove_redundant_parentheses (current_expr st) = current_expr st.
Proof.
  unfold loop_body.
  destruct (first_rule rules (current_expr st)) as [[[pattern replacement] e]|];
    cbn [current_expr].
  - split; [|by intros [? _]]. by case_match.
  - unfold Str.eqb. case_bool_decide as Heq; simpl.
    + by rewrite Heq.
    + split; [done|]. by intros [_ ?].
Qed.

Lemma while_loop_mono (fuel fuel' : nat) (st final : loop_state) :
  while_loop fuel st = Some final → fuel ≤ fuel' →
  while_loop fuel' st = Some final.
Proof.
  revert fuel' st. induction fuel as [|fuel IH]; intros fuel' st Hrun Hle;
    [done|].
  destruct fuel' as [|fuel']; [lia|]. simpl in *.
  destruct (loop_cond st); [|done]. apply IH; [done | lia].
Qed.

(** The loop runs for at most as many iterations as are left before the
    cap. *)
Lemma while_loop_bounded (budget : nat) :
  ∀ st, (max_iterations - iteration st ≤ Z.of_nat budget)%Z →
  ∃ n, n ≤ budget
    ∧ loop_cond (Nat.iter n loop_body st) = false
    ∧ (∀ k, k < n → loop_cond (Nat.iter k loop_body st) = true)
    ∧ ∀ fuel, n < fuel →
        while_loop fuel st = Some (Nat.iter n loop_body st).
Proof.
  induction budget as [|budget IH]; intros st Hleft.
  - exists 0. split; [done|]. assert (Hc : loop_cond st = false).
    { unfold loop_cond. rewrite andb_false_iff. right.
      apply Z.ltb_ge. lia. }
    split; [done|]. split; [lia|].
    intros [|fuel] Hf; [lia|]. simpl. by rewrite Hc.
  - destruct (loop_cond st) eqn:Hc.
    + destruct (IH (loop_body st)) as (n & Hn & Hstop & Hrun & Hfuel).
      { rewrite iteration_loop_body. lia. }
      exists (S n). rewrite Nat.iter_succ_r. split; [lia|].
      split; [done|]. split.
      * intros [|k] Hk; [done|]. rewrite Nat.iter_succ_r. apply Hrun. lia.
      * intros [|fuel] Hf; [lia|]. simpl. rewrite Hc. apply Hfuel. lia.
    + exists 0. split; [lia|]. split; [done|]. split; [lia|].
      intros [|fuel] Hf; [lia|]. simpl. by rewrite Hc.
Qed.

Lemma iteration_iter (n : nat) (st : loop_state) :
  iteration (Nat.iter n loop_body st) = (iteration st + Z.of_nat n)%Z.
Proof.
  induction n as [|n IH]; [cbn [Nat.iter nat_rect]; lia|].
  rewrite Nat.iter_succ, iteration_loop_body, IH. lia.
Qed.

Context `{UnicodeData}.

(** C8: [simplify] terminates on every input.  Its loop runs some number
    [n] of iterations with [n] at most 20, and stops there either because
    the last iteration applied no rule and removed no parentheses or
    because [n] is the cap of 20; the result is then one cleanup pass over
    the state the loop stopped in, whatever fuel above [n] is supplied. *)
Theorem simplify_terminates (expression : str) :
  ∃ n : nat,
    let run k := Nat.iter k loop_body (initial_state expression) in
    n ≤ 20
    ∧ (∀ k, k < n → loop_cond (run k) = true)
    ∧ loop_cond (run n) = false
    ∧ (n = 20 ∨
       ∃ k, n = S k
            ∧ first_rule rules (current_expr (run k)) = None
            ∧ _remove_redundant_parentheses (current_expr (run k))
              = current_expr (run k))
    ∧ ∀ fuel, n < fuel →
        simplify fuel expression = Some (final_cleanup (run n)).
Proof.
  destruct (while_loop_bounded 20 (initial_state expression))
    as (n & Hn & Hstop & Hrun & Hfuel); [done|].
  exists n. cbv zeta. split; [done|]. split; [done|]. split; [done|].
  split.
  - unfold loop_cond in Hstop. apply andb_false_iff in Hstop as [Hch | Hit].
    + right. destruct n as [|k]; [done|]. exists k. split; [done|].
      rewrite Nat.iter_succ in Hch. by apply changed_loop_body.
    + left. rewrite iteration_iter in Hit. apply Z.ltb_ge in Hit.
      change (iteration (initial_state expression)) with 0%Z in Hit.
      unfold max_iterations in Hit. lia.
  - intros fuel Hf. unfold simplify. by rewrite (Hfuel fuel Hf).
Qed.

(** C9: on "A ∧ 1" [simplify] returns the text "A", and the trace is the
    Original entry followed by exactly one step, the application of the
    identity law A ∧ 1 → A. *)
Theorem simplify_identity_law (fuel : nat) :
  20 < fuel →
  simplify fuel (utf8 "A ∧ 1")
  = Some (utf8 "A",
          [utf8 "Original: A ∧ 1"; utf8 "Applied A ∧ 1 → A: A"]).
Proof.
  intros Hf. unfold simplify.
  erewrite (while_loop_mono 21 fuel); [ | by vm_compute | lia].
  by vm_compute.
Qed.
End Simplifier.

(** ** Parentheses, from the text to the operator stack *)

Section CharFacts.
Local Open Scope Z_scope.

Ltac char_cases :=
  unfold Char.is_allowed, Char.is_token_symbol, Char.is_logic_symbol,
    Char.isspace, Char.is_alnum, Char.is_ascii_upper, Char.is_ascii_lower,
    Char.is_ascii_digit, Char.between, Char.lparen, Char.rparen in *;
  repeat match goal with
  | H : _ = true |- _ =>
    first [ apply orb_true_iff in H | apply andb_true_iff in H
          | apply Z.eqb_eq in H | apply Z.leb_le in H | apply Z.ltb_lt in H ]
  | H : _ = false |- _ =>
    first [ apply orb_false_iff in H | apply andb_false_iff in H
          | apply Z.eqb_neq in H | apply Z.leb_gt in H | apply Z.ltb_ge in H ]
  | H : _ ∧ _ |- _ => destruct H
  | H : _ ∨ _ |- _ => destruct H
  end.

Lemma paren_of_char_nil (c : Z) :
  c ≠ Char.lparen → c ≠ Char.rparen → paren_of_char c = [].
Proof.
  intros Hl Hr. unfold paren_of_char.
  by rewrite (proj2 (Z.eqb_neq _ _) Hl), (proj2 (Z.eqb_neq _ _) Hr).
Qed.

Lemma space_not_paren (c : Z) : Char.isspace c = true → paren_of_char c = [].
Proof.
  intros Hs. apply paren_of_char_nil; intros ->; by vm_compute in Hs.
Qed.

Lemma alnum_not_paren (c : Z) : Char.is_alnum c = true → paren_of_char c = [].
Proof.
  intros Hs. apply paren_of_char_nil; intros ->; by vm_compute in Hs.
Qed.

Lemma not_symbol_not_paren (c : Z) :
  Char.is_token_symbol c = false → paren_of_char c = [].
Proof.
  intros Hs. apply paren_of_char_nil; intros ->; by vm_compute in Hs.
Qed.

Lemma space_is_allowed (c : Z) : Char.isspace c = true → Char.is_allowed c = true.
Proof.
  intros Hs. unfold Char.is_allowed. rewrite Hs.
  by rewrite orb_true_r.
Qed.

Context `{UnicodeData}.

(** Upper-casing an allowed character neither makes nor removes a
    parenthesis. *)
Lemma upper_allowed_parens (c : Z) :
  Char.is_allowed c = true → parens (Char.upper c) = paren_of_char c.
Proof.
  intros Hall. unfold Char.upper.
  destruct (Char.is_ascii_lower c) eqn:Hlow.
  { unfold parens. simpl. rewrite app_nil_r.
    rewrite !paren_of_char_nil; [done | | | |]; char_cases; lia. }
  destruct (c <? 128) eqn:Hascii.
  { unfold parens. simpl. by rewrite app_nil_r. }
  destruct (Char.isspace c || Char.is_logic_symbol c) eqn:Hknown.
  { unfold parens. simpl. by rewrite app_nil_r. }
  exfalso. clear Hlow. char_cases; lia.
Qed.
End CharFacts.

Arguments parens : simpl never.
Arguments token_parens : simpl never.

Section ParenFacts.
Import LogicParser.

Lemma parens_app (s1 s2 : str) : parens (s1 ++ s2) = parens s1 ++ parens s2.
Proof. apply bind_app. Qed.

Lemma parens_cons (c : Z) (s : str) :
  parens (c :: s) = paren_of_char c ++ parens s.
Proof. done. Qed.

Lemma parens_singleton (c : Z) : parens [c] = paren_of_char c.
Proof. unfold parens. simpl. apply app_nil_r. Qed.

Lemma paren_of_char_reverse (c : Z) :
  reverse (paren_of_char c) = paren_of_char c.
Proof. unfold paren_of_char. by repeat case_match. Qed.

Lemma parens_reverse (s : str) : parens (reverse s) = reverse (parens s).
Proof.
  induction s as [|c s IH]; [done|].
  rewrite reverse_cons, parens_app, IH, (parens_cons c s), reverse_app.
  by rewrite paren_of_char_reverse, parens_singleton.
Qed.

Lemma parens_lstrip (s : str) : parens (Str.lstrip s) = parens s.
Proof.
  induction s as [|c s IH]; [done|]. simpl.
  destruct (Char.isspace c) eqn:Hs; [|done].
  by rewrite IH, (parens_cons c s), space_not_paren.
Qed.

Lemma parens_strip (s : str) : parens (Str.strip s) = parens s.
Proof.
  unfold Str.strip, Str.rstrip.
  by rewrite parens_reverse, parens_lstrip, parens_reverse, reverse_involutive,
    parens_lstrip.
Qed.

(** What holds of the stripped text and of white space holds of the text. *)
Lemma Forall_lstrip (P : Z → Prop) (s : str) :
  (∀ c, Char.isspace c = true → P c) →
  Forall P (Str.lstrip s) → Forall P s.
Proof.
  intros Hspace. induction s as [|c s IH]; [done|]. simpl.
  destruct (Char.isspace c) eqn:Hs; [|done].
  intros Hrest. constructor; [by apply Hspace | by apply IH].
Qed.

Lemma Forall_strip (P : Z → Prop) (s : str) :
  (∀ c, Char.isspace c = true → P c) →
  Forall P (Str.strip s) → Forall P s.
Proof.
  intros Hspace Hs. unfold Str.strip, Str.rstrip in Hs.
  apply (Forall_lstrip P); [done|].
  rewrite Forall_reverse in Hs. rewrite <- Forall_reverse.
  by apply (Forall_lstrip P).
Qed.

Lemma starts_with_spec (p s : str) :
  Str.starts_with p s = true → s = p ++ drop (length p) s.
Proof.
  revert s. induction p as [|a p IH]; intros s Hp; [done|].
  destruct s as [|b s]; [done|]. simpl in Hp.
  apply andb_true_iff in Hp as [Hab Hp]. apply Z.eqb_eq in Hab as ->.
  simpl. f_equal. by apply IH.
Qed.

(** Replacing a parenthesis-free text by a parenthesis-free text keeps
    the parentheses as they are. *)
Lemma parens_replace_from (old new : str) :
  old ≠ [] → parens old = [] → parens new = [] →
  ∀ s skip, parens (take skip s) = [] →
    parens (Str.replace_from old new skip s) = parens s.
Proof.
  intros Hne Hold Hnew. induction s as [|c s IH]; intros skip Hskip; [done|].
  simpl. destruct skip as [|k].
  - destruct (Str.starts_with old (c :: s)) eqn:Hp.
    + apply starts_with_spec in Hp.
      destruct old as [|a old']; [done|]. simpl in Hp.
      injection Hp as <- Hs. rewrite parens_cons in Hold.
      apply app_eq_nil in Hold as [Ha Hold'].
      rewrite parens_app, Hnew, parens_cons, Ha. simpl.
      apply IH. rewrite Hs at 1. by rewrite take_app_length.
    + rewrite !parens_cons. f_equal. by apply IH.
  - simpl in Hskip. rewrite parens_cons in Hskip.
    apply app_eq_nil in Hskip as [Hc Hskip].
    rewrite parens_cons, Hc. by apply IH.
Qed.

Lemma parens_replace (old new s : str) :
  old ≠ [] → parens old = [] → parens new = [] →
  parens (Str.replace old new s) = parens s.
Proof. intros. by apply parens_replace_from. Qed.

Lemma parens_apply_replacements (table : list (str * str)) (s : str) :
  Forall (λ r, r.1 ≠ [] ∧ parens r.1 = [] ∧ parens r.2 = []) table →
  parens (apply_replacements table s) = parens s.
Proof.
  unfold apply_replacements. revert s.
  induction table as [|r table IH]; intros s Htable; [done|].
  apply Forall_cons in Htable as [(Hne & Hold & Hnew) Htable].
  simpl. rewrite IH; [|done]. by apply parens_replace.
Qed.

Lemma replacements_have_no_parens :
  Forall (λ r : str * str, r.1 ≠ [] ∧ parens r.1 = [] ∧ parens r.2 = [])
         replacements.
Proof. apply (bool_decide_unpack _). by vm_compute. Qed.

Lemma paren_of_token_char (c : Z) : paren_of_token [c] = paren_of_char c.
Proof.
  unfold paren_of_token, paren_of_char, Str.eqb.
  change (utf8 "(") with [Char.lparen]. change (utf8 ")") with [Char.rparen].
  destruct (Z.eqb_spec c Char.lparen) as [-> | Hl].
  { by rewrite bool_decide_eq_true_2. }
  rewrite bool_decide_eq_false_2 by congruence.
  destruct (Z.eqb_spec c Char.rparen) as [-> | Hr].
  { by rewrite bool_decide_eq_true_2. }
  by rewrite bool_decide_eq_false_2 by congruence.
Qed.

Lemma alnum_run_not_paren (run : str) :
  Forall (λ c, Char.is_alnum c = true) run →
  token_parens (flush_run run) = [].
Proof.
  intros Hrun. destruct run as [|c run]; [done|].
  apply Forall_cons in Hrun as [Hc Hrun].
  unfold token_parens. simpl. rewrite app_nil_r.
  destruct run as [|d run].
  - rewrite paren_of_token_char. by apply alnum_not_paren.
  - unfold paren_of_token, Str.eqb.
    rewrite !bool_decide_eq_false_2; [done | by vm_compute | by vm_compute].
Qed.

Lemma token_parens_cons (token : str) (tokens : list str) :
  token_parens (token :: tokens) = paren_of_token token ++ token_parens tokens.
Proof. done. Qed.

Lemma token_parens_app (l1 l2 : list str) :
  token_parens (l1 ++ l2) = token_parens l1 ++ token_parens l2.
Proof. apply bind_app. Qed.

(** The tokens found in a text carry its parentheses, in order. *)
Lemma token_parens_findall (expr : str) :
  ∀ run, Forall (λ c, Char.is_alnum c = true) run →
  token_parens (findall_tokens run expr) = parens expr.
Proof.
  induction expr as [|c rest IH]; intros run Hrun.
  - simpl. by apply alnum_run_not_paren.
  - simpl. destruct (Char.is_alnum c) eqn:Hc.
    + rewrite parens_cons, alnum_not_paren by done. simpl.
      apply IH. apply Forall_app. split; [done|]. by constructor.
    + rewrite !token_parens_app, alnum_run_not_paren by done. simpl.
      rewrite IH by constructor. rewrite parens_cons. f_equal.
      destruct (Char.is_token_symbol c) eqn:Hsym.
      * unfold token_parens. simpl.
        by rewrite app_nil_r, paren_of_token_char.
      * by rewrite not_symbol_not_paren.
Qed.

Lemma token_parens_filter (f : str → bool) (tokens : list str) :
  f (utf8 "(") = true → f (utf8 ")") = true →
  token_parens (List.filter f tokens) = token_parens tokens.
Proof.
  intros Hl Hr. induction tokens as [|token rest IH]; [done|]. simpl.
  destruct (f token) eqn:Hf.
  - by rewrite !token_parens_cons, IH.
  - rewrite token_parens_cons, IH.
    unfold paren_of_token, Str.eqb. repeat case_bool_decide; subst; first [congruence | done].
Qed.

Context `{UnicodeData}.

Lemma parens_upper (s : str) :
  Forall (λ c, Char.is_allowed c = true) s → parens (Str.upper s) = parens s.
Proof.
  induction 1 as [|c s Hc Hs IH]; [done|].
  change (Str.upper (c :: s)) with (Char.upper c ++ Str.upper s).
  by rewrite parens_app, IH, parens_cons, upper_allowed_parens.
Qed.

(** The token list of a text of allowed characters has the parentheses
    of the text. *)
Lemma token_parens_tokenize (expression : str) :
  Forall (λ c, Char.is_allowed c = true) expression →
  token_parens (_tokenize expression) = parens expression.
Proof.
  intros Hall. unfold _tokenize.
  rewrite token_parens_filter by (by vm_compute).
  rewrite token_parens_findall by constructor.
  rewrite parens_apply_replacements by apply replacements_have_no_parens.
  by apply parens_upper.
Qed.
End ParenFacts.

(** ** A valid text converts to postfix *)

Section ValidTexts.
Context `{UnicodeData}.
Import LogicParser.

Lemma check_balanced_walk (s : str) :
  ∀ stack, check_balanced_from stack s = walk (length stack) (parens s).
Proof.
  induction s as [|c s IH]; intros stack; [done|].
  rewrite parens_cons. simpl. unfold paren_of_char.
  destruct (c =? Char.lparen)%Z; [by rewrite IH|].
  destruct (c =? Char.rparen)%Z; [|by rewrite IH].
  destruct stack; [done | by rewrite IH].
Qed.

Lemma count_lparen_cons (token : str) (stack : list str) :
  count_lparen (token :: stack)
  = (if Str.eqb token (utf8 "(") then 1 else 0) + count_lparen stack.
Proof. unfold count_lparen. simpl. by case_match. Qed.

Lemma pop_until_lparen (stack output s1 o1 : list str) :
  pop_while not_lparen stack output = (s1, o1) →
  match s1 with
  | [] => count_lparen stack = 0
  | _ :: s2 => count_lparen stack = S (count_lparen s2)
  end.
Proof.
  revert output. induction stack as [|top below IH]; intros output Hpop.
  - simpl in Hpop. by injection Hpop as <- <-.
  - simpl in Hpop. rewrite count_lparen_cons.
    unfold not_lparen in Hpop. destruct (Str.eqb top (utf8 "(")); simpl in *.
    + by injection Hpop as <- <-.
    + by apply IH in Hpop.
Qed.

Lemma pop_while_keeps_lparens (f : str → bool)
    (stack output s1 o1 : list str) :
  (∀ t, f t = true → not_lparen t = true) →
  pop_while f stack output = (s1, o1) →
  count_lparen s1 = count_lparen stack.
Proof.
  intros Hf. revert output.
  induction stack as [|top below IH]; intros output Hpop.
  - simpl in Hpop. by injection Hpop as <- <-.
  - simpl in Hpop. destruct (f top) eqn:Htop.
    + apply IH in Hpop. rewrite Hpop, count_lparen_cons.
      apply Hf in Htop. unfold not_lparen in Htop.
      by destruct (Str.eqb top (utf8 "(")).
    + by injection Hpop as <- <-.
Qed.

Lemma operand_not_paren (token : str) :
  is_operand token = true → paren_of_token token = [].
Proof.
  intros Hop. unfold paren_of_token, Str.eqb.
  repeat case_bool_decide; subst; by vm_compute in Hop.
Qed.

(** When the parentheses of the tokens still to come close no more than
    the stack holds open, the conversion never pops an empty stack. *)
Lemma shunting_yard_ok (tokens : list str) :
  ∀ stack output,
    walk (count_lparen stack) (token_parens tokens) = true →
    ∃ postfix, shunting_yard tokens stack output = Ok postfix.
Proof.
  induction tokens as [|token rest IH]; intros stack output Hwalk.
  { simpl. by eexists. }
  rewrite token_parens_cons in Hwalk. simpl.
  destruct (is_operand token) eqn:Hop.
  { apply IH. by rewrite operand_not_paren in Hwalk. }
  unfold paren_of_token in Hwalk.
  destruct (Str.eqb token (utf8 "(")) eqn:Hl.
  { apply IH. by rewrite count_lparen_cons, Hl. }
  destruct (Str.eqb token (utf8 ")")) eqn:Hr.
  { destruct (pop_while not_lparen stack output) as [s1 o1] eqn:Hpop.
    apply pop_until_lparen in Hpop. simpl in Hwalk.
    destruct s1 as [|top s2]; [by rewrite Hpop in Hwalk|].
    apply IH. by rewrite Hpop in Hwalk. }
  destruct (pop_while _ stack output) as [s1 o1] eqn:Hpop.
  apply pop_while_keeps_lparens in Hpop.
  - apply IH. by rewrite count_lparen_cons, Hl, Hpop.
  - intros t Ht. by apply andb_true_iff in Ht as [? _].
Qed.

Lemma no_invalid_characters (s : str) :
  _find_invalid_characters s = [] →
  Forall (λ c, Char.is_allowed c = true) s.
Proof.
  unfold _find_invalid_characters. intros Hnone.
  apply elements_empty_inv in Hnone. apply Forall_forall. intros c Hc.
  destruct (Char.is_allowed c) eqn:Hall; [done|].
  assert (Hin : c ∈ (list_to_set
    (List.filter (λ c, negb (Char.is_allowed c)) s) : gset Z)).
  { apply elem_of_list_to_set, list_elem_of_In, filter_In.
    split; [by apply list_elem_of_In | by rewrite Hall]. }
  rewrite Hnone in Hin. by apply elem_of_empty in Hin.
Qed.

(** What the validator has established when it answers valid. *)
Lemma validate_expression_true (expression : str) :
  (validate_expression expression).1 = true →
  Str.strip expression ≠ []
  ∧ _check_balanced_parentheses (Str.strip expression) = true
  ∧ Forall (λ c, Char.is_allowed c = true) (Str.strip expression)
  ∧ _check_operator_placement (Str.strip expression) = None.
Proof.
  unfold validate_expression.
  destruct (Str.is_empty expression || Str.is_empty (Str.strip expression))
    eqn:Hempty; [done|].
  apply orb_false_iff in Hempty as [_ Hempty].
  destruct (_check_balanced_parentheses (Str.strip expression)); [|done].
  cbn [negb]. case_bool_decide as Hinv; [|done]. cbn [negb].
  destruct (_check_operator_placement (Str.strip expression)); [done|].
  intros _. split; [by destruct (Str.strip expression)|].
  split; [done|]. split; [by apply no_invalid_characters | done].
Qed.

Lemma valid_to_postfix (expression : str) :
  (validate_expression expression).1 = true →
  ∃ postfix, to_postfix expression = Ok postfix.
Proof.
  intros Hvalid.
  apply validate_expression_true in Hvalid as (_ & Hbal & Hall & _).
  apply shunting_yard_ok.
  rewrite token_parens_tokenize.
  - unfold _check_balanced_parentheses in Hbal.
    by rewrite check_balanced_walk, parens_strip in Hbal.
  - apply (Forall_strip _ _ space_is_allowed Hall).
Qed.

Lemma apply_operator_result (l r : bool) (operator : str) :
  (∃ b, _apply_operator l r operator = Ok b)
  ∨ (∃ msg, _apply_operator l r operator = Raise (ValueError msg)).
Proof. unfold _apply_operator. repeat case_match; eauto. Qed.

(** The evaluation loop ends in a boolean or in one of its own errors. *)
Lemma eval_postfix_result (a : gmap str bool) (postfix : list str) :
  ∀ stack,
    (∃ b, eval_postfix a postfix stack = Ok b)
    ∨ (∃ msg, eval_postfix a postfix stack = Raise (ValueError msg)).
Proof.
  induction postfix as [|token rest IH]; intros stack; simpl.
  - destruct stack as [|v [|w stack]]; eauto.
  - destruct (is_operand token); [by case_match|].
    destruct (mem token negations).
    + destruct stack; eauto.
    + destruct stack as [|r [|l below]]; eauto.
      destruct (apply_operator_result l r token) as [[b ->] | [msg ->]];
        simpl; eauto.
Qed.

(** C1, amended: for every text on which [validate_expression] answers
    valid and for every assignment, the postfix conversion succeeds and
    [evaluate_expression] ends either in a single boolean or in one of the
    evaluator's own errors (a missing operand for a negation, missing
    operands for a binary operator, a stack that does not hold exactly one
    value, an unknown operator); it never fails by popping an empty
    stack. *)
Theorem valid_expression_evaluates_or_reports
    (expression : str) (assignment : gmap str bool) :
  (validate_expression expression).1 = true →
  (∃ postfix, to_postfix expression = Ok postfix)
  ∧ ((∃ b, evaluate_expression expression assignment = Ok b)
     ∨ (∃ msg, evaluate_expression expression assignment
               = Raise (ValueError msg))).
Proof.
  intros Hvalid. destruct (valid_to_postfix _ Hvalid) as [postfix Hp].
  split; [by eexists|]. unfold evaluate_expression. rewrite Hp. simpl.
  apply eval_postfix_result.
Qed.
End ValidTexts.

(** ** Truth tables *)

Section Combinations.
Import TruthTableGenerator.

Lemma product_snoc {A} (pools : list (list A)) (pool : list A) :
  product (pools ++ [pool]) = x ← product pools; y ← pool; [x ++ [y]].
Proof. unfold product. by rewrite foldl_app. Qed.

Lemma product_bools_S (n : nat) :
  product (replicate (S n) [false; true])
  = product (replicate n [false; true]) ≫= λ x, [x ++ [false]; x ++ [true]].
Proof. by rewrite replicate_S_end, product_snoc. Qed.

Lemma length_bind_pair {A B} (f g : A → B) (l : list A) :
  length (l ≫= λ x, [f x; g x]) = 2 * length l.
Proof. induction l as [|x l IH]; [done|]. cbn. rewrite IH. lia. Qed.

Lemma lookup_bind_pair {A B} (f g : A → B) (l : list A) :
  ∀ i, (l ≫= λ x, [f x; g x]) !! i
       = (λ x, if Nat.odd i then g x else f x) <$> l !! Nat.div2 i.
Proof.
  induction l as [|x l IH]; intros i; [done|].
  destruct i as [|[|i]]; [done | done |].
  change ((x :: l) ≫= λ x, [f x; g x])
    with (f x :: g x :: (l ≫= λ x, [f x; g x])).
  cbn [lookup list_lookup]. rewrite IH.
  change (Nat.div2 (S (S i))) with (S (Nat.div2 i)).
  by rewrite Nat.odd_succ_succ.
Qed.

Lemma length_product_bools (n : nat) :
  length (product (replicate n [false; true])) = 2 ^ n.
Proof.
  induction n as [|n IH]; [done|].
  rewrite product_bools_S, length_bind_pair, IH. simpl. lia.
Qed.

Lemma bits_S (n i : nat) : bits (S n) i = bits n (Nat.div2 i) ++ [Nat.odd i].
Proof.
  unfold bits. rewrite seq_S, fmap_app. f_equal.
  - apply list_fmap_ext. intros k j Hj.
    apply lookup_seq in Hj as [-> Hk]. simpl in *.
    replace (n - 0 - k) with (S (n - 1 - k)) by lia. done.
  - simpl. by replace (n - 0 - n) with 0 by lia.
Qed.

(** The combinations come in binary counting order. *)
Lemma product_bools_lookup (n : nat) :
  ∀ i, i < 2 ^ n →
    product (replicate n [false; true]) !! i = Some (bits n i).
Proof.
  induction n as [|n IH]; intros i Hi.
  - simpl in Hi. by replace i with 0 by lia.
  - rewrite product_bools_S, lookup_bind_pair, bits_S, IH.
    + simpl. by destruct (Nat.odd i).
    + pose proof (Nat.div2_odd i) as Hdiv. rewrite Nat.pow_succ_r' in Hi.
      destruct (Nat.odd i); simpl in Hdiv; lia.
Qed.

Lemma length_bits (n i : nat) : length (bits n i) = n.
Proof. unfold bits. by rewrite length_fmap, length_seq. Qed.
End Combinations.

Section Sorting.
Import TruthTableGenerator.

Lemma leb_total (a b : str) : Str.leb a b = true ∨ Str.leb b a = true.
Proof.
  revert b. induction a as [|x a IH]; intros [|y b]; simpl; auto.
  destruct (Z.ltb_spec x y); [by left|].
  destruct (Z.ltb_spec y x); [by right|].
  assert (x = y) as -> by lia. rewrite Z.eqb_refl. simpl. apply IH.
Qed.

Lemma leb_trans (a b c : str) :
  Str.leb a b = true → Str.leb b c = true → Str.leb a c = true.
Proof.
  revert b c. induction a as [|x a IH]; intros [|y b] [|z c]; simpl; auto;
    try done.
  intros Hab Hbc.
  apply orb_true_iff in Hab as [Hxy | Hab];
    apply orb_true_iff in Hbc as [Hyz | Hbc].
  - apply Z.ltb_lt in Hxy, Hyz.
    rewrite (proj2 (Z.ltb_lt x z)) by lia. done.
  - apply andb_true_iff in Hbc as [Hyz _]. apply Z.eqb_eq in Hyz as ->.
    by rewrite Hxy.
  - apply andb_true_iff in Hab as [Hxy _]. apply Z.eqb_eq in Hxy as ->.
    by rewrite Hyz.
  - apply andb_true_iff in Hab as [Hxy Hab].
    apply andb_true_iff in Hbc as [Hyz Hbc].
    apply Z.eqb_eq in Hxy as ->. apply Z.eqb_eq in Hyz as ->.
    rewrite Z.eqb_refl, (IH _ _ Hab Hbc). apply orb_true_r.
Qed.

#[export] Instance str_le_total : Total str_le.
Proof.
  intros a b. unfold str_le.
  destruct (leb_total a b) as [-> | ->]; [by left | by right].
Qed.

#[export] Instance str_le_trans : Transitive str_le.
Proof.
  intros a b c. unfold str_le. rewrite !Is_true_true. apply leb_trans.
Qed.

Lemma sorted_spec (variables : gset str) :
  StronglySorted str_le (sorted variables)
  ∧ NoDup (sorted variables)
  ∧ (∀ name, name ∈ sorted variables ↔ name ∈ variables)
  ∧ length (sorted variables) = size variables.
Proof.
  unfold sorted.
  pose proof (merge_sort_Permutation str_le (elements variables)) as Hperm.
  split; [apply (StronglySorted_merge_sort _)|].
  split; [rewrite Hperm; apply NoDup_elements|].
  split; [intros name; by rewrite Hperm, elem_of_elements|].
  by rewrite Hperm.
Qed.
End Sorting.

Section TruthTables.
Context `{UnicodeData}.
Import LogicParser TruthTableGenerator.

Lemma table_rows_spec (expression : str) (variables : list str)
    (combinations : list (list bool)) :
  ∀ table_data rows vs,
    table_rows expression variables combinations table_data = Ok (rows, vs) →
    vs = variables
    ∧ ∃ new_rows, rows = table_data ++ new_rows
        ∧ Forall2 (is_row_of expression variables) combinations new_rows.
Proof.
  induction combinations as [|combo rest IH]; intros table_data rows vs Hrun.
  - simpl in Hrun. injection Hrun as <- <-. split; [done|].
    exists []. by rewrite app_nil_r.
  - simpl in Hrun.
    destruct (evaluate_expression expression (dict (zip variables combo)))
      as [value|e] eqn:Hev; [|done].
    apply IH in Hrun as (-> & new_rows & -> & Hrows). split; [done|].
    eexists (_ :: new_rows). rewrite <- app_assoc. split; [done|].
    constructor; [by exists value | done].
Qed.

Lemma table_rows_ok (expression : str) (variables : list str)
    (combinations : list (list bool)) :
  (∀ combo, combo ∈ combinations →
     is_ok (evaluate_expression expression (dict (zip variables combo)))
     = true) →
  ∀ table_data,
    is_ok (table_rows expression variables combinations table_data) = true.
Proof.
  induction combinations as [|combo rest IH]; intros Hok table_data; [done|].
  cbn [table_rows]. pose proof (Hok combo ltac:(by left)) as Hhere.
  destruct (evaluate_expression expression (dict (zip variables combo)));
    [|done].
  apply IH. intros c Hc. apply Hok. by right.
Qed.

Lemma table_rows_raise (expression : str) (variables : list str)
    (combinations : list (list bool)) :
  ∀ table_data err,
    table_rows expression variables combinations table_data = Raise err →
    ∃ combo e, combo ∈ combinations
      ∧ evaluate_expression expression (dict (zip variables combo)) = Raise e
      ∧ err = ErrorEvaluatingExpression e.
Proof.
  induction combinations as [|combo rest IH]; intros table_data err Hrun;
    [done|].
  simpl in Hrun.
  destruct (evaluate_expression expression (dict (zip variables combo)))
    as [value|e] eqn:Hev.
  - apply IH in Hrun as (c & e & Hc & He & ->).
    exists c, e. split; [by right | done].
  - injection Hrun as <-. exists combo, e. split; [by left | done].
Qed.

Lemma count_true_ok (table_data : list (gmap str bool)) :
  Forall (λ row, is_Some (row !! result_key)) table_data →
  ∃ count, count_true table_data = Ok count
           ∧ (0 ≤ count ≤ Z.of_nat (length table_data))%Z.
Proof.
  induction 1 as [|row rest [value Hrow] _ (count & Hcount & Hbound)].
  - exists 0%Z. split; [done | simpl; lia].
  - simpl. rewrite Hrow, Hcount. simpl. eexists. split; [done|].
    destruct value; lia.
Qed.

Lemma summary_of_rows (expression : str) (variables : list str)
    (combinations : list (list bool)) (rows : list (gmap str bool)) :
  Forall2 (is_row_of expression variables) combinations rows →
  rows ≠ [] →
  ∃ s, get_truth_table_summary rows variables = Ok (Some s)
    ∧ total_rows s = Z.of_nat (length rows)
    ∧ (true_count s + false_count s = Z.of_nat (length rows))%Z
    ∧ (0 ≤ true_count s)%Z ∧ (0 ≤ false_count s)%Z.
Proof.
  intros Hrows Hne.
  destruct (count_true_ok rows) as (count & Hcount & Hbound).
  { apply Forall2_Forall_r with (1 := Hrows). apply Forall_forall.
    intros combo _ row (value & _ & ->). exists value.
    apply lookup_insert_eq. }
  unfold get_truth_table_summary. destruct rows as [|row rest]; [done|].
  rewrite Hcount. eexists. split; [reflexivity|].
  cbn [total_rows true_count false_count]. lia.
Qed.

(** What a successful run of [generate_truth_table] on a text with
    variables returns. *)
Lemma generate_truth_table_rows (expression : str)
    (rows : list (gmap str bool)) (vs : list str) :
  sorted (extract_variables expression) ≠ [] →
  generate_truth_table expression = Ok (rows, vs) →
  vs = sorted (extract_variables expression)
  ∧ Forall2 (is_row_of expression vs)
            (product (replicate (length vs) [false; true])) rows.
Proof.
  intros Hvars. unfold generate_truth_table.
  destruct (validate_expression expression) as [[|] reason]; [|done].
  cbn [negb].
  destruct (sorted (extract_variables expression)) as [|v vars] eqn:Hs;
    [done|].
  intros Hrun. apply table_rows_spec in Hrun as (-> & new_rows & -> & Hrows).
  done.
Qed.
End TruthTables.

Section TruthTableTheorems.
Context `{UnicodeData}.
Import LogicParser TruthTableGenerator.

(** C4, amended: for every valid text with [n] distinct variables, [n] at
    least 1, there are [2^n] combinations, and [generate_truth_table]
    either returns exactly [2^n] rows, for which the summary counts true
    and false rows that add up to [2^n], or raises the error of an
    evaluation that failed; it returns whenever every one of the [2^n]
    evaluations succeeds. *)
Theorem truth_table_size (expression : str) (n : nat) :
  (validate_expression expression).1 = true →
  size (extract_variables expression) = n →
  1 ≤ n →
  let variables := sorted (extract_variables expression) in
  let combinations := product (replicate n [false; true]) in
  length combinations = 2 ^ n
  ∧ (∀ rows vs,
       generate_truth_table expression = Ok (rows, vs) →
       vs = variables ∧ length rows = 2 ^ n
       ∧ ∃ s, get_truth_table_summary rows vs = Ok (Some s)
              ∧ total_rows s = (2 ^ Z.of_nat n)%Z
              ∧ (true_count s + false_count s = 2 ^ Z.of_nat n)%Z)
  ∧ ((∀ combo, combo ∈ combinations →
        is_ok (evaluate_expression expression (dict (zip variables combo)))
        = true) →
     is_ok (generate_truth_table expression) = true)
  ∧ (∀ err,
       generate_truth_table expression = Raise err →
       ∃ combo e, combo ∈ combinations
         ∧ evaluate_expression expression (dict (zip variables combo))
           = Raise e
         ∧ err = ErrorEvaluatingExpression e).
Proof.
  intros Hvalid Hsize Hn variables combinations.
  destruct (sorted_spec (extract_variables expression))
    as (_ & _ & _ & Hlen).
  fold variables in Hlen. rewrite Hsize in Hlen.
  assert (Hvars : variables ≠ []).
  { intros Hnil. rewrite Hnil in Hlen. simpl in Hlen. lia. }
  split; [apply length_product_bools|]. split; [|split].
  - intros rows vs Hrun.
    apply generate_truth_table_rows in Hrun as [-> Hrows]; [|done].
    fold variables in Hrows |- *. rewrite Hlen in Hrows.
    pose proof (Forall2_length _ _ _ Hrows) as Hrl.
    rewrite length_product_bools in Hrl.
    split; [done|]. split; [done|].
    destruct (summary_of_rows _ _ _ _ Hrows) as (s & Hs & Ht & Hsum & _).
    { intros ->. simpl in Hrl. pose proof (Nat.pow_nonzero 2 n). lia. }
    exists s. rewrite Ht, Hsum, <- Hrl, Nat2Z.inj_pow. done.
  - intros Hok. unfold generate_truth_table.
    destruct (validate_expression expression) as [[|] reason]; [|done].
    cbn [negb]. fold variables.
    destruct variables as [|v vars] eqn:Hv; [done|].
    rewrite Hlen. by apply table_rows_ok.
  - intros err. unfold generate_truth_table.
    destruct (validate_expression expression) as [[|] reason]; [|done].
    cbn [negb]. fold variables.
    destruct variables as [|v vars] eqn:Hv; [done|].
    rewrite Hlen. apply table_rows_raise.
Qed.

(** C5: [generate_truth_table] enumerates the assignments in binary
    counting order, the first variable of the lexicographically sorted
    list being the most significant bit and false coming before true: row
    [i] assigns to the variables the [n] binary digits of [i].  On
    "A XOR B" it returns the rows (F,F)->F, (F,T)->T, (T,F)->T, (T,T)->F
    in that order. *)
Theorem truth_table_order :
  (∀ n i, i < 2 ^ n →
     product (replicate n [false; true]) !! i = Some (bits n i))
  ∧ (∀ expression rows vs,
       sorted (extract_variables expression) ≠ [] →
       generate_truth_table expression = Ok (rows, vs) →
       vs = sorted (extract_variables expression)
       ∧ StronglySorted str_le vs
       ∧ ∀ i, i < 2 ^ length vs →
           let assignment := dict (zip vs (bits (length vs) i)) in
           ∃ value,
             evaluate_expression expression assignment = Ok value
             ∧ rows !! i = Some (<[result_key := value]> assignment))
  ∧ generate_truth_table (utf8 "A XOR B")
    = Ok ([ {[ utf8 "A" := false; utf8 "B" := false; utf8 "result" := false ]};
            {[ utf8 "A" := false; utf8 "B" := true; utf8 "result" := true ]};
            {[ utf8 "A" := true; utf8 "B" := false; utf8 "result" := true ]};
            {[ utf8 "A" := true; utf8 "B" := true; utf8 "result" := false ]} ],
          [utf8 "A"; utf8 "B"]).
Proof.
  split; [apply product_bools_lookup|]. split; [|vm_compute; reflexivity].
  intros expression rows vs Hvars Hrun.
  apply generate_truth_table_rows in Hrun as [Hvs Hrows]; [|done].
  split; [done|]. split.
  { rewrite Hvs. apply sorted_spec. }
  intros i Hi assignment.
  pose proof (product_bools_lookup _ _ Hi) as Hcombo.
  destruct (Forall2_lookup_l _ _ _ _ _ Hrows Hcombo)
    as (row & Hrow & value & Hvalue & ->).
  by exists value.
Qed.
End TruthTableTheorems.

(** * Further properties of the engine *)

Ltac bool_to_Z :=
  unfold Char.is_allowed, Char.is_token_symbol, Char.is_logic_symbol,
    Char.isspace, Char.is_alnum, Char.is_ascii_upper, Char.is_ascii_lower,
    Char.is_ascii_digit, Char.between, Char.lparen, Char.rparen in *;
  repeat match goal with
  | H : _ = true |- _ =>
    first [ apply orb_true_iff in H | apply andb_true_iff in H
          | apply Z.eqb_eq in H | apply Z.leb_le in H | apply Z.ltb_lt in H ]
  | H : _ = false |- _ =>
    first [ apply orb_false_iff in H | apply andb_false_iff in H
          | apply Z.eqb_neq in H | apply Z.leb_gt in H | apply Z.ltb_ge in H ]
  | H : _ ∧ _ |- _ => destruct H
  | H : _ ∨ _ |- _ => destruct H
  end.

(** ** The shape of tokens and of variable names *)

Section Tokens.
Import LogicParser.

Lemma alnum_not_space (c : Z) : Char.is_alnum c = true → Char.isspace c = false.
Proof.
  intros Hc. destruct (Char.isspace c) eqn:Hs; [|done].
  exfalso. bool_to_Z; lia.
Qed.

Lemma symbol_not_space (c : Z) :
  Char.is_token_symbol c = true → Char.isspace c = false.
Proof.
  intros Hc. destruct (Char.isspace c) eqn:Hs; [|done].
  exfalso. bool_to_Z; lia.
Qed.

Lemma lstrip_no_space (t : str) :
  Forall (λ c, Char.isspace c = false) t → Str.lstrip t = t.
Proof.
  destruct t as [|c t]; [done|]. intros Ht.
  apply Forall_cons in Ht as [Hc _]. simpl. by rewrite Hc.
Qed.

Lemma strip_no_space (t : str) :
  Forall (λ c, Char.isspace c = false) t → Str.strip t = t.
Proof.
  intros Ht. unfold Str.strip, Str.rstrip.
  rewrite (lstrip_no_space t Ht), lstrip_no_space, reverse_involutive; [done|].
  by rewrite Forall_reverse.
Qed.

Lemma forallb_Forall_true {A} (f : A → bool) (l : list A) :
  forallb f l = true ↔ Forall (λ x, f x = true) l.
Proof.
  induction l as [|x l IH]; simpl.
  - split; [constructor | done].
  - rewrite andb_true_iff, IH, Forall_cons. done.
Qed.

Lemma filter_all_true {A} (f : A → bool) (l : list A) :
  Forall (λ x, f x = true) l → List.filter f l = l.
Proof.
  induction 1 as [|x l Hx _ IH]; [done|]. simpl. by rewrite Hx, IH.
Qed.

Lemma is_word_spec (t : str) :
  is_word t = true ↔ t ≠ [] ∧ Forall (λ c, Char.is_alnum c = true) t.
Proof.
  unfold is_word. rewrite andb_true_iff, forallb_Forall_true.
  destruct t as [|c t]; simpl.
  - split; intros [? _]; done.
  - split; intros [_ ?]; by split.
Qed.

Lemma findall_shapes (expr : str) :
  ∀ run, Forall (λ c, Char.is_alnum c = true) run →
    Forall (λ t, is_word t || is_symbol_token t = true)
           (findall_tokens run expr).
Proof.
  assert (Hflush : ∀ run, Forall (λ c, Char.is_alnum c = true) run →
    Forall (λ t, is_word t || is_symbol_token t = true) (flush_run run)).
  { intros [|c run] Hrun; [constructor|]. repeat constructor.
    apply orb_true_iff. left. by apply is_word_spec. }
  induction expr as [|c rest IH]; intros run Hrun; simpl; [by apply Hflush|].
  destruct (Char.is_alnum c) eqn:Hc.
  - apply IH. apply Forall_app. split; [done | by constructor].
  - apply Forall_app. split; [by apply Hflush|].
    apply Forall_app. split; [|by apply IH].
    destruct (Char.is_token_symbol c) eqn:Hsym; repeat constructor.
    simpl. rewrite Hsym. apply orb_true_r.
Qed.

Lemma shape_survives_filter (t : str) :
  is_word t || is_symbol_token t = true →
  negb (Str.is_empty (Str.strip t)) = true.
Proof.
  intros Hshape. apply orb_true_iff in Hshape as [Hw | Hs].
  - apply is_word_spec in Hw as [Hne Hall]. rewrite strip_no_space.
    + by destruct t.
    + eapply Forall_impl; [exact Hall|]. apply alnum_not_space.
  - destruct t as [|c [|d t]]; try done. simpl in Hs.
    rewrite strip_no_space; [done|]. repeat constructor.
    by apply symbol_not_space.
Qed.

Context `{UnicodeData}.

Lemma tokenize_findall (expression : str) :
  _tokenize expression
  = findall_tokens [] (apply_replacements replacements (Str.upper expression)).
Proof.
  unfold _tokenize. apply filter_all_true.
  eapply Forall_impl; [apply findall_shapes; constructor|].
  apply shape_survives_filter.
Qed.

Lemma tokenize_shapes (expression : str) :
  Forall (λ t, is_word t || is_symbol_token t = true) (_tokenize expression).
Proof. rewrite tokenize_findall. apply findall_shapes. constructor. Qed.

(** X1: every token is a non-empty word of ASCII letters and digits or a
    single symbol of the tokenizer's class; no token is blank, so the
    filter that ends [_tokenize] removes nothing. *)
Theorem tokens_are_words_or_symbols (expression : str) :
  _tokenize expression
  = findall_tokens [] (apply_replacements replacements (Str.upper expression))
  ∧ Forall (λ t, is_word t || is_symbol_token t = true)
           (_tokenize expression)
  ∧ Forall (λ t, Str.strip t = t ∧ t ≠ []) (_tokenize expression).
Proof.
  split; [apply tokenize_findall|]. split; [apply tokenize_shapes|].
  eapply Forall_impl; [apply tokenize_shapes|]. intros t Hshape. cbv beta in *.
  apply orb_true_iff in Hshape as [Hw | Hs].
  - apply is_word_spec in Hw as [Hne Hall]. split; [|done].
    apply strip_no_space. eapply Forall_impl; [exact Hall|].
    apply alnum_not_space.
  - destruct t as [|c [|d t]]; try done. simpl in Hs. split; [|done].
    apply strip_no_space. repeat constructor. by apply symbol_not_space.
Qed.

Lemma variable_token_letter (t : str) :
  is_word t || is_symbol_token t = true → _is_variable t = true →
  ∃ c, t = [c] ∧ Char.is_ascii_upper c = true ∧ Str.upper t = t.
Proof.
  intros Hshape Hvar. destruct t as [|c [|d t]]; try done.
  exists c. unfold _is_variable in Hvar.
  apply andb_true_iff in Hvar as [Halpha Hupper].
  unfold Char.isalpha, Char.isupper in *.
  assert (Hup : Char.is_ascii_upper c = true).
  { destruct (c <? 128)%Z eqn:Hascii; [done|].
    apply orb_true_iff in Hshape as [Hw | Hs].
    - apply is_word_spec in Hw as [_ Hall].
      apply Forall_cons in Hall as [Hc _]. exfalso. bool_to_Z; lia.
    - simpl in Hs. destruct (Char.isspace c || Char.is_logic_symbol c)
        eqn:Hknown; [done|]. exfalso. bool_to_Z; lia. }
  split; [done|]. split; [done|].
  unfold Str.upper. simpl. unfold Char.upper.
  assert (Char.is_ascii_lower c = false) as ->.
  { destruct (Char.is_ascii_lower c) eqn:Hl; [|done]. exfalso. bool_to_Z; lia. }
  assert ((c <? 128)%Z = true) as ->; [|done].
  apply Z.ltb_lt. bool_to_Z; lia.
Qed.

Lemma extracted_variable_letter (expression : str) (name : str) :
  name ∈ extract_variables expression →
  ∃ c, name = [c] ∧ Char.is_ascii_upper c = true.
Proof.
  intros Hin. apply elem_of_extract_variables in Hin as (t & Ht & Hvar & ->).
  pose proof (tokenize_shapes expression) as Hshapes.
  rewrite Forall_forall in Hshapes.
  destruct (variable_token_letter t (Hshapes t Ht) Hvar) as (c & -> & Hc & ->).
  by exists c.
Qed.

Lemma extracted_variables_in_letters (expression : str) :
  extract_variables expression ⊆ list_to_set letters.
Proof.
  intros name Hin.
  apply extracted_variable_letter in Hin as (c & -> & Hc).
  apply elem_of_list_to_set. unfold letters. apply list_elem_of_fmap.
  exists c. split; [done|]. apply elem_of_seqZ. bool_to_Z; lia.
Qed.

(** X2: every name of [extract_variables] is one of the letters A to Z,
    so a text has at most 26 variables and the sorted variable list at
    most 26 entries. *)
Theorem variables_are_letters (expression : str) :
  (∀ name, name ∈ extract_variables expression →
     ∃ c, name = [c] ∧ (65 ≤ c ≤ 90)%Z)
  ∧ size (extract_variables expression) ≤ 26
  ∧ length (TruthTableGenerator.sorted (extract_variables expression)) ≤ 26.
Proof.
  assert (Hsize : size (extract_variables expression) ≤ 26).
  { etrans; [apply subseteq_size, extracted_variables_in_letters|].
    rewrite size_list_to_set; [done|]. apply (bool_decide_unpack _).
    by vm_compute. }
  split; [|split; [done|]].
  - intros name Hin. apply extracted_variable_letter in Hin as (c & -> & Hc).
    exists c. split; [done|]. bool_to_Z; lia.
  - destruct (sorted_spec (extract_variables expression)) as (_ & _ & _ & ->).
    done.
Qed.
End Tokens.

(** ** What the postfix conversion does with the tokens *)

Section Postfix.
Context `{UnicodeData}.
Import LogicParser.

Lemma filter_cons_true {A} (f : A → bool) (x : A) (l : list A) :
  f x = true → List.filter f (x :: l) = x :: List.filter f l.
Proof. intros Hx. simpl. by rewrite Hx. Qed.

Lemma filter_cons_false {A} (f : A → bool) (x : A) (l : list A) :
  f x = false → List.filter f (x :: l) = List.filter f l.
Proof. intros Hx. simpl. by rewrite Hx. Qed.

Lemma pop_while_split (f : str → bool) (stack output s1 o1 : list str) :
  pop_while f stack output = (s1, o1) →
  ∃ popped, o1 = output ++ popped ∧ stack = popped ++ s1
    ∧ Forall (λ t, f t = true) popped
    ∧ match s1 with [] => True | top :: _ => f top = false end.
Proof.
  revert output. induction stack as [|top below IH]; intros output Hpop.
  - simpl in Hpop. injection Hpop as <- <-. exists []. by rewrite app_nil_r.
  - simpl in Hpop. destruct (f top) eqn:Htop.
    + apply IH in Hpop as (popped & -> & -> & Hall & Hs1).
      exists (top :: popped). rewrite <- app_assoc.
      split; [done|]. split; [done|]. split; [by constructor | done].
    + injection Hpop as <- <-. exists []. by rewrite app_nil_r.
Qed.

Lemma operand_not_paren_token (token : str) :
  is_operand token = true → is_paren_token token = false.
Proof.
  intros Hop. apply not_true_is_false. unfold is_paren_token.
  rewrite mem_true. intros Hin.
  apply elem_of_cons in Hin as [-> | Hin]; [by vm_compute in Hop|].
  apply elem_of_cons in Hin as [-> | Hin]; [by vm_compute in Hop|].
  by apply elem_of_nil in Hin.
Qed.

Lemma is_paren_token_spec (token : str) :
  is_paren_token token
  = Str.eqb token (utf8 "(") || Str.eqb token (utf8 ")").
Proof. unfold is_paren_token, mem. simpl. by rewrite orb_false_r. Qed.

Lemma filter_none {A} (f : A → bool) (l : list A) :
  Forall (λ x, f x = false) l → List.filter f l = [].
Proof. induction 1 as [|x l Hx _ IH]; [done|]. simpl. by rewrite Hx. Qed.

(** The state of the conversion accounts for every token read so far:
    operands are in the output in their order, the other tokens are in the
    output or on the stack, and a closing parenthesis is in neither. *)
Lemma shunting_yard_content (tokens : list str) :
  ∀ stack output postfix,
    shunting_yard tokens stack output = Ok postfix →
    Forall (λ t, is_operand t = false) stack →
    List.filter is_operand postfix
    = List.filter is_operand output ++ List.filter is_operand tokens
    ∧ List.filter not_paren_token postfix
      ≡ₚ List.filter not_paren_token (output ++ stack)
         ++ List.filter not_paren_token tokens
    ∧ (utf8 ")" ∉ output ++ stack → utf8 ")" ∉ postfix).
Proof.
  induction tokens as [|token rest IH]; intros stack output postfix Hsy Hstack.
  - simpl in Hsy. injection Hsy as <-.
    destruct (pop_while (λ _, true) stack output) as [s1 o1] eqn:Hpop.
    apply pop_while_split in Hpop as (popped & -> & -> & _ & Hs1).
    destruct s1 as [|top s2]; [|done]. rewrite app_nil_r in *. simpl.
    rewrite !app_nil_r. split; [|done].
    rewrite List.filter_app, (filter_none _ _ Hstack). by rewrite app_nil_r.
  - simpl in Hsy. destruct (is_operand token) eqn:Hop.
    { destruct (IH _ _ _ Hsy Hstack) as (Hops & Hperm & Hclose).
      assert (Hnp : not_paren_token token = true).
      { unfold not_paren_token. by rewrite operand_not_paren_token. }
      split; [|split].
      - rewrite Hops, List.filter_app, !filter_cons_true by done.
        by rewrite <- app_assoc.
      - rewrite Hperm, !List.filter_app, !filter_cons_true by done.
        rewrite <- !app_assoc. apply Permutation_app_head.
        simpl. apply Permutation_middle.
      - intros Hnot. apply Hclose. intros Hin. apply Hnot.
        rewrite <- app_assoc in Hin.
        apply elem_of_app in Hin as [Hin | Hin];
          [apply elem_of_app; by left|].
        apply elem_of_cons in Hin as [<- | Hin];
          [by vm_compute in Hop | apply elem_of_app; by right]. }
    destruct (Str.eqb token (utf8 "(")) eqn:Hl.
    { unfold Str.eqb in Hl. apply bool_decide_eq_true in Hl as ->.
      destruct (IH _ _ _ Hsy) as (Hops & Hperm & Hclose);
        [by constructor|].
      split; [|split].
      - by rewrite Hops, (filter_cons_false _ _ rest Hop).
      - rewrite Hperm, !List.filter_app.
        rewrite !(filter_cons_false not_paren_token (utf8 "("))
          by (by vm_compute).
        by rewrite <- !app_assoc.
      - intros Hnot. apply Hclose. intros Hin. apply Hnot.
        apply elem_of_app in Hin as [Hin | Hin];
          [apply elem_of_app; by left|].
        apply elem_of_cons in Hin as [Heq | Hin];
          [by vm_compute in Heq | apply elem_of_app; by right]. }
    destruct (Str.eqb token (utf8 ")")) eqn:Hr.
    { unfold Str.eqb in Hr. apply bool_decide_eq_true in Hr as ->.
      destruct (pop_while not_lparen stack output) as [s1 o1] eqn:Hpop.
      apply pop_while_split in Hpop as (popped & -> & -> & _ & Hs1).
      destruct s1 as [|top s2]; [done|].
      unfold not_lparen, Str.eqb in Hs1. apply negb_false_iff in Hs1.
      apply bool_decide_eq_true in Hs1 as ->.
      apply Forall_app in Hstack as [Hpopped Hs2].
      apply Forall_cons in Hs2 as [_ Hs2].
      destruct (IH _ _ _ Hsy Hs2) as (Hops & Hperm & Hclose).
      split; [|split].
      - rewrite Hops, !List.filter_app, (filter_none _ _ Hpopped).
        by rewrite app_nil_r, (filter_cons_false _ _ rest Hop).
      - rewrite Hperm, !List.filter_app.
        rewrite (filter_cons_false not_paren_token (utf8 "("))
          by (by vm_compute).
        rewrite (filter_cons_false not_paren_token (utf8 ")"))
          by (by vm_compute).
        by rewrite <- !app_assoc.
      - intros Hnot. apply Hclose. intros Hin. apply Hnot.
        rewrite <- app_assoc in Hin. rewrite !elem_of_app in Hin.
        rewrite !elem_of_app, elem_of_cons. tauto. }
    destruct (pop_while _ stack output) as [s1 o1] eqn:Hpop.
    apply pop_while_split in Hpop as (popped & -> & -> & _ & _).
    apply Forall_app in Hstack as [Hpopped Hs1].
    destruct (IH _ _ _ Hsy) as (Hops & Hperm & Hclose); [by constructor|].
    assert (Hnp : not_paren_token token = true).
    { unfold not_paren_token. by rewrite is_paren_token_spec, Hl, Hr. }
    split; [|split].
    + rewrite Hops, !List.filter_app, (filter_none _ _ Hpopped).
      by rewrite app_nil_r, (filter_cons_false _ _ rest Hop).
    + rewrite Hperm, !List.filter_app, !filter_cons_true by done.
      rewrite <- !app_assoc. do 2 apply Permutation_app_head.
      simpl. apply Permutation_middle.
    + intros Hnot. apply Hclose. intros Hin. apply Hnot.
      rewrite <- app_assoc in Hin. rewrite !elem_of_app, elem_of_cons in Hin.
      rewrite !elem_of_app.
      destruct Hin as [?|[?|[Heq|?]]]; [tauto | tauto | | tauto].
      subst. by vm_compute in Hr.
Qed.

(** X3: whenever [to_postfix] returns, the operands stand in the postfix
    sequence in the order of the text, the sequence holds exactly the
    tokens of the text that are not parentheses (an unclosed opening
    parenthesis may remain), and it never holds a closing parenthesis. *)
Theorem postfix_rearranges_tokens (expression : str) (postfix : list str) :
  to_postfix expression = Ok postfix →
  List.filter is_operand postfix
  = List.filter is_operand (_tokenize expression)
  ∧ List.filter not_paren_token postfix
    ≡ₚ List.filter not_paren_token (_tokenize expression)
  ∧ utf8 ")" ∉ postfix.
Proof.
  intros Hp. unfold to_postfix in Hp.
  destruct (shunting_yard_content _ _ _ _ Hp) as (Hops & Hperm & Hclose);
    [constructor|].
  split; [done|]. split; [done|]. apply Hclose. apply not_elem_of_nil.
Qed.

Lemma count_lparen_zero (stack : list str) :
  count_lparen stack = 0 → utf8 "(" ∉ stack.
Proof.
  induction stack as [|top below IH]; [intros _; apply not_elem_of_nil|].
  rewrite count_lparen_cons. unfold Str.eqb. case_bool_decide as Heq; [done|].
  intros Hc Hin. apply elem_of_cons in Hin as [? | Hin]; [done|].
  by apply IH.
Qed.

Lemma shunting_yard_no_lparen (tokens : list str) :
  ∀ stack output postfix,
    shunting_yard tokens stack output = Ok postfix →
    utf8 "(" ∉ output →
    walk (count_lparen stack) (token_parens tokens) = true →
    utf8 "(" ∉ postfix.
Proof.
  induction tokens as [|token rest IH]; intros stack output postfix Hsy Hout Hwalk.
  - simpl in Hsy. injection Hsy as <-.
    destruct (pop_while (λ _, true) stack output) as [s1 o1] eqn:Hpop.
    apply pop_while_split in Hpop as (popped & -> & -> & _ & Hs1).
    destruct s1 as [|top s2]; [|done]. rewrite app_nil_r in *. simpl.
    simpl in Hwalk. apply bool_decide_eq_true in Hwalk.
    apply count_lparen_zero in Hwalk. rewrite elem_of_app. tauto.
  - rewrite token_parens_cons in Hwalk. simpl in Hsy.
    destruct (is_operand token) eqn:Hop.
    { rewrite operand_not_paren in Hwalk by done.
      apply (IH _ _ _ Hsy); [|done]. rewrite elem_of_app.
      intros [? | Hin]; [done|]. apply list_elem_of_singleton in Hin as <-.
      by vm_compute in Hop. }
    unfold paren_of_token in Hwalk.
    destruct (Str.eqb token (utf8 "(")) eqn:Hl.
    { apply (IH _ _ _ Hsy); [done|]. by rewrite count_lparen_cons, Hl. }
    destruct (Str.eqb token (utf8 ")")) eqn:Hr.
    { destruct (pop_while not_lparen stack output) as [s1 o1] eqn:Hpop.
      pose proof (pop_until_lparen _ _ _ _ Hpop) as Hcount.
      apply pop_while_split in Hpop as (popped & -> & Hst & Hpopped & _).
      destruct s1 as [|top s2]; [done|]. simpl in Hwalk.
      rewrite Hcount in Hwalk. apply (IH _ _ _ Hsy); [|done].
      rewrite elem_of_app. intros [? | Hin]; [done|].
      rewrite Forall_forall in Hpopped. by apply Hpopped in Hin. }
    destruct (pop_while _ stack output) as [s1 o1] eqn:Hpop.
    pose proof (pop_while_keeps_lparens _ _ _ _ _
      (λ t Ht, proj1 (proj1 (andb_true_iff _ _) Ht)) Hpop) as Hcount.
    apply pop_while_split in Hpop as (popped & -> & Hst & Hpopped & _).
    apply (IH _ _ _ Hsy).
    + rewrite elem_of_app. intros [? | Hin]; [done|].
      rewrite Forall_forall in Hpopped. apply Hpopped in Hin.
      by apply andb_true_iff in Hin as [Hin _].
    + by rewrite count_lparen_cons, Hl, Hcount.
Qed.

Lemma shunting_yard_is_ok (tokens : list str) :
  ∀ stack output,
    is_ok (shunting_yard tokens stack output)
    = never_below (count_lparen stack) (token_parens tokens).
Proof.
  induction tokens as [|token rest IH]; intros stack output; [done|].
  rewrite token_parens_cons. simpl.
  destruct (is_operand token) eqn:Hop.
  { by rewrite operand_not_paren, IH. }
  unfold paren_of_token.
  destruct (Str.eqb token (utf8 "(")) eqn:Hl.
  { by rewrite IH, count_lparen_cons, Hl. }
  destruct (Str.eqb token (utf8 ")")) eqn:Hr.
  { destruct (pop_while not_lparen stack output) as [s1 o1] eqn:Hpop.
    apply pop_until_lparen in Hpop. simpl.
    destruct s1 as [|top s2]; rewrite Hpop; [done | by rewrite IH]. }
  destruct (pop_while _ stack output) as [s1 o1] eqn:Hpop.
  apply pop_while_keeps_lparens in Hpop.
  - by rewrite IH, count_lparen_cons, Hl, Hpop.
  - intros t Ht. by apply andb_true_iff in Ht as [? _].
Qed.

Lemma shunting_yard_raises_index_error (tokens : list str) :
  ∀ stack output e,
    shunting_yard tokens stack output = Raise e → e = IndexError.
Proof.
  induction tokens as [|token rest IH]; intros stack output e; [done|].
  simpl. repeat case_match; try done; try apply IH. by intros [= <-].
Qed.

(** X4: [to_postfix] fails, with the [IndexError] of popping an empty
    stack, exactly when some closing parenthesis token has no opening
    parenthesis before it left to match. *)
Theorem to_postfix_fails_on_unmatched_close (expression : str) :
  (to_postfix expression = Raise IndexError
   ↔ never_below 0 (token_parens (_tokenize expression)) = false)
  ∧ (is_ok (to_postfix expression) = true
     ↔ never_below 0 (token_parens (_tokenize expression)) = true).
Proof.
  pose proof (shunting_yard_is_ok (_tokenize expression) [] []) as Hok.
  change (count_lparen []) with 0 in Hok. fold (to_postfix expression) in Hok.
  rewrite <- Hok. split; [|done].
  destruct (to_postfix expression) as [p|e] eqn:Hp; [done|].
  apply shunting_yard_raises_index_error in Hp as ->. done.
Qed.

(** X5: for a text that [validate_expression] accepts, the postfix
    sequence holds no parenthesis at all and is a rearrangement of the
    text's tokens without its parentheses. *)
Theorem valid_postfix_has_no_parentheses (expression : str) :
  (validate_expression expression).1 = true →
  ∃ postfix,
    to_postfix expression = Ok postfix
    ∧ Forall (λ t, is_paren_token t = false) postfix
    ∧ postfix ≡ₚ List.filter not_paren_token (_tokenize expression).
Proof.
  intros Hvalid. destruct (valid_to_postfix _ Hvalid) as [postfix Hp].
  apply validate_expression_true in Hvalid as (_ & Hbal & Hall & _).
  exists postfix. split; [done|].
  assert (Hwalk : walk 0 (token_parens (_tokenize expression)) = true).
  { rewrite token_parens_tokenize.
    - unfold _check_balanced_parentheses in Hbal.
      by rewrite check_balanced_walk, parens_strip in Hbal.
    - apply (Forall_strip _ _ space_is_allowed Hall). }
  unfold to_postfix in Hp.
  pose proof (shunting_yard_no_lparen _ _ _ _ Hp
    (not_elem_of_nil _) Hwalk) as Hopen.
  destruct (shunting_yard_content _ _ _ _ Hp) as (_ & Hperm & Hclose);
    [constructor|].
  specialize (Hclose (not_elem_of_nil _)).
  assert (Hnone : Forall (λ t, is_paren_token t = false) postfix).
  { apply Forall_forall. intros t Ht. apply not_true_is_false.
    unfold is_paren_token. rewrite mem_true. intros Hin.
    apply elem_of_cons in Hin as [-> | Hin]; [done|].
    apply elem_of_cons in Hin as [-> | Hin]; [done|].
    by apply elem_of_nil in Hin. }
  split; [done|]. rewrite <- Hperm. simpl.
  rewrite filter_all_true; [done|].
  eapply Forall_impl; [exact Hnone|]. intros t Ht. unfold not_paren_token.
  by rewrite Ht.
Qed.
End Postfix.

(** ** Errors of the evaluation do not depend on the assignment *)

Section EvaluationErrors.
Context `{UnicodeData}.
Import LogicParser.

Lemma apply_operator_uniform (operator : str) :
  (∃ f, ∀ l r, _apply_operator l r operator = Ok (f l r))
  ∨ (∃ e, ∀ l r, _apply_operator l r operator = Raise e).
Proof.
  unfold _apply_operator.
  repeat (case_match; [left; eexists (λ l r, _); intros; reflexivity|]).
  right. by eexists.
Qed.

Lemma eval_postfix_raise_uniform (a1 a2 : gmap str bool) (postfix : list str) :
  ∀ st1 st2 e,
    length st1 = length st2 →
    eval_postfix a1 postfix st1 = Raise e →
    eval_postfix a2 postfix st2 = Raise e.
Proof.
  induction postfix as [|token rest IH]; intros st1 st2 e Hlen; simpl.
  - destruct st1 as [|v1 [|w1 st1]], st2 as [|v2 [|w2 st2]]; done.
  - destruct (is_operand token).
    { case_match; apply IH; simpl; by rewrite Hlen. }
    destruct (mem token negations).
    { destruct st1 as [|v1 st1], st2 as [|v2 st2]; try done.
      apply IH. simpl in *. lia. }
    destruct st1 as [|r1 [|l1 st1]], st2 as [|r2 [|l2 st2]]; try done.
    destruct (apply_operator_uniform token) as [[f Hf] | [x Hx]].
    + rewrite !Hf. simpl. apply IH. simpl in *. lia.
    + by rewrite !Hx.
Qed.

(** X6: whether [evaluate_expression] raises, and which error it raises,
    depends on the text alone and not on the assignment. *)
Theorem evaluation_error_ignores_assignment
    (expression : str) (a1 a2 : gmap str bool) :
  (∀ e, evaluate_expression expression a1 = Raise e →
        evaluate_expression expression a2 = Raise e)
  ∧ is_ok (evaluate_expression expression a1)
    = is_ok (evaluate_expression expression a2).
Proof.
  assert (Hraise : ∀ b1 b2 e,
    evaluate_expression expression b1 = Raise e →
    evaluate_expression expression b2 = Raise e).
  { intros b1 b2 e. unfold evaluate_expression.
    destruct (to_postfix expression) as [postfix|x]; [|done]. simpl.
    by apply eval_postfix_raise_uniform. }
  split; [apply Hraise|].
  destruct (evaluate_expression expression a1) as [v1|e1] eqn:H1;
    destruct (evaluate_expression expression a2) as [v2|e2] eqn:H2; try done.
  - by rewrite (Hraise _ a1 _ H2) in H1.
  - by rewrite (Hraise _ a2 _ H1) in H2.
Qed.

Lemma evaluate_raise_uniform (expression : str) (a1 a2 : gmap str bool)
    (e : exn) :
  evaluate_expression expression a1 = Raise e →
  evaluate_expression expression a2 = Raise e.
Proof.
  unfold evaluate_expression.
  destruct (to_postfix expression) as [postfix|x]; [|done]. simpl.
  by apply eval_postfix_raise_uniform.
Qed.

Lemma evaluate_without_variables (expression : str) (a : gmap str bool) :
  extract_variables expression = ∅ →
  evaluate_expression expression a = evaluate_expression expression ∅.
Proof.
  intros Hnone. unfold evaluate_expression.
  destruct (to_postfix expression) as [postfix|x] eqn:Hp; [|done]. simpl.
  apply eval_postfix_ext. intros token Ht Hvar. exfalso.
  assert (Hin : Str.upper token ∈ extract_variables expression).
  { apply elem_of_extract_variables. exists token.
    split; [by eapply to_postfix_elem | done]. }
  rewrite Hnone in Hin. by apply elem_of_empty in Hin.
Qed.
End EvaluationErrors.

(** ** Upper and lower case *)

Section LetterCase.
Context `{UnicodeData}.
Import LogicParser.

Lemma upper_upper_ascii (s : str) :
  Forall (λ c, (c < 128)%Z) s → Str.upper (Str.upper s) = Str.upper s.
Proof.
  induction 1 as [|c s Hc _ IH]; [done|].
  change (Str.upper (c :: s)) with (Char.upper c ++ Str.upper s).
  unfold Str.upper in *. rewrite bind_app, IH. f_equal.
  unfold Char.upper. destruct (Char.is_ascii_lower c) eqn:Hl.
  - simpl. rewrite app_nil_r. unfold Char.upper.
    assert (Char.is_ascii_lower (c - 32) = false) as ->.
    { destruct (Char.is_ascii_lower (c - 32)) eqn:Hl2; [|done].
      exfalso. bool_to_Z; lia. }
    assert ((c - 32 <? 128)%Z = true) as ->; [|done]. apply Z.ltb_lt. lia.
  - rewrite (proj2 (Z.ltb_lt _ _) Hc). simpl. rewrite app_nil_r.
    unfold Char.upper. by rewrite Hl, (proj2 (Z.ltb_lt _ _) Hc).
Qed.

(** X7: on a text of ASCII characters the case of letters is immaterial:
    the text and its upper-case form have the same tokens, the same
    variables, the same postfix form and the same value under every
    assignment. *)
Theorem ascii_case_is_immaterial (expression : str) :
  Forall (λ c, (c < 128)%Z) expression →
  _tokenize (Str.upper expression) = _tokenize expression
  ∧ extract_variables (Str.upper expression) = extract_variables expression
  ∧ to_postfix (Str.upper expression) = to_postfix expression
  ∧ ∀ a, evaluate_expression (Str.upper expression) a
         = evaluate_expression expression a.
Proof.
  intros Hascii.
  assert (Htok : _tokenize (Str.upper expression) = _tokenize expression).
  { unfold _tokenize. by rewrite upper_upper_ascii. }
  unfold extract_variables, evaluate_expression, to_postfix.
  by rewrite Htok.
Qed.
End LetterCase.

(** ** Outcomes and rows of the truth-table generator *)

Section TableOutcome.
Context `{UnicodeData}.
Import LogicParser TruthTableGenerator.

Lemma sorted_nil_iff (variables : gset str) :
  sorted variables = [] ↔ variables = ∅.
Proof.
  destruct (sorted_spec variables) as (_ & _ & Hin & Hlen). split.
  - intros Hnil. rewrite Hnil in Hlen. simpl in Hlen.
    apply leibniz_equiv, size_empty_iff. done.
  - intros ->. rewrite size_empty in Hlen.
    by apply length_zero_iff_nil.
Qed.

Lemma product_bools_cons (n : nat) :
  ∃ combo rest, product (replicate n [false; true]) = combo :: rest.
Proof.
  pose proof (length_product_bools n) as Hlen.
  destruct (product (replicate n [false; true])) as [|combo rest]; [|by eauto].
  simpl in Hlen. pose proof (Nat.pow_nonzero 2 n). lia.
Qed.

(** X8: what [generate_truth_table] answers is decided by the validator
    and by one evaluation under the empty assignment: an invalid text
    raises the validator's message, a valid text whose evaluation raises
    makes the generator raise that same error (as a constant-expression
    error when the text has no variable), and every other valid text gets
    its table. *)
Theorem generate_truth_table_outcome (expression : str) :
  match validate_expression expression with
  | (false, reason) =>
    generate_truth_table expression = Raise (InvalidExpression reason)
  | (true, _) =>
    match evaluate_expression expression ∅ with
    | Ok _ => is_ok (generate_truth_table expression) = true
    | Raise e =>
      generate_truth_table expression
      = Raise (if bool_decide (extract_variables expression = ∅)
               then ErrorEvaluatingConstant e
               else ErrorEvaluatingExpression e)
    end
  end.
Proof.
  unfold generate_truth_table.
  destruct (validate_expression expression) as [[|] reason]; [|done].
  cbn [negb].
  destruct (sorted (extract_variables expression)) as [|v vars] eqn:Hs.
  - apply sorted_nil_iff in Hs. rewrite bool_decide_eq_true_2 by done.
    unfold _generate_constant_truth_table.
    by destruct (evaluate_expression expression ∅).
  - rewrite bool_decide_eq_false_2.
    2:{ intros Hempty. apply sorted_nil_iff in Hempty. by rewrite Hempty in Hs. }
    destruct (evaluate_expression expression ∅) as [value|e] eqn:Hev.
    + apply table_rows_ok. intros combo _.
      destruct (evaluate_expression expression
        (dict (zip (v :: vars) combo))) as [w|x] eqn:Hrow; [done|].
      apply (evaluate_raise_uniform _ _ ∅) in Hrow. congruence.
    + destruct (product_bools_cons (length (v :: vars)))
        as (combo & rest & ->).
      cbn [table_rows].
      by rewrite (evaluate_raise_uniform _ ∅ _ _ Hev).
Qed.

(** X9: a valid text without variables evaluates alike under every
    assignment, and its table is the single row holding that value, with
    no variable column. *)
Theorem constant_truth_table (expression : str) (value : bool) :
  (validate_expression expression).1 = true →
  extract_variables expression = ∅ →
  evaluate_expression expression ∅ = Ok value →
  (∀ a, evaluate_expression expression a = Ok value)
  ∧ generate_truth_table expression = Ok ([ {[ result_key := value ]} ], []).
Proof.
  intros Hvalid Hnone Hev. split.
  - intros a. by rewrite evaluate_without_variables.
  - unfold generate_truth_table.
    destruct (validate_expression expression) as [[|] reason]; [|done].
    cbn [negb]. rewrite (proj2 (sorted_nil_iff _) Hnone).
    unfold _generate_constant_truth_table. by rewrite Hev.
Qed.

Lemma generate_truth_table_all_rows (expression : str)
    (rows : list (gmap str bool)) (vs : list str) :
  generate_truth_table expression = Ok (rows, vs) →
  vs = sorted (extract_variables expression)
  ∧ Forall2 (is_row_of expression vs)
            (product (replicate (length vs) [false; true])) rows.
Proof.
  destruct (sorted (extract_variables expression)) as [|v vars] eqn:Hs.
  - unfold generate_truth_table.
    destruct (validate_expression expression) as [[|] reason]; [|done].
    cbn [negb]. rewrite Hs. unfold _generate_constant_truth_table.
    destruct (evaluate_expression expression ∅) as [value|e] eqn:Hev; [|done].
    intros [= <- <-]. split; [done|]. repeat constructor.
    exists value. split; [done|]. by rewrite <- insert_empty.
  - intros Hrun. rewrite <- Hs. apply generate_truth_table_rows; [|done].
    by rewrite Hs.
Qed.

Lemma dict_lookup_fresh (pairs : list (str * bool)) (name : str) :
  ∀ acc : gmap str bool,
    name ∉ pairs.*1 →
    foldl (λ d kv, <[kv.1 := kv.2]> d) acc pairs !! name = acc !! name.
Proof.
  induction pairs as [|[k b] pairs IH]; intros acc Hfresh; [done|].
  simpl in *. rewrite not_elem_of_cons in Hfresh. destruct Hfresh as [Hne Hf].
  rewrite IH by done. by rewrite lookup_insert_ne.
Qed.

Lemma dict_zip_lookup (variables : list str) :
  NoDup variables →
  ∀ (combo : list bool) j name b,
    variables !! j = Some name → combo !! j = Some b →
    dict (zip variables combo) !! name = Some b.
Proof.
  unfold dict. generalize (∅ : gmap str bool).
  induction variables as [|v vars IH]; intros acc Hnd combo j name b Hv Hb;
    [done|].
  apply NoDup_cons in Hnd as [Hv_fresh Hnd].
  destruct combo as [|c combo]; [done|]. destruct j as [|j]; simpl in *.
  - injection Hv as ->. injection Hb as ->.
    rewrite dict_lookup_fresh; [apply lookup_insert_eq|].
    intros Hin. apply Hv_fresh.
    apply list_elem_of_fmap in Hin as ([k x] & -> & Hin).
    by apply elem_of_zip_l in Hin.
  - by eapply IH.
Qed.

Lemma dict_zip_lookup_none (variables : list str) (combo : list bool)
    (name : str) :
  name ∉ variables → dict (zip variables combo) !! name = None.
Proof.
  intros Hfresh. unfold dict. rewrite dict_lookup_fresh; [done|].
  intros Hin. apply Hfresh.
  apply list_elem_of_fmap in Hin as ([k x] & -> & Hin).
  by apply elem_of_zip_l in Hin.
Qed.

Lemma variable_values_digits (row : gmap str bool) (variables : list str) :
  ∀ digit : nat → bool,
    (∀ j name, variables !! j = Some name → row !! name = Some (digit j)) →
    Gui.variable_values row variables
    = Ok (Gui.str_of_bool <$> (digit <$> seq 0 (length variables))).
Proof.
  induction variables as [|v vars IH]; intros digit Hrow; [done|].
  simpl. rewrite (Hrow 0 v) by done.
  rewrite (IH (λ j, digit (S j))).
  - simpl. by rewrite <- fmap_S_seq, <- !list_fmap_compose.
  - intros j name Hj. by apply (Hrow (S j)).
Qed.

Lemma result_key_not_variable (expression : str) :
  result_key ∉ sorted (extract_variables expression).
Proof.
  destruct (sorted_spec (extract_variables expression)) as (_ & _ & Hin & _).
  rewrite Hin. intros Hres.
  by apply extracted_variable_letter in Hres as (c & Heq & _).
Qed.

(** X10: in the table that [generate_truth_table] returns, row [i] maps the
    variable at sorted position [j] to binary digit [j] of [i] (most
    significant first) and the key "result" to the value of the text under
    the row itself; the values the window shows for the row are these
    digits followed by the result, and no key is ever missing. *)
Theorem generated_row_content (expression : str)
    (rows : list (gmap str bool)) (vs : list str)
    (i : nat) (row : gmap str bool) :
  generate_truth_table expression = Ok (rows, vs) →
  rows !! i = Some row →
  i < 2 ^ length vs
  ∧ (∀ j name, vs !! j = Some name →
       row !! name = Some (Nat.testbit i (length vs - 1 - j)))
  ∧ ∃ value,
      row !! result_key = Some value
      ∧ evaluate_expression expression row = Ok value
      ∧ Gui.row_values row vs
        = Ok ((Gui.str_of_bool <$> bits (length vs) i)
              ++ [Gui.str_of_bool value]).
Proof.
  intros Hrun Hrow.
  apply generate_truth_table_all_rows in Hrun as [Hvs Hrows].
  destruct (Forall2_lookup_r _ _ _ _ _ Hrows Hrow)
    as (combo & Hcombo & value & Hvalue & ->).
  assert (Hi : i < 2 ^ length vs).
  { apply lookup_lt_Some in Hcombo. by rewrite length_product_bools in Hcombo. }
  rewrite product_bools_lookup in Hcombo by done. injection Hcombo as <-.
  destruct (sorted_spec (extract_variables expression))
    as (_ & Hnd & Hmem & _). rewrite <- Hvs in Hnd, Hmem.
  pose proof (result_key_not_variable expression) as Hkey.
  rewrite <- Hvs in Hkey.
  assert (Hdigits : ∀ j name, vs !! j = Some name →
    (<[result_key := value]> (dict (zip vs (bits (length vs) i)))) !! name
    = Some (Nat.testbit i (length vs - 1 - j))).
  { intros j name Hj. rewrite lookup_insert_ne.
    2:{ intros <-. apply Hkey. by eapply list_elem_of_lookup_2. }
    apply (dict_zip_lookup vs Hnd _ j); [done|].
    unfold bits. rewrite list_lookup_fmap, lookup_seq_lt; [done|].
    by apply lookup_lt_Some in Hj. }
  split; [done|]. split; [done|]. exists value.
  split; [apply lookup_insert_eq|]. split.
  - rewrite <- Hvalue. unfold evaluate_expression.
    destruct (to_postfix expression) as [postfix|x] eqn:Hp; [|done]. simpl.
    apply eval_postfix_ext. intros token Ht Hvar.
    rewrite lookup_insert_ne; [done|]. intros Heq.
    apply Hkey. rewrite Hmem, Heq. apply elem_of_extract_variables.
    exists token. split; [by eapply to_postfix_elem | done].
  - unfold Gui.row_values.
    rewrite (variable_values_digits _ _
      (λ j, Nat.testbit i (length vs - 1 - j)) Hdigits).
    simpl. by rewrite lookup_insert_eq.
Qed.
End TableOutcome.

(** ** The summary and the term lists of a table *)

Section TableQueries.
Import TruthTableGenerator TruthTableQueries.

Lemma count_true_spec (table_data : list (gmap str bool)) (count : Z) :
  count_true table_data = Ok count →
  Forall (λ row, is_Some (row !! result_key)) table_data
  ∧ count = Z.of_nat (length (List.filter (result_is true) table_data))
  ∧ (Z.of_nat (length table_data) - count)%Z
    = Z.of_nat (length (List.filter (result_is false) table_data)).
Proof.
  revert count. induction table_data as [|row rest IH]; intros count Hcount.
  - injection Hcount as <-. by repeat split.
  - simpl in Hcount. destruct (row !! result_key) as [value|] eqn:Hrow; [|done].
    destruct (count_true rest) as [n|e]; [|done]. simpl in Hcount.
    injection Hcount as <-. destruct (IH n eq_refl) as (Hall & -> & Hfalse).
    split; [constructor; [by eexists | done]|].
    assert (Hhere : ∀ b, List.filter (result_is b) (row :: rest)
      = (if Bool.eqb value b then [row] else [])
        ++ List.filter (result_is b) rest).
    { intros b. simpl. unfold result_is at 1. rewrite Hrow.
      destruct value, b; simpl; try done;
        by rewrite bool_decide_eq_false_2. }
    rewrite !Hhere, !length_app. cbn [length].
    destruct value; simpl; split; lia.
Qed.

Lemma count_true_raise (table_data : list (gmap str bool)) (e : exn) :
  count_true table_data = Raise e →
  e = KeyError result_key
  ∧ Exists (λ row, row !! result_key = None) table_data.
Proof.
  induction table_data as [|row rest IH]; [done|]. simpl.
  destruct (row !! result_key) as [value|] eqn:Hrow.
  - destruct (count_true rest) as [n|x]; [done|]. simpl.
    intros [= <-]. destruct (IH eq_refl) as [-> Hex].
    split; [done | by right].
  - intros [= <-]. split; [done | by left].
Qed.

Lemma filter_length_all {A} (f : A → bool) (l : list A) :
  length (List.filter f l) = length l ↔ Forall (λ x, f x = true) l.
Proof.
  induction l as [|x l IH]; simpl.
  - split; [constructor | done].
  - pose proof (List.filter_length_le f l) as Hle.
    destruct (f x) eqn:Hx; simpl.
    + rewrite Forall_cons, <- IH. split; [intros [= ?]; by split | intros [_ ->]; done].
    + split; [lia|]. intros Hall. apply Forall_cons in Hall as [? _]. congruence.
Qed.

Lemma filter_length_pos {A} (f : A → bool) (l : list A) :
  0 < length (List.filter f l) ↔ Exists (λ x, f x = true) l.
Proof.
  induction l as [|x l IH]; simpl.
  - split; [lia | by intros ?%Exists_nil].
  - rewrite Exists_cons. destruct (f x) eqn:Hx; simpl.
    + split; [by left | lia].
    + rewrite IH. split; [by right | intros [? | ?]; [congruence | done]].
Qed.

Lemma summary_spec (table_data : list (gmap str bool))
    (variables : list str) (s : summary) :
  get_truth_table_summary table_data variables = Ok (Some s) →
  table_data ≠ []
  ∧ total_rows s = Z.of_nat (length table_data)
  ∧ true_count s
    = Z.of_nat (length (List.filter (result_is true) table_data))
  ∧ false_count s
    = Z.of_nat (length (List.filter (result_is false) table_data))
  ∧ (true_count s + false_count s = total_rows s)%Z
  ∧ (is_tautology s = true
     ↔ Forall (λ row, row !! result_key = Some true) table_data)
  ∧ (is_contradiction s = true
     ↔ Forall (λ row, row !! result_key = Some false) table_data)
  ∧ (is_contingency s = true
     ↔ Exists (λ row, row !! result_key = Some true) table_data
       ∧ Exists (λ row, row !! result_key = Some false) table_data)
  ∧ (is_tautology s, is_contradiction s, is_contingency s)
    ∈ [(true, false, false); (false, true, false); (false, false, true)].
Proof.
  unfold get_truth_table_summary.
  destruct table_data as [|row rest] eqn:Htd; [done|]. rewrite <- Htd.
  assert (Hne : table_data ≠ []) by (by rewrite Htd). clear Htd.
  destruct (count_true table_data) as [count|e] eqn:Hcount; [|done].
  intros [= <-]. cbn [total_rows true_count false_count is_tautology
    is_contradiction is_contingency].
  destruct (count_true_spec _ _ Hcount) as (Hall & Htrue & Hfalse).
  set (nt := length (List.filter (result_is true) table_data)) in *.
  set (nf := length (List.filter (result_is false) table_data)) in *.
  assert (Hlen : 0 < length table_data) by (destruct table_data; [done | simpl; lia]).
  assert (Hiff : ∀ b (P : gmap str bool → Prop) l,
    P = (λ row, row !! result_key = Some b) →
    (Forall (λ x, result_is b x = true) l ↔ Forall P l)
    ∧ (Exists (λ x, result_is b x = true) l ↔ Exists P l)).
  { intros b P l ->. split; [apply Forall_proper | apply Exists_proper];
      try done; intros x; unfold result_is; by rewrite bool_decide_eq_true. }
  split; [done|]. split; [done|]. split; [done|]. split; [lia|]. split; [lia|].
  split; [|split; [|split]].
  - rewrite <- (proj1 (Hiff true _ table_data eq_refl)), <- filter_length_all.
    fold nt. rewrite Z.eqb_eq. lia.
  - rewrite <- (proj1 (Hiff false _ table_data eq_refl)), <- filter_length_all.
    fold nf. rewrite Z.eqb_eq. lia.
  - rewrite <- (proj2 (Hiff true _ table_data eq_refl)),
      <- (proj2 (Hiff false _ table_data eq_refl)), <- !filter_length_pos.
    fold nt nf. rewrite andb_true_iff, !Z.ltb_lt. lia.
  - destruct (count =? Z.of_nat (length table_data))%Z eqn:H1;
      destruct (Z.of_nat (length table_data) - count
                =? Z.of_nat (length table_data))%Z eqn:H2;
      destruct (0 <? count)%Z eqn:H3;
      destruct (0 <? Z.of_nat (length table_data) - count)%Z eqn:H4;
      simpl; try (repeat constructor; fail);
      exfalso;
      repeat match goal with
      | H : (_ =? _)%Z = true |- _ => apply Z.eqb_eq in H
      | H : (_ =? _)%Z = false |- _ => apply Z.eqb_neq in H
      | H : (_ <? _)%Z = true |- _ => apply Z.ltb_lt in H
      | H : (_ <? _)%Z = false |- _ => apply Z.ltb_ge in H
      end; lia.
Qed.

(** X11: when [get_truth_table_summary] returns a summary, every row has a
    result, the two counts are the numbers of true and of false rows and
    add up to the number of rows, and exactly one of the three
    classifications holds: tautology when all rows are true, contradiction
    when all are false, contingency when both occur. *)
Theorem summary_classifies (table_data : list (gmap str bool))
    (variables : list str) (s : summary) :
  get_truth_table_summary table_data variables = Ok (Some s) →
  table_data ≠ []
  ∧ total_rows s = Z.of_nat (length table_data)
  ∧ true_count s
    = Z.of_nat (length (List.filter (result_is true) table_data))
  ∧ false_count s
    = Z.of_nat (length (List.filter (result_is false) table_data))
  ∧ (true_count s + false_count s = total_rows s)%Z
  ∧ (is_tautology s = true
     ↔ Forall (λ row, row !! result_key = Some true) table_data)
  ∧ (is_contradiction s = true
     ↔ Forall (λ row, row !! result_key = Some false) table_data)
  ∧ (is_contingency s = true
     ↔ Exists (λ row, row !! result_key = Some true) table_data
       ∧ Exists (λ row, row !! result_key = Some false) table_data)
  ∧ (is_tautology s, is_contradiction s, is_contingency s)
    ∈ [(true, false, false); (false, true, false); (false, false, true)].
Proof. apply summary_spec. Qed.

(** X12: the edge and error behaviour of [get_truth_table_summary]: an
    empty table gives the empty summary; on a non-empty table it succeeds
    exactly when every row has the key "result", and otherwise the error is
    the [KeyError] of that key. *)
Theorem summary_edge_cases (table_data : list (gmap str bool))
    (variables : list str) :
  (get_truth_table_summary table_data variables = Ok None ↔ table_data = [])
  ∧ (table_data ≠ [] →
     (is_ok (get_truth_table_summary table_data variables) = true
      ↔ Forall (λ row, is_Some (row !! result_key)) table_data))
  ∧ (∀ e, get_truth_table_summary table_data variables = Raise e →
          e = KeyError result_key
          ∧ Exists (λ row, row !! result_key = None) table_data).
Proof.
  unfold get_truth_table_summary. destruct table_data as [|row rest] eqn:Htd.
  { split; [done|]. split; [done|]. done. }
  rewrite <- Htd. assert (Hne : table_data ≠ []) by (by rewrite Htd).
  clear Htd.
  destruct (count_true table_data) as [count|x] eqn:Hcount; simpl.
  - split; [done|]. split; [|done]. intros _. split; [|done].
    intros _. by apply count_true_spec in Hcount as (? & _).
  - split; [done|]. apply count_true_raise in Hcount as [-> Hex].
    split; [|by intros e [= <-]].
    intros _. split; [done|]. intros Hall. exfalso.
    apply Exists_exists in Hex as (r & Hr & Hnone).
    rewrite Forall_forall in Hall. destruct (Hall r Hr) as [v Hv]. congruence.
Qed.

Lemma find_terms_from_spec (select : bool → bool)
    (table_data : list (gmap str bool)) :
  Forall (λ row, is_Some (row !! result_key)) table_data →
  ∀ i terms,
    find_terms_from select i table_data terms
    = Ok (terms ++ selected_from select i table_data).
Proof.
  induction 1 as [|row rest [value Hrow] _ IH]; intros i terms; simpl.
  - by rewrite app_nil_r.
  - rewrite Hrow, IH. simpl. destruct (select value); [|done].
    by rewrite <- app_assoc.
Qed.

Lemma find_terms_from_raise (select : bool → bool)
    (table_data : list (gmap str bool)) :
  ∀ i terms e,
    find_terms_from select i table_data terms = Raise e →
    e = KeyError result_key
    ∧ Exists (λ row, row !! result_key = None) table_data.
Proof.
  induction table_data as [|row rest IH]; intros i terms e; [done|]. simpl.
  destruct (row !! result_key) as [value|] eqn:Hrow.
  - intros Hr. apply IH in Hr as [-> Hex]. split; [done | by right].
  - intros [= <-]. split; [done | by left].
Qed.

Lemma elem_of_selected_from (select : bool → bool)
    (table_data : list (gmap str bool)) :
  ∀ i k,
    k ∈ selected_from select i table_data ↔
    ∃ row, i ≤ k ∧ table_data !! (k - i) = Some row
           ∧ select (default false (row !! result_key)) = true.
Proof.
  induction table_data as [|row rest IH]; intros i k; simpl.
  - split; [by intros ?%elem_of_nil | by intros (? & _ & ? & _)].
  - rewrite elem_of_app, IH. split.
    + intros [Hhere | (r & Hle & Hr & Hsel)].
      * destruct (select _) eqn:Hsel; [|by apply elem_of_nil in Hhere].
        apply list_elem_of_singleton in Hhere as ->. exists row.
        rewrite Nat.sub_diag. by split.
      * exists r. split; [lia|]. split; [|done].
        replace (k - i) with (S (k - S i)) by lia. done.
    + intros (r & Hle & Hr & Hsel).
      destruct (decide (k = i)) as [-> | Hne].
      * left. rewrite Nat.sub_diag in Hr. injection Hr as ->.
        rewrite Hsel. by apply list_elem_of_singleton.
      * right. exists r. split; [lia|]. split; [|done].
        replace (k - i) with (S (k - S i)) in Hr by lia. done.
Qed.

Lemma selected_from_sorted (select : bool → bool)
    (table_data : list (gmap str bool)) :
  ∀ i, StronglySorted lt (selected_from select i table_data).
Proof.
  induction table_data as [|row rest IH]; intros i; simpl; [constructor|].
  destruct (select _); simpl; [|apply IH].
  constructor; [apply IH|]. apply Forall_forall. intros k Hk.
  apply elem_of_selected_from in Hk as (_ & Hle & _). lia.
Qed.

Lemma selected_from_partition (table_data : list (gmap str bool)) :
  ∀ i,
    selected_from (λ value, value) i table_data
    ++ selected_from negb i table_data
    ≡ₚ seq i (length table_data).
Proof.
  induction table_data as [|row rest IH]; intros i; simpl; [done|].
  destruct (default false (row !! result_key)); simpl.
  - by rewrite IH.
  - rewrite <- Permutation_middle. by rewrite IH.
Qed.

Lemma selected_from_length (b : bool) (select : bool → bool)
    (table_data : list (gmap str bool)) :
  Forall (λ row, is_Some (row !! result_key)) table_data →
  (∀ value, select value = Bool.eqb value b) →
  ∀ i, length (selected_from select i table_data)
       = length (List.filter (result_is b) table_data).
Proof.
  intros Hall Hsel. induction Hall as [|row rest [value Hrow] _ IH];
    intros i; [done|].
  simpl. rewrite length_app, IH, Hrow, Hsel. unfold result_is at 2.
  rewrite Hrow. simpl. destruct value, b; simpl; try done;
    by rewrite bool_decide_eq_false_2.
Qed.

(** X13: on a table whose rows all have a result, [find_minterms] returns
    the indices of the true rows and [find_maxterms] those of the false
    rows, each in increasing order; together they hold every row index
    exactly once, and their lengths are the two counts of the summary. *)
Theorem minterms_and_maxterms_partition
    (table_data : list (gmap str bool)) (variables : list str) :
  Forall (λ row, is_Some (row !! result_key)) table_data →
  ∃ minterms maxterms,
    find_minterms table_data variables = Ok minterms
    ∧ find_maxterms table_data variables = Ok maxterms
    ∧ (∀ k, k ∈ minterms ↔
         ∃ row, table_data !! k = Some row ∧ row !! result_key = Some true)
    ∧ (∀ k, k ∈ maxterms ↔
         ∃ row, table_data !! k = Some row ∧ row !! result_key = Some false)
    ∧ StronglySorted lt minterms ∧ StronglySorted lt maxterms
    ∧ minterms ++ maxterms ≡ₚ seq 0 (length table_data)
    ∧ length minterms = length (List.filter (result_is true) table_data)
    ∧ length maxterms = length (List.filter (result_is false) table_data).
Proof.
  intros Hall. unfold find_minterms, find_maxterms.
  rewrite !find_terms_from_spec by done. simpl.
  eexists _, _. split; [done|]. split; [done|].
  assert (Hmem : ∀ (select : bool → bool) b k,
    (∀ value, select value = Bool.eqb value b) →
    k ∈ selected_from select 0 table_data ↔
    ∃ row, table_data !! k = Some row ∧ row !! result_key = Some b).
  { intros select b k Hsel. rewrite elem_of_selected_from.
    rewrite Nat.sub_0_r. split.
    - intros (row & _ & Hrow & Hval). exists row. split; [done|].
      rewrite Forall_forall in Hall.
      destruct (Hall row) as [v Hv]; [by eapply list_elem_of_lookup_2|].
      rewrite Hv, Hsel in Hval. simpl in Hval.
      apply eqb_prop in Hval. by subst.
    - intros (row & Hrow & Hval). exists row. split; [lia|].
      split; [done|]. rewrite Hval, Hsel. simpl. by destruct b. }
  split; [intros k; apply (Hmem _ true); by intros []|].
  split; [intros k; apply (Hmem _ false); by intros []|].
  split; [apply selected_from_sorted|]. split; [apply selected_from_sorted|].
  split; [apply selected_from_partition|].
  split; [apply selected_from_length; [done | by intros []]|].
  apply selected_from_length; [done | by intros []].
Qed.

(** X14: the two term queries fail only on a row without the key
    "result", with the [KeyError] of that key. *)
Theorem term_queries_fail_on_missing_result
    (table_data : list (gmap str bool)) (variables : list str) (e : exn) :
  find_minterms table_data variables = Raise e
  ∨ find_maxterms table_data variables = Raise e →
  e = KeyError result_key
  ∧ Exists (λ row, row !! result_key = None) table_data.
Proof.
  unfold find_minterms, find_maxterms.
  intros [Hr | Hr]; by apply find_terms_from_raise in Hr.
Qed.
End TableQueries.

Section TableClassification.
Context `{UnicodeData}.
Import LogicParser TruthTableGenerator.

Lemma generated_rows_results (expression : str)
    (rows : list (gmap str bool)) (vs : list str) (b : bool) :
  Forall2 (is_row_of expression vs)
          (product (replicate (length vs) [false; true])) rows →
  (Forall (λ row, row !! result_key = Some b) rows
   ↔ ∀ i, i < 2 ^ length vs →
       evaluate_expression expression (dict (zip vs (bits (length vs) i)))
       = Ok b)
  ∧ (Exists (λ row, row !! result_key = Some b) rows
     ↔ ∃ i, i < 2 ^ length vs
         ∧ evaluate_expression expression
             (dict (zip vs (bits (length vs) i))) = Ok b).
Proof.
  intros Hrows. split; split.
  - intros Hall i Hi. pose proof (product_bools_lookup _ _ Hi) as Hcombo.
    destruct (Forall2_lookup_l _ _ _ _ _ Hrows Hcombo)
      as (row & Hrow & value & Hvalue & ->).
    rewrite Forall_lookup in Hall. specialize (Hall _ _ Hrow).
    rewrite lookup_insert_eq in Hall. congruence.
  - intros Hev. apply Forall_lookup. intros i row Hrow.
    destruct (Forall2_lookup_r _ _ _ _ _ Hrows Hrow)
      as (combo & Hcombo & value & Hvalue & ->).
    assert (Hi : i < 2 ^ length vs).
    { apply lookup_lt_Some in Hcombo.
      by rewrite length_product_bools in Hcombo. }
    rewrite product_bools_lookup in Hcombo by done. injection Hcombo as <-.
    rewrite (Hev i Hi) in Hvalue. injection Hvalue as <-.
    apply lookup_insert_eq.
  - intros Hex. apply Exists_exists in Hex as (row & Hin & Hres).
    apply list_elem_of_lookup in Hin as [i Hrow].
    destruct (Forall2_lookup_r _ _ _ _ _ Hrows Hrow)
      as (combo & Hcombo & value & Hvalue & ->).
    assert (Hi : i < 2 ^ length vs).
    { apply lookup_lt_Some in Hcombo.
      by rewrite length_product_bools in Hcombo. }
    rewrite product_bools_lookup in Hcombo by done. injection Hcombo as <-.
    rewrite lookup_insert_eq in Hres. injection Hres as ->. by exists i.
  - intros (i & Hi & Hev).
    pose proof (product_bools_lookup _ _ Hi) as Hcombo.
    destruct (Forall2_lookup_l _ _ _ _ _ Hrows Hcombo)
      as (row & Hrow & value & Hvalue & ->).
    apply Exists_exists. eexists. split; [by eapply list_elem_of_lookup_2|].
    rewrite lookup_insert_eq. congruence.
Qed.

(** X15: the summary of a generated table exists and classifies the text
    as direct evaluation does: tautology exactly when the text is true
    under each of the [2^n] assignments of its variables, contradiction
    exactly when it is false under each, contingency exactly when both
    values occur. *)
Theorem summary_matches_evaluation (expression : str)
    (rows : list (gmap str bool)) (vs : list str) :
  generate_truth_table expression = Ok (rows, vs) →
  let value_at i :=
    evaluate_expression expression (dict (zip vs (bits (length vs) i))) in
  ∃ s,
    get_truth_table_summary rows vs = Ok (Some s)
    ∧ total_rows s = (2 ^ Z.of_nat (length vs))%Z
    ∧ (is_tautology s = true
       ↔ ∀ i, i < 2 ^ length vs → value_at i = Ok true)
    ∧ (is_contradiction s = true
       ↔ ∀ i, i < 2 ^ length vs → value_at i = Ok false)
    ∧ (is_contingency s = true
       ↔ (∃ i, i < 2 ^ length vs ∧ value_at i = Ok true)
         ∧ (∃ i, i < 2 ^ length vs ∧ value_at i = Ok false)).
Proof.
  intros Hrun value_at.
  apply generate_truth_table_all_rows in Hrun as [Hvs Hrows].
  pose proof (Forall2_length _ _ _ Hrows) as Hlen.
  rewrite length_product_bools in Hlen.
  destruct (summary_of_rows _ _ _ _ Hrows) as (s & Hs & _).
  { intros ->. simpl in Hlen. pose proof (Nat.pow_nonzero 2 (length vs)). lia. }
  exists s. split; [done|].
  destruct (summary_spec _ _ _ Hs)
    as (_ & Htotal & _ & _ & _ & Htaut & Hcontra & Hconti & _).
  split; [by rewrite Htotal, <- Hlen, Nat2Z.inj_pow|].
  rewrite Htaut, Hcontra, Hconti.
  destruct (generated_rows_results _ _ _ true Hrows) as [-> ->].
  destruct (generated_rows_results _ _ _ false Hrows) as [-> ->].
  done.
Qed.
End TableClassification.

(** ** What the validator accepts *)

Section Validity.
Import LogicParser.

Lemma lstrip_decompose (s : str) :
  ∃ l, s = l ++ Str.lstrip s ∧ Forall (λ c, Char.isspace c = true) l.
Proof.
  induction s as [|c s (l & Hs & Hl)]; [by exists []|]. simpl.
  destruct (Char.isspace c) eqn:Hc.
  - exists (c :: l). split; [by rewrite Hs at 1 | by constructor].
  - by exists [].
Qed.

Lemma strip_decompose (s : str) :
  ∃ l r, s = l ++ Str.strip s ++ r
    ∧ Forall (λ c, Char.isspace c = true) l
    ∧ Forall (λ c, Char.isspace c = true) r.
Proof.
  destruct (lstrip_decompose s) as (l & Hs & Hl).
  destruct (lstrip_decompose (reverse (Str.lstrip s))) as (r & Hr & Hrs).
  exists l, (reverse r). split; [|split; [done | by rewrite Forall_reverse]].
  unfold Str.strip, Str.rstrip. rewrite <- reverse_app, <- Hr.
  by rewrite reverse_involutive.
Qed.

Lemma lstrip_nil_iff (s : str) :
  Str.lstrip s = [] ↔ Forall (λ c, Char.isspace c = true) s.
Proof.
  induction s as [|c s IH]; simpl; [done|].
  destruct (Char.isspace c) eqn:Hc.
  - rewrite IH, Forall_cons. tauto.
  - split; [done|]. intros Hall. apply Forall_cons in Hall as [? _].
    congruence.
Qed.

Lemma strip_nil_iff (s : str) :
  Str.strip s = [] ↔ Forall (λ c, Char.isspace c = true) s.
Proof.
  destruct (strip_decompose s) as (l & r & Hs & Hl & Hr). split.
  - intros Hnil. rewrite Hs, Hnil. simpl. by apply Forall_app.
  - intros Hall. unfold Str.strip, Str.rstrip.
    apply lstrip_nil_iff in Hall. rewrite Hall. done.
Qed.

Lemma exists_nonspace_iff (s : str) :
  Exists (λ c, Char.isspace c = false) s ↔ Str.strip s ≠ [].
Proof.
  rewrite strip_nil_iff. split.
  - intros Hex Hall. apply Exists_exists in Hex as (c & Hin & Hc).
    rewrite Forall_forall in Hall. specialize (Hall c Hin). congruence.
  - intros Hnot. induction s as [|c s IH].
    + by destruct Hnot.
    + destruct (Char.isspace c) eqn:Hc; [|by left].
      right. apply IH. intros Hall. apply Hnot. by constructor.
Qed.

Lemma Forall_strip_iff (P : Z → Prop) (s : str) :
  (∀ c, Char.isspace c = true → P c) →
  Forall P (Str.strip s) ↔ Forall P s.
Proof.
  intros Hspace. split; [by apply Forall_strip|].
  destruct (strip_decompose s) as (l & r & Hs & _ & _).
  rewrite Hs at 1. rewrite !Forall_app. tauto.
Qed.

Lemma elem_of_strip (s : str) (c : Z) :
  Char.isspace c = false → c ∈ Str.strip s ↔ c ∈ s.
Proof.
  intros Hc. destruct (strip_decompose s) as (l & r & Hs & Hl & Hr).
  rewrite Hs at 2. rewrite !elem_of_app. split; [tauto|].
  rewrite Forall_forall in Hl, Hr.
  intros [Hin | [? | Hin]]; [|done|]; [apply Hl in Hin | apply Hr in Hin];
    congruence.
Qed.

Lemma is_balanced_walk (s : str) :
  ∀ depth : nat,
    ExpressionSimplifier.is_balanced_from (Z.of_nat depth) s
    = walk depth (parens s).
Proof.
  induction s as [|c s IH]; intros depth.
  - simpl. by destruct depth.
  - rewrite parens_cons. cbn [ExpressionSimplifier.is_balanced_from].
    unfold paren_of_char.
    destruct (c =? Char.lparen)%Z.
    { replace (Z.of_nat depth + 1)%Z with (Z.of_nat (S depth)) by lia.
      by rewrite IH. }
    destruct (c =? Char.rparen)%Z; [|by rewrite IH].
    destruct depth as [|below]; [done|].
    replace (Z.of_nat (S below) - 1)%Z with (Z.of_nat below) by lia.
    destruct (Z.ltb_spec (Z.of_nat below) 0); [lia|].
    by rewrite IH.
Qed.

Context `{UnicodeData}.

(** X16: the validator of the parser, which keeps a stack, and the balance
    test of the simplifier, which keeps a counter, agree on every text. *)
Theorem balance_checks_agree (s : str) :
  _check_balanced_parentheses s = ExpressionSimplifier._is_balanced s.
Proof.
  unfold _check_balanced_parentheses, ExpressionSimplifier._is_balanced.
  rewrite check_balanced_walk. symmetry. apply (is_balanced_walk s 0).
Qed.

Lemma placement_tail (n : Z) (tokens : list str) :
  ∀ i : Z,
    (0 < i)%Z → (i + Z.of_nat (length tokens) = n)%Z →
    check_placement_from n i tokens = None
    ↔ ∀ t, last tokens = Some t → _is_operator t = false.
Proof.
  induction tokens as [|token rest IH]; intros i Hi Hn; [done|].
  cbn [check_placement_from].
  assert ((i =? 0)%Z = false) as -> by (apply Z.eqb_neq; lia).
  destruct rest as [|next rest].
  - assert ((i =? n - 1)%Z = true) as ->.
    { apply Z.eqb_eq. simpl in Hn. lia. }
    simpl. destruct (_is_operator token) eqn:Hop; simpl.
    + destruct (mem token negations); simpl; split; try done;
        intros Hlast; specialize (Hlast token eq_refl); congruence.
    + split; [by intros _ t [= <-] | done].
  - assert ((i =? n - 1)%Z = false) as ->.
    { apply Z.eqb_neq. simpl in Hn. lia. }
    rewrite !andb_false_r. rewrite IH; [done | lia |].
    simpl in *. lia.
Qed.

Lemma placement_head (tokens : list str) :
  check_placement_from (Z.of_nat (length tokens)) 0 tokens = None
  ↔ (∀ t, head tokens = Some t → _is_operator t = true →
          mem t negations = true)
    ∧ (∀ t, last tokens = Some t → _is_operator t = false).
Proof.
  destruct tokens as [|token rest]; [done|].
  remember (Z.of_nat (length (token :: rest))) as n eqn:Hn.
  assert (Htail : check_placement_from n (0 + 1) rest = None
                  ↔ ∀ t, last rest = Some t → _is_operator t = false).
  { apply placement_tail; [lia|]. rewrite Hn. cbn [length]. lia. }
  cbn [check_placement_from head]. rewrite Z.eqb_refl, orb_true_l, andb_true_r.
  destruct rest as [|next rest].
  - assert ((0 =? n - 1)%Z = true) as ->.
    { apply Z.eqb_eq. rewrite Hn. cbn [length]. lia. }
    rewrite andb_true_r. cbn [last check_placement_from].
    destruct (_is_operator token) eqn:Hop;
      destruct (mem token negations) eqn:Hneg; cbn [negb andb].
    + split; [done|]. intros [_ Hlast].
      specialize (Hlast token eq_refl). congruence.
    + split; [done|]. intros [_ Hlast].
      specialize (Hlast token eq_refl). congruence.
    + split; [|done]. intros _. split; intros t [= <-]; congruence.
    + split; [|done]. intros _. split; intros t [= <-]; congruence.
  - assert ((0 =? n - 1)%Z = false) as ->.
    { apply Z.eqb_neq. rewrite Hn. cbn [length]. lia. }
    rewrite andb_false_r.
    change (last (token :: next :: rest)) with (last (next :: rest)).
    destruct (_is_operator token) eqn:Hop;
      destruct (mem token negations) eqn:Hneg; cbn [negb andb].
    + rewrite Htail. split; [|by intros [_ ?]].
      intros Hlast. split; [by intros t [= <-] | done].
    + split; [done|]. intros [Hhead _].
      specialize (Hhead token eq_refl Hop). congruence.
    + rewrite Htail. split; [|by intros [_ ?]].
      intros Hlast. split; [intros t [= <-]; congruence | done].
    + rewrite Htail. split; [|by intros [_ ?]].
      intros Hlast. split; [intros t [= <-]; congruence | done].
Qed.

Lemma placement_iff (expression : str) :
  _check_operator_placement expression = None
  ↔ (∀ t, head (_tokenize expression) = Some t → _is_operator t = true →
          mem t negations = true)
    ∧ (∀ t, last (_tokenize expression) = Some t → _is_operator t = false).
Proof. unfold _check_operator_placement. apply placement_head. Qed.

Lemma balanced_strip_walk (expression : str) :
  _check_balanced_parentheses (Str.strip expression)
  = walk 0 (parens expression).
Proof.
  unfold _check_balanced_parentheses.
  by rewrite check_balanced_walk, parens_strip.
Qed.

Lemma find_invalid_characters_spec (s : str) :
  NoDup (_find_invalid_characters s)
  ∧ ∀ c, c ∈ _find_invalid_characters s
         ↔ c ∈ s ∧ Char.is_allowed c = false.
Proof.
  unfold _find_invalid_characters. split; [apply NoDup_elements|].
  intros c. rewrite elem_of_elements, elem_of_list_to_set, list_elem_of_In.
  rewrite filter_In, <- list_elem_of_In, negb_true_iff. done.
Qed.

(** X17: what [validate_expression] accepts, in terms of the text itself:
    a text is valid exactly when it has a character that is not white
    space, its parentheses are balanced, all its characters are allowed,
    its first token is no operator other than a negation and no
    parenthesis, and its last token is no operator and no parenthesis.  No
    token between the first and the last is examined. *)
Theorem validity_characterised (expression : str) :
  let tokens := _tokenize (Str.strip expression) in
  (validate_expression expression).1 = true
  ↔ Exists (λ c, Char.isspace c = false) expression
    ∧ walk 0 (parens expression) = true
    ∧ Forall (λ c, Char.is_allowed c = true) expression
    ∧ (∀ t, head tokens = Some t → _is_operator t = true →
            mem t negations = true)
    ∧ (∀ t, last tokens = Some t → _is_operator t = false).
Proof.
  intros tokens. subst tokens.
  rewrite exists_nonspace_iff, <- (balanced_strip_walk expression).
  rewrite <- (Forall_strip_iff _ expression space_is_allowed).
  rewrite <- placement_iff.
  split.
  - intros Hvalid. apply validate_expression_true in Hvalid. tauto.
  - intros (Hne & Hbal & Hall & Hplace).
    unfold validate_expression.
    assert (Str.is_empty expression || Str.is_empty (Str.strip expression)
            = false) as ->.
    { apply orb_false_iff. split.
      - destruct expression; [|done]. by vm_compute in Hne.
      - by destruct (Str.strip expression). }
    rewrite Hbal. cbn [negb].
    rewrite bool_decide_eq_true_2.
    2:{ destruct (find_invalid_characters_spec (Str.strip expression))
          as [_ Hmem].
        destruct (_find_invalid_characters (Str.strip expression))
          as [|c l]; [done|]. exfalso.
        destruct (proj1 (Hmem c)) as [Hin Hbad]; [by left|].
        rewrite Forall_forall in Hall. rewrite (Hall c Hin) in Hbad. done. }
    cbn [negb]. rewrite Hplace.
    unfold _check_variable_names. by rewrite check_names_none.
Qed.

Lemma placement_message (n : Z) (tokens : list str) :
  ∀ i m, check_placement_from n i tokens = Some m →
    ∃ t, t ∈ tokens
      ∧ (m = BinaryOperatorPosition t ∨ m = UnaryOperatorAtEnd t).
Proof.
  induction tokens as [|token rest IH]; intros i m; [done|].
  cbn [check_placement_from]. repeat case_match.
  - intros [= <-]. exists token. split; [by left | by left].
  - intros [= <-]. exists token. split; [by left | by right].
  - intros Hm. apply IH in Hm as (t & Ht & Hm). exists t.
    split; [by right | done].
Qed.

(** X18: the reasons [validate_expression] gives.  The flag is true exactly
    with the message "Valid expression"; the empty-expression message is
    given exactly to the texts of white space only; the unbalanced message
    exactly to the other texts whose parentheses do not balance; and a
    message about invalid characters lists, once each, exactly the
    characters of the text outside the allowed class. *)
Theorem validation_reasons (expression : str) :
  ((validate_expression expression).1 = true
   ↔ (validate_expression expression).2 = ValidExpression)
  ∧ ((validate_expression expression).2 = EmptyExpression
     ↔ Forall (λ c, Char.isspace c = true) expression)
  ∧ ((validate_expression expression).2 = UnbalancedParentheses
     ↔ Exists (λ c, Char.isspace c = false) expression
       ∧ walk 0 (parens expression) = false)
  ∧ (∀ chars,
       (validate_expression expression).2 = InvalidCharacters chars →
       chars ≠ [] ∧ NoDup chars
       ∧ ∀ c, c ∈ chars ↔ c ∈ expression ∧ Char.is_allowed c = false).
Proof.
  rewrite exists_nonspace_iff, <- (strip_nil_iff expression).
  rewrite <- (balanced_strip_walk expression).
  unfold validate_expression.
  destruct (Str.is_empty expression || Str.is_empty (Str.strip expression))
    eqn:Hempty.
  { assert (Hnil : Str.strip expression = []).
    { apply orb_true_iff in Hempty as [He | He].
      - by destruct expression.
      - by destruct (Str.strip expression). }
    simpl. rewrite Hnil. repeat split; try done. by intros [? _]. }
  assert (Hne : Str.strip expression ≠ []).
  { apply orb_false_iff in Hempty as [_ He].
    by destruct (Str.strip expression). }
  destruct (_check_balanced_parentheses (Str.strip expression)) eqn:Hbal;
    cbn [negb]; [|by repeat split].
  destruct (find_invalid_characters_spec (Str.strip expression))
    as [Hnd Hmem].
  case_bool_decide as Hinv; cbn [negb].
  - unfold _check_variable_names. rewrite check_names_none.
    destruct (_check_operator_placement (Str.strip expression)) as [m|] eqn:Hp.
    + apply placement_message in Hp as (t & _ & [-> | ->]); simpl;
        repeat split; try done; by intros [_ ?].
    + simpl. repeat split; try done. by intros [_ ?].
  - simpl. split; [done|]. split; [done|]. split; [split; [done | by intros [_ ?]]|].
    intros chars [= <-]. split; [done|]. split; [done|].
    intros c. rewrite Hmem.
    assert (Hs : Char.is_allowed c = false → Char.isspace c = false).
    { intros Hbad. destruct (Char.isspace c) eqn:Hs; [|done].
      by rewrite (space_is_allowed c Hs) in Hbad. }
    split; intros [Hin Hbad]; (split; [|done]);
      by apply (elem_of_strip _ _ (Hs Hbad)).
Qed.
End Validity.

(** ** The simplifier's removal of parentheses *)

Section RedundantParentheses.
Import ExpressionSimplifier.

Lemma unwrap_atoms_cases (expr : str) :
  (∃ b rest, expr = Char.lparen :: b :: Char.rparen :: rest
             ∧ is_atom b = true
             ∧ unwrap_atoms expr = b :: unwrap_atoms rest)
  ∨ (∃ a rest, expr = a :: rest ∧ unwrap_atoms expr = a :: unwrap_atoms rest)
  ∨ expr = [].
Proof.
  destruct expr as [|a [|b [|c rest]]]; [by right; right | | |].
  - right. left. by exists a, [].
  - right. left. by exists a, [b].
  - cbn [unwrap_atoms].
    destruct ((a =? Char.lparen)%Z && is_atom b && (c =? Char.rparen)%Z)
      eqn:Hm.
    + left. apply andb_true_iff in Hm as [Hm Hc].
      apply andb_true_iff in Hm as [Ha Hb].
      apply Z.eqb_eq in Ha as ->. apply Z.eqb_eq in Hc as ->.
      exists b, rest. done.
    + right. left. by exists a, (b :: c :: rest).
Qed.

Lemma atom_not_paren (b : Z) : is_atom b = true → is_paren_char b = false.
Proof.
  intros Hb. destruct (is_paren_char b) eqn:Hp; [|done]. exfalso.
  unfold is_atom, is_paren_char in *. bool_to_Z; lia.
Qed.

Lemma atom_paren_of_char (b : Z) : is_atom b = true → paren_of_char b = [].
Proof.
  intros Hb. apply atom_not_paren in Hb. unfold is_paren_char in Hb.
  apply orb_false_iff in Hb as [Hl Hr]. unfold paren_of_char.
  by rewrite Hl, Hr.
Qed.

(** Removing the parentheses around single letters and constants keeps the
    other characters, shortens the text and leaves the walk of its
    parentheses as it was. *)
Lemma unwrap_atoms_spec (n : nat) :
  ∀ expr, length expr ≤ n →
    without_parens (unwrap_atoms expr) = without_parens expr
    ∧ length (unwrap_atoms expr) ≤ length expr
    ∧ ∀ depth, walk depth (parens (unwrap_atoms expr))
               = walk depth (parens expr).
Proof.
  induction n as [|n IH]; intros expr Hlen.
  { destruct expr; [done | simpl in Hlen; lia]. }
  destruct (unwrap_atoms_cases expr)
    as [(b & rest & -> & Hb & ->) | [(a & rest & -> & ->) | ->]];
    [| |done].
  - destruct (IH rest) as (Hw & Hl & Hp); [simpl in Hlen; lia|].
    split; [|split].
    + unfold without_parens in *. cbn [List.filter].
      rewrite (atom_not_paren b Hb). simpl. by rewrite Hw.
    + simpl. lia.
    + intros depth. rewrite !parens_cons, (atom_paren_of_char b Hb).
      simpl. by rewrite Hp.
  - destruct (IH rest) as (Hw & Hl & Hp); [simpl in Hlen; lia|].
    split; [|split].
    + unfold without_parens in *. cbn [List.filter]. by rewrite Hw.
    + simpl. lia.
    + intros depth. rewrite !parens_cons. unfold paren_of_char.
      destruct (a =? Char.lparen)%Z; [simpl; apply Hp|].
      destruct (a =? Char.rparen)%Z; [|simpl; apply Hp].
      simpl. destruct depth; [done | apply Hp].
Qed.

Lemma outer_parentheses (expr : str) :
  head expr = Some Char.lparen → last expr = Some Char.rparen →
  expr = Char.lparen :: removelast (tail expr) ++ [Char.rparen].
Proof.
  intros Hh Hl. destruct expr as [|a rest]; [done|]. injection Hh as ->.
  simpl. f_equal. destruct rest as [|b rest] using rev_ind.
  - by vm_compute in Hl.
  - clear IHrest. rewrite removelast_last.
    change (Char.lparen :: rest ++ [b]) with ((Char.lparen :: rest) ++ [b])
      in Hl.
    rewrite last_snoc in Hl. by injection Hl as ->.
Qed.

(** X19: [_remove_redundant_parentheses] removes parentheses only: the
    other characters stay as they are and in order, the text never grows,
    and a text whose parentheses balance keeps balanced parentheses. *)
Theorem redundant_parentheses_only (expression : str) :
  without_parens (_remove_redundant_parentheses expression)
  = without_parens expression
  ∧ length (_remove_redundant_parentheses expression) ≤ length expression
  ∧ (_is_balanced expression = true →
     _is_balanced (_remove_redundant_parentheses expression) = true).
Proof.
  destruct (unwrap_atoms_spec (length expression) expression (le_n _))
    as (Hw & Hl & Hp).
  unfold _remove_redundant_parentheses.
  destruct (bool_decide (head (unwrap_atoms expression) = Some Char.lparen)
            && bool_decide (last (unwrap_atoms expression) = Some Char.rparen))
    eqn:Houter.
  2:{ split; [done|]. split; [done|]. unfold _is_balanced.
      rewrite !(is_balanced_walk _ 0). by rewrite Hp. }
  apply andb_true_iff in Houter as [Hh Hlast].
  apply bool_decide_eq_true in Hh, Hlast.
  pose proof (outer_parentheses _ Hh Hlast) as Hexpr.
  destruct (_is_balanced (removelast (tail (unwrap_atoms expression))))
    eqn:Hinner.
  2:{ split; [done|]. split; [done|]. unfold _is_balanced.
      rewrite !(is_balanced_walk _ 0). by rewrite Hp. }
  split; [|split; [|done]].
  - rewrite <- Hw. rewrite Hexpr at 2. unfold without_parens.
    cbn [List.filter]. rewrite List.filter_app. simpl.
    by rewrite app_nil_r.
  - rewrite Hexpr in Hl. simpl in Hl. rewrite length_app in Hl. simpl in Hl.
    lia.
Qed.
End RedundantParentheses.

(** ** The spacing of the simplifier's texts *)

Section Spacing.
Import ExpressionSimplifier.

Lemma no_double_space_cons (c d : Z) (rest : str) :
  no_double_space (c :: d :: rest)
  = negb (Char.isspace c && Char.isspace d) && no_double_space (d :: rest).
Proof. done. Qed.

Lemma no_double_space_app (a b : str) :
  no_double_space (a ++ b) = true →
  no_double_space a = true ∧ no_double_space b = true.
Proof.
  induction a as [|c a IH]; [done|].
  destruct a as [|d a].
  - simpl. destruct b as [|d b]; [done|]. intros Hab.
    apply andb_true_iff in Hab as [_ Hb]. done.
  - change ((c :: d :: a) ++ b) with (c :: d :: (a ++ b)).
    rewrite !no_double_space_cons. intros Hab.
    apply andb_true_iff in Hab as [Hcd Hrest].
    destruct (IH Hrest) as [Ha Hb]. by rewrite Hcd, Ha.
Qed.

Lemma collapse_spaces_spec (s : str) :
  ∀ in_run,
    Forall (λ c, Char.isspace c = true → c = Char.space)
           (Str.collapse_spaces_from in_run s)
    ∧ no_double_space (Str.collapse_spaces_from in_run s) = true
    ∧ (in_run = true →
       ∀ c, head (Str.collapse_spaces_from in_run s) = Some c →
            Char.isspace c = false).
Proof.
  induction s as [|c s IH]; intros in_run; [done|].
  cbn [Str.collapse_spaces_from].
  destruct (Char.isspace c) eqn:Hc.
  - destruct (IH true) as (Hall & Hnd & Hhead).
    destruct in_run; cbn [app]; [done|].
    split; [by constructor|]. split; [|done].
    destruct (Str.collapse_spaces_from true s) as [|d r] eqn:Hr; [done|].
    rewrite no_double_space_cons, Hnd, (Hhead eq_refl d eq_refl).
    by rewrite andb_false_r.
  - destruct (IH false) as (Hall & Hnd & _).
    split; [constructor; [congruence | done]|].
    split; [|by intros _ d [= <-]].
    destruct (Str.collapse_spaces_from false s) as [|d r] eqn:Hr; [done|].
    by rewrite no_double_space_cons, Hnd, Hc.
Qed.

Lemma lstrip_head (s : str) (c : Z) :
  head (Str.lstrip s) = Some c → Char.isspace c = false.
Proof.
  induction s as [|d s IH]; [done|]. simpl.
  destruct (Char.isspace d) eqn:Hd; [done|]. by intros [= <-].
Qed.

Lemma strip_ends (s : str) :
  (∀ c, head (Str.strip s) = Some c → Char.isspace c = false)
  ∧ (∀ c, last (Str.strip s) = Some c → Char.isspace c = false).
Proof.
  split.
  - intros c Hc. apply (lstrip_head s).
    destruct (lstrip_decompose (reverse (Str.lstrip s))) as (r & Hr & _).
    assert (Hpre : Str.lstrip s = Str.strip s ++ reverse r).
    { unfold Str.strip, Str.rstrip. rewrite <- reverse_app, <- Hr.
      by rewrite reverse_involutive. }
    rewrite Hpre. by destruct (Str.strip s).
  - intros c Hc. unfold Str.strip, Str.rstrip in Hc.
    rewrite last_reverse in Hc. by apply lstrip_head in Hc.
Qed.

(** What [re.sub(r'\\s+', ' ', expr).strip()] returns is well spaced. *)
Lemma strip_collapse_well_spaced (s : str) :
  well_spaced (Str.strip (Str.collapse_spaces s)).
Proof.
  destruct (collapse_spaces_spec s false) as (Hall & Hnd & _).
  fold (Str.collapse_spaces s) in Hall, Hnd.
  destruct (strip_decompose (Str.collapse_spaces s)) as (l & r & Hs & _ & _).
  destruct (strip_ends (Str.collapse_spaces s)) as [Hh Hl].
  rewrite Hs in Hall, Hnd.
  apply Forall_app in Hall as [_ Hall]. apply Forall_app in Hall as [Hall _].
  apply no_double_space_app in Hnd as [_ Hnd].
  apply no_double_space_app in Hnd as [Hnd _].
  done.
Qed.

Context `{UnicodeData}.

Lemma final_cleanup_text (st : loop_state) :
  (final_cleanup st).1 = _cleanup_expression (current_expr st).
Proof.
  unfold final_cleanup, Str.eqb. case_bool_decide as Heq; simpl; [|done].
  by rewrite Heq.
Qed.

(** X20: the normalized text the simplifier starts from and the text it
    returns are well spaced: the only white space is the plain space, it
    never stands at either end, and it is never doubled. *)
Theorem simplifier_texts_are_well_spaced (expression : str) :
  well_spaced (_normalize_expression expression)
  ∧ ∀ fuel text trace,
      simplify fuel expression = Some (text, trace) → well_spaced text.
Proof.
  split; [apply strip_collapse_well_spaced|].
  intros fuel text trace. unfold simplify.
  destruct (while_loop fuel (initial_state expression)) as [st|]; [|done].
  simpl. intros [= Hfinal].
  assert (Htext : text = (final_cleanup st).1) by (by rewrite Hfinal).
  rewrite Htext, final_cleanup_text. apply strip_collapse_well_spaced.
Qed.
End Spacing.

(** ** The trace of the simplifier *)

Section Trace.
Import ExpressionSimplifier.

Lemma starts_with_app (p s : str) : Str.starts_with p (p ++ s) = true.
Proof.
  induction p as [|c p IH]; [done|]. simpl. by rewrite Z.eqb_refl, IH.
Qed.

Lemma loop_body_steps (st : loop_state) :
  ∃ new_steps,
    steps (loop_body st) = steps st ++ new_steps
    ∧ length new_steps ≤ 2
    ∧ Forall is_step new_steps.
Proof.
  unfold loop_body.
  destruct (first_rule rules (current_expr st))
    as [[[pattern replacement] new_expr]|]; cbn [current_expr steps];
    case_match; cbn [steps].
  - eexists [_; _]. rewrite <- app_assoc. split; [reflexivity|].
    split; [simpl; lia|].
    apply Forall_cons. split; [left; apply starts_with_app|].
    apply Forall_cons. split; [right; apply starts_with_app | constructor].
  - eexists [_]. split; [reflexivity|]. split; [simpl; lia|].
    apply Forall_cons. split; [left; apply starts_with_app | constructor].
  - eexists [_]. split; [reflexivity|]. split; [simpl; lia|].
    apply Forall_cons. split; [right; apply starts_with_app | constructor].
  - exists []. rewrite app_nil_r. split; [done|]. split; [simpl; lia|].
    constructor.
Qed.

Lemma while_loop_steps (fuel : nat) :
  ∀ st final,
    (0 ≤ iteration st ≤ max_iterations)%Z →
    while_loop fuel st = Some final →
    (iteration final ≤ max_iterations)%Z
    ∧ ∃ new_steps,
        steps final = steps st ++ new_steps
        ∧ (Z.of_nat (length new_steps)
           ≤ 2 * (iteration final - iteration st))%Z
        ∧ Forall is_step new_steps.
Proof.
  induction fuel as [|fuel IH]; intros st final Hit Hrun; [done|].
  simpl in Hrun. destruct (loop_cond st) eqn:Hc.
  - unfold loop_cond in Hc. apply andb_true_iff in Hc as [_ Hlt].
    apply Z.ltb_lt in Hlt.
    apply IH in Hrun as (Hmax & more & Hsteps & Hlen & Hall).
    2:{ rewrite iteration_loop_body. lia. }
    split; [done|].
    destruct (loop_body_steps st) as (new_steps & Hnew & Hle & Hnew_all).
    exists (new_steps ++ more). rewrite Hsteps, Hnew, <- app_assoc.
    split; [done|]. split; [|by apply Forall_app].
    rewrite length_app. rewrite iteration_loop_body in Hlen. lia.
  - injection Hrun as <-. split; [lia|]. exists [].
    rewrite app_nil_r. split; [done|]. split; [simpl; lia | done].
Qed.

Context `{UnicodeData}.

(** X21: the trace [simplify] returns begins with the entry "Original: "
    followed by the normalized text; the entries after it are rule
    applications and removals of parentheses, at most two for each of the
    at most twenty iterations, and possibly one last "Final cleanup: "
    entry; so a trace never has more than 42 entries. *)
Theorem trace_shape (fuel : nat) (expression text : str) (trace : list str) :
  simplify fuel expression = Some (text, trace) →
  ∃ loop_steps cleanup_steps,
    trace = (utf8 "Original: " ++ _normalize_expression expression)
            :: loop_steps ++ cleanup_steps
    ∧ Forall is_step loop_steps
    ∧ length loop_steps ≤ 40
    ∧ (cleanup_steps = []
       ∨ cleanup_steps = [utf8 "Final cleanup: " ++ text])
    ∧ length trace ≤ 42.
Proof.
  unfold simplify.
  destruct (while_loop fuel (initial_state expression)) as [st|] eqn:Hrun;
    [|done].
  simpl. intros [= Hfinal].
  apply while_loop_steps in Hrun as (Hmax & loop_steps & Hsteps & Hlen & Hall);
    [|by vm_compute].
  change (steps (initial_state expression))
    with [utf8 "Original: " ++ _normalize_expression expression] in Hsteps.
  change (iteration (initial_state expression)) with 0%Z in Hlen.
  unfold max_iterations in Hmax.
  assert (Hloop : length loop_steps ≤ 40) by lia.
  unfold final_cleanup, Str.eqb in Hfinal.
  case_bool_decide as Heq; simpl in Hfinal; injection Hfinal as <- <-.
  - exists loop_steps, []. rewrite app_nil_r, Hsteps.
    split; [done|]. split; [done|]. split; [done|]. split; [by left|].
    simpl. lia.
  - exists loop_steps, [utf8 "Final cleanup: "
                        ++ _cleanup_expression (current_expr st)].
    rewrite Hsteps. split; [by rewrite <- app_assoc|].
    split; [done|]. split; [done|]. split; [by right|].
    simpl. rewrite !length_app. simpl. lia.
Qed.
End Trace.

(** ** Negation signs in the normalized text *)

Section NegationSigns.
Import ExpressionSimplifier.

Lemma replace_single (x : Z) (new s : str) :
  Str.replace [x] new s = s ≫= λ c, if (x =? c)%Z then new else [c].
Proof.
  unfold Str.replace. induction s as [|c s IH]; [done|].
  cbn [Str.replace_from Str.starts_with length pred].
  rewrite andb_true_r. change ((c :: s) ≫= ?f) with (f c ++ (s ≫= f)).
  cbv beta. rewrite IH. by destruct (x =? c)%Z.
Qed.

Lemma negations_spaced_cons (c d : Z) (rest : str) :
  negations_spaced (c :: d :: rest)
  = (if (c =? negation_sign)%Z then Char.isspace d else true)
    && negations_spaced (d :: rest).
Proof. done. Qed.

Lemma negations_spaced_other (c : Z) (s : str) :
  c ≠ negation_sign → negations_spaced (c :: s) = negations_spaced s.
Proof.
  intros Hc. destruct s as [|d s]; [done|].
  rewrite negations_spaced_cons. by rewrite (proj2 (Z.eqb_neq _ _) Hc).
Qed.

Lemma negations_spaced_tail (c : Z) (s : str) :
  negations_spaced (c :: s) = true → negations_spaced s = true.
Proof.
  destruct s as [|d s]; [done|]. rewrite negations_spaced_cons.
  by intros [_ ?]%andb_true_iff.
Qed.

Lemma negations_spaced_suffix (l m : str) :
  negations_spaced (l ++ m) = true → negations_spaced m = true.
Proof.
  induction l as [|c l IH]; [done|]. intros Hlm.
  apply IH. by apply negations_spaced_tail in Hlm.
Qed.

Lemma negations_spaced_prefix (m r : str) :
  negations_spaced (m ++ r) = true → negations_spaced m = true.
Proof.
  induction m as [|c m IH]; [done|]. destruct m as [|d m]; [done|].
  change ((c :: d :: m) ++ r) with (c :: d :: (m ++ r)).
  rewrite !negations_spaced_cons. intros Hmr.
  apply andb_true_iff in Hmr as [-> Hrest]. by rewrite IH.
Qed.

Lemma space_is_not_negation (c : Z) :
  Char.isspace c = true → c ≠ negation_sign.
Proof. intros Hc ->. by vm_compute in Hc. Qed.

Lemma negations_spaced_spaced_out (s : str) :
  negations_spaced
    (s ≫= λ c, if (negation_sign =? c)%Z
               then utf8 " " ++ [negation_sign] ++ utf8 " " else [c])
  = true.
Proof.
  induction s as [|c s IH]; [done|].
  change ((c :: s) ≫= ?f) with (f c ++ (s ≫= f)). cbv beta.
  destruct (Z.eqb_spec negation_sign c) as [<- | Hne].
  - change (utf8 " " ++ [negation_sign] ++ utf8 " ")
      with [Char.space; negation_sign; Char.space].
    cbn [app]. rewrite negations_spaced_other by done.
    rewrite negations_spaced_cons, Z.eqb_refl.
    change (Char.isspace Char.space) with true. cbn [andb].
    by rewrite negations_spaced_other.
  - cbn [app]. by rewrite negations_spaced_other.
Qed.

Lemma collapse_keeps_negations_spaced (s : str) :
  ∀ in_run,
    negations_spaced s = true →
    negations_spaced (Str.collapse_spaces_from in_run s) = true.
Proof.
  induction s as [|c s IH]; intros in_run Hs; [done|].
  pose proof (negations_spaced_tail _ _ Hs) as Htail.
  cbn [Str.collapse_spaces_from]. destruct (Char.isspace c) eqn:Hc.
  - destruct in_run; cbn [app]; [by apply IH|].
    rewrite negations_spaced_other by done. by apply IH.
  - destruct (Z.eqb_spec c negation_sign) as [-> | Hne].
    2:{ rewrite negations_spaced_other by done. by apply IH. }
    destruct s as [|d s]; [done|].
    rewrite negations_spaced_cons, Z.eqb_refl in Hs.
    apply andb_true_iff in Hs as [Hd _].
    specialize (IH false Htail). cbn [Str.collapse_spaces_from] in *.
    rewrite Hd in *. cbn [app] in *.
    rewrite negations_spaced_cons, Z.eqb_refl.
    change (Char.isspace Char.space) with true. by cbn [andb].
Qed.

Lemma contains_infix (p s : str) :
  Str.contains p s = true → ∃ l r, s = l ++ p ++ r.
Proof.
  induction s as [|c s IH]; simpl.
  - rewrite orb_false_r. intros Hp. apply starts_with_spec in Hp.
    exists [], (drop (length p) []). done.
  - intros Hp. apply orb_true_iff in Hp as [Hp | Hp].
    + apply starts_with_spec in Hp. by exists [], (drop (length p) (c :: s)).
    + destruct (IH Hp) as (l & r & ->). by exists (c :: l), r.
Qed.

Context `{UnicodeData}.

Lemma normalized_negations_spaced (expression : str) :
  negations_spaced (_normalize_expression expression) = true.
Proof.
  unfold _normalize_expression.
  destruct (strip_decompose (Str.collapse_spaces
    (space_out [utf8 "∧"; utf8 "∨"; utf8 "→"; utf8 "↔"; utf8 "⊕"; utf8 "¬"]
       (foldl (λ e r, Str.replace r.1 r.2 e) (Str.upper expression)
          replacements)))) as (l & r & Hs & _ & _).
  eapply negations_spaced_prefix, negations_spaced_suffix.
  rewrite <- Hs. apply collapse_keeps_negations_spaced.
  unfold space_out. cbn [foldl].
  change (utf8 "¬") with [negation_sign] at 1 2.
  rewrite replace_single. apply negations_spaced_spaced_out.
Qed.

(** X22: in the normalized text every negation sign is followed by a
    space or ends the text.  So the five rules whose pattern has a
    negation sign directly before a letter or a parenthesis leave the
    normalized text unchanged: on its first pass the rewrite loop applies
    neither the double-negation rule, nor the complement laws, nor De
    Morgan's laws. *)
Theorem unspaced_negation_rules_do_not_match (expression : str) :
  (List.filter (λ rule, negb (negations_spaced rule.1)) rules).*1
  = [utf8 "¬¬A"; utf8 "A ∧ ¬A"; utf8 "A ∨ ¬A"; utf8 "¬(A ∧ B)";
     utf8 "¬(A ∨ B)"]
  ∧ negations_spaced (_normalize_expression expression) = true
  ∧ ∀ pattern replacement,
      negations_spaced pattern = false →
      _apply_rule (_normalize_expression expression) pattern replacement
      = _normalize_expression expression.
Proof.
  split; [by vm_compute|].
  pose proof (normalized_negations_spaced expression) as Hnorm.
  split; [done|]. intros pattern replacement Hpat.
  unfold _apply_rule, _apply_variable_rule, Str.eqb.
  case_bool_decide as Heq; [congruence|].
  destruct (Str.contains pattern (_normalize_expression expression)) eqn:Hin.
  - apply contains_infix in Hin as (l & r & Hs). rewrite Hs in Hnorm.
    apply negations_spaced_suffix, negations_spaced_prefix in Hnorm.
    congruence.
  - by case_match.
Qed.
End NegationSigns.

(** ** The evaluator computes truth values *)

Section Semantics.
Context `{UnicodeData}.
Import LogicParser.

(** A postfix sequence that evaluates on its own also evaluates in the
    middle of a longer one, leaving its value on the stack. *)
Lemma eval_postfix_app (a : gmap str bool) (p : list str) :
  ∀ s0 value,
    eval_postfix a p s0 = Ok value →
    ∀ q st, eval_postfix a (p ++ q) (s0 ++ st)
            = eval_postfix a q (value :: st).
Proof.
  induction p as [|token rest IH]; intros s0 value Hev q st.
  - simpl in Hev. destruct s0 as [|v [|w s0]]; try done.
    by injection Hev as ->.
  - simpl in *. destruct (is_operand token).
    { case_match; by apply (IH (_ :: s0)). }
    destruct (mem token negations).
    { destruct s0 as [|operand below]; [done|]. by apply (IH (_ :: below)). }
    destruct s0 as [|r [|l below]]; try done. simpl.
    destruct (_apply_operator l r token) as [v|e]; [|done]. simpl in *.
    by apply (IH (v :: below)).
Qed.

Lemma apply_binop (op : binop) (l r : bool) :
  _apply_operator l r (binop_token op) = Ok (binop_value op l r).
Proof. destruct op; by vm_compute. Qed.

Lemma binop_token_kind (op : binop) :
  is_operand (binop_token op) = false
  ∧ mem (binop_token op) negations = false.
Proof. destruct op; by vm_compute. Qed.

Lemma constant_token_kind (value : bool) :
  let token := if value then utf8 "1" else utf8 "0" in
  is_operand token = true
  ∧ mem token [utf8 "0"; utf8 "1"] = true
  ∧ Str.eqb token (utf8 "1") = value.
Proof. destruct value; by vm_compute. Qed.

Lemma negation_token_kind :
  is_operand (utf8 "¬") = false ∧ mem (utf8 "¬") negations = true.
Proof. by vm_compute. Qed.

Lemma letter_is_variable (letter : Z) :
  Char.is_ascii_upper letter = true →
  _is_variable [letter] = true ∧ Str.upper [letter] = [letter].
Proof.
  intros Hl. unfold _is_variable, Str.upper, Char.isalpha, Char.isupper.
  simpl. unfold Char.upper.
  assert ((letter <? 128)%Z = true) as ->.
  { apply Z.ltb_lt. bool_to_Z; lia. }
  assert (Char.is_ascii_lower letter = false) as ->.
  { destruct (Char.is_ascii_lower letter) eqn:Hlow; [|done].
    exfalso. bool_to_Z; lia. }
  by rewrite Hl.
Qed.

Lemma eval_postfix_formula (a : gmap str bool) (f : formula) :
  letters_only f = true →
  ∀ q st, eval_postfix a (postfix_of f ++ q) st
          = eval_postfix a q (truth_value a f :: st).
Proof.
  induction f as [letter | value | g IHg | op g IHg h IHh]; intros Hf q st.
  - destruct (letter_is_variable letter Hf) as [Hvar Hup].
    cbn [postfix_of app eval_postfix truth_value].
    unfold is_operand. rewrite Hvar. cbn [orb].
    by rewrite (variable_is_not_constant _ Hvar), Hup.
  - cbn [postfix_of app eval_postfix truth_value].
    destruct (constant_token_kind value) as (-> & -> & ->). done.
  - cbn [postfix_of truth_value]. rewrite <- app_assoc, IHg by done.
    cbn [app eval_postfix].
    destruct negation_token_kind as [-> ->]. done.
  - cbn [postfix_of truth_value letters_only] in *.
    apply andb_true_iff in Hf as [Hg Hh].
    rewrite <- !app_assoc, IHg, IHh by done.
    cbn [app eval_postfix].
    destruct (binop_token_kind op) as [-> ->].
    by rewrite apply_binop.
Qed.

(** X23: the evaluation loop computes truth values: run on the postfix
    sequence of a formula over the letters A to Z, the constants, negation
    and the seven binary operators, it returns the truth value of the
    formula under the assignment, an absent variable counting as false. *)
Theorem eval_postfix_computes_truth_value
    (a : gmap str bool) (f : formula) :
  letters_only f = true →
  eval_postfix a (postfix_of f) [] = Ok (truth_value a f).
Proof.
  intros Hf. pose proof (eval_postfix_formula a f Hf [] []) as Hev.
  by rewrite app_nil_r in Hev.
Qed.
End Semantics.

(** ** Precedence and negation in the postfix conversion *)

Section PostfixOrder.
Context `{UnicodeData}.
Import LogicParser.

Lemma not_paren_token_eqb (token : str) :
  is_paren_token token = false →
  Str.eqb token (utf8 "(") = false ∧ Str.eqb token (utf8 ")") = false.
Proof.
  rewrite is_paren_token_spec. by intros [? ?]%orb_false_iff.
Qed.

(** X24: how two binary operators between three operands are ordered: the
    second operator waits for its right operand when its precedence is
    strictly higher than that of the first, and otherwise the first is
    applied first; operators of equal precedence associate to the left. *)
Theorem two_operators_by_precedence
    (expression : str) (x op1 y op2 z : str) :
  _tokenize expression = [x; op1; y; op2; z] →
  is_operand x = true → is_operand y = true → is_operand z = true →
  is_operand op1 = false → is_paren_token op1 = false →
  is_operand op2 = false → is_paren_token op2 = false →
  to_postfix expression
  = Ok (if (precedence op2 <=? precedence op1)%Z
        then [x; y; op1; z; op2]
        else [x; y; z; op2; op1]).
Proof.
  intros Htok Hx Hy Hz Hop1 Hp1 Hop2 Hp2. unfold to_postfix. rewrite Htok.
  destruct (not_paren_token_eqb _ Hp1) as [Hl1 Hr1].
  destruct (not_paren_token_eqb _ Hp2) as [Hl2 Hr2].
  cbn [shunting_yard]. rewrite Hx, Hop1, Hl1, Hr1. cbn [pop_while app].
  rewrite Hy, Hop2, Hl2, Hr2. cbn [pop_while app].
  unfold not_lparen at 1. rewrite Hl1. cbn [negb andb].
  destruct (precedence op2 <=? precedence op1)%Z; cbn [pop_while app];
    by rewrite Hz.
Qed.

Lemma negation_token_facts (token : str) :
  mem token negations = true →
  is_operand token = false
  ∧ Str.eqb token (utf8 "(") = false
  ∧ Str.eqb token (utf8 ")") = false
  ∧ precedence token = 4%Z.
Proof.
  intros Hn. apply mem_true in Hn. unfold negations in Hn.
  repeat (apply elem_of_cons in Hn as [-> | Hn]; [by vm_compute|]).
  by apply elem_of_nil in Hn.
Qed.

Lemma shunting_yard_extends_output (tokens : list str) :
  ∀ stack output postfix,
    shunting_yard tokens stack output = Ok postfix →
    ∃ more, postfix = output ++ more.
Proof.
  induction tokens as [|token rest IH]; intros stack output postfix Hsy.
  - simpl in Hsy. injection Hsy as <-.
    destruct (pop_while (λ _, true) stack output) as [s1 o1] eqn:Hpop.
    apply pop_while_split in Hpop as (popped & -> & _). by exists popped.
  - simpl in Hsy. destruct (is_operand token).
    { apply IH in Hsy as [more ->]. rewrite <- app_assoc. by eexists. }
    destruct (Str.eqb token (utf8 "(")); [by apply IH in Hsy|].
    destruct (Str.eqb token (utf8 ")")).
    { destruct (pop_while not_lparen stack output) as [s1 o1] eqn:Hpop.
      apply pop_while_split in Hpop as (popped & -> & _).
      destruct s1 as [|top s2]; [done|].
      apply IH in Hsy as [more ->]. rewrite <- app_assoc. by eexists. }
    destruct (pop_while _ stack output) as [s1 o1] eqn:Hpop.
    apply pop_while_split in Hpop as (popped & -> & _).
    apply IH in Hsy as [more ->]. rewrite <- app_assoc. by eexists.
Qed.

(** X25: a text whose first two tokens are negation signs cannot be
    evaluated: the conversion emits the first sign before any operand, and
    the evaluation fails on it for want of an operand (or the conversion
    itself fails on an unmatched closing parenthesis). *)
Theorem leading_double_negation_fails
    (expression : str) (n1 n2 : str) (rest : list str)
    (a : gmap str bool) :
  _tokenize expression = n1 :: n2 :: rest →
  mem n1 negations = true → mem n2 negations = true →
  (∃ more, to_postfix expression = Ok (n1 :: more)
           ∧ evaluate_expression expression a
             = Raise (ValueError MissingOperandNegation))
  ∨ evaluate_expression expression a = Raise IndexError.
Proof.
  intros Htok Hn1 Hn2.
  destruct (negation_token_facts _ Hn1) as (Hop1 & Hl1 & Hr1 & Hprec1).
  destruct (negation_token_facts _ Hn2) as (Hop2 & Hl2 & Hr2 & Hprec2).
  assert (Hstep : shunting_yard (n1 :: n2 :: rest) [] []
                  = shunting_yard rest [n2] [n1]).
  { cbn [shunting_yard]. rewrite Hop1, Hl1, Hr1. cbn [pop_while].
    rewrite Hop2, Hl2, Hr2. cbn [pop_while]. unfold not_lparen.
    rewrite Hl1, Hprec1, Hprec2. done. }
  unfold evaluate_expression, to_postfix. rewrite Htok, Hstep.
  destruct (shunting_yard rest [n2] [n1]) as [postfix|e] eqn:Hsy.
  - left. destruct (shunting_yard_extends_output _ _ _ _ Hsy) as [more ->].
    exists more. split; [done|]. simpl. by rewrite Hop1, Hn1.
  - right. simpl. f_equal.
    by apply shunting_yard_raises_index_error in Hsy.
Qed.

(** X26: the spellings of operators in ASCII punctuation that the tokenizer
    does not rewrite never become tokens, nor does any token hold one of
    their characters: "&", "|", "^", "<", ">", "=" and "-" are passed
    over, although the validator allows them and the operator tables list
    them. *)
Theorem punctuation_is_passed_over (expression : str) (token : str) :
  token ∈ _tokenize expression →
  (token ∉ punctuation_spellings)
  ∧ Forall (λ c, c ∉ utf8 "&|^<>=-") token.
Proof.
  intros Hin. pose proof (tokenize_shapes expression) as Hshapes.
  rewrite Forall_forall in Hshapes. specialize (Hshapes token Hin).
  assert (Hchars : Forall (λ c, c ∉ utf8 "&|^<>=-") token).
  { apply orb_true_iff in Hshapes as [Hw | Hs].
    - apply is_word_spec in Hw as [_ Hall].
      eapply Forall_impl; [exact Hall|]. intros c Hc Hbad. cbv beta in Hc.
      repeat (apply elem_of_cons in Hbad as [-> | Hbad];
              [by vm_compute in Hc|]).
      by apply elem_of_nil in Hbad.
    - destruct token as [|c [|d t]]; try done. simpl in Hs.
      repeat constructor. intros Hbad.
      repeat (apply elem_of_cons in Hbad as [-> | Hbad];
              [by vm_compute in Hs|]).
      by apply elem_of_nil in Hbad. }
  split; [|done]. intros Hbad. unfold punctuation_spellings in Hbad.
  repeat (apply elem_of_cons in Hbad as [-> | Hbad];
          [apply Forall_cons in Hchars as [Hc _]; apply Hc; by vm_compute|]).
  by apply elem_of_nil in Hbad.
Qed.
End PostfixOrder.

(** * Concrete instances *)

#[local] Existing Instance no_case_data.

Import LogicParser TruthTableGenerator ExpressionSimplifier.

(** C1 as stated fails: "A B" is valid, and its evaluation raises because
    two values are left on the stack.  The other two error branches are
    reached by valid texts as well. *)
Lemma valid_text_fails_to_evaluate :
  validate_expression (utf8 "A B") = (true, ValidExpression)
  ∧ to_postfix (utf8 "A B") = Ok [utf8 "A"; utf8 "B"]
  ∧ evaluate_expression (utf8 "A B") ∅ = Raise (ValueError TooManyOperands)
  ∧ validate_expression (utf8 "¬ ∧ A") = (true, ValidExpression)
  ∧ evaluate_expression (utf8 "¬ ∧ A") ∅
    = Raise (ValueError MissingOperandNegation)
  ∧ validate_expression (utf8 "A ∧ ∧ B") = (true, ValidExpression)
  ∧ evaluate_expression (utf8 "A ∧ ∧ B") ∅
    = Raise (ValueError (MissingOperands (utf8 "∧"))).
Proof. vm_compute. done. Qed.

Lemma valid_expression_evaluates_or_reports_witness :
  (validate_expression (utf8 "A XOR B")).1 = true
  ∧ (∃ postfix, to_postfix (utf8 "A XOR B") = Ok postfix)
  ∧ ((∃ b, evaluate_expression (utf8 "A XOR B") ∅ = Ok b)
     ∨ (∃ msg, evaluate_expression (utf8 "A XOR B") ∅
               = Raise (ValueError msg))).
Proof.
  assert (Hvalid : (validate_expression (utf8 "A XOR B")).1 = true)
    by (vm_compute; reflexivity).
  split; [exact Hvalid|].
  apply (valid_expression_evaluates_or_reports (utf8 "A XOR B") ∅ Hvalid).
Defined.

(** C4 as stated fails: "A B" is valid and has two variables, and no
    table is returned for it. *)
Lemma valid_text_without_table :
  validate_expression (utf8 "A B") = (true, ValidExpression)
  ∧ size (extract_variables (utf8 "A B")) = 2
  ∧ generate_truth_table (utf8 "A B")
    = Raise (ErrorEvaluatingExpression (ValueError TooManyOperands)).
Proof. vm_compute. done. Qed.

Lemma truth_table_size_witness :
  (validate_expression (utf8 "A XOR B")).1 = true
  ∧ size (extract_variables (utf8 "A XOR B")) = 2
  ∧ 1 ≤ 2
  ∧ ∀ rows vs,
      generate_truth_table (utf8 "A XOR B") = Ok (rows, vs) →
      length rows = 2 ^ 2.
Proof.
  assert (Hvalid : (validate_expression (utf8 "A XOR B")).1 = true)
    by (vm_compute; reflexivity).
  assert (Hsize : size (extract_variables (utf8 "A XOR B")) = 2)
    by (vm_compute; reflexivity).
  split; [exact Hvalid|]. split; [exact Hsize|]. split; [lia|].
  intros rows vs Hrun.
  destruct (truth_table_size (utf8 "A XOR B") 2 Hvalid Hsize)
    as (_ & Hrows & _); [lia|].
  by destruct (Hrows rows vs Hrun) as (_ & Hlen & _).
Defined.

Lemma evaluate_depends_on_extracted_variables_witness :
  (∀ name, name ∈ extract_variables (utf8 "A ∧ B") →
     ({[ utf8 "A" := true; utf8 "B" := true ]} : gmap str bool) !! name
     = ({[ utf8 "A" := true; utf8 "B" := true; utf8 "C" := false ]}
          : gmap str bool) !! name)
  ∧ evaluate_expression (utf8 "A ∧ B")
      {[ utf8 "A" := true; utf8 "B" := true ]}
    = evaluate_expression (utf8 "A ∧ B")
      {[ utf8 "A" := true; utf8 "B" := true; utf8 "C" := false ]}.
Proof.
  assert (Hagree : ∀ name, name ∈ extract_variables (utf8 "A ∧ B") →
     ({[ utf8 "A" := true; utf8 "B" := true ]} : gmap str bool) !! name
     = ({[ utf8 "A" := true; utf8 "B" := true; utf8 "C" := false ]}
          : gmap str bool) !! name).
  { intros name Hin.
    replace (extract_variables (utf8 "A ∧ B"))
      with ({[ utf8 "A"; utf8 "B" ]} : gset str) in Hin by (by vm_compute).
    apply elem_of_union in Hin as [Hin | Hin];
      apply elem_of_singleton in Hin as ->; by vm_compute. }
  split; [exact Hagree|].
  apply (evaluate_depends_on_extracted_variables _ _ _ Hagree).
Defined.

Lemma simplify_identity_law_witness :
  20 < 21
  ∧ simplify 21 (utf8 "A ∧ 1")
    = Some (utf8 "A",
            [utf8 "Original: A ∧ 1"; utf8 "Applied A ∧ 1 → A: A"]).
Proof. split; [lia|]. apply (simplify_identity_law 21). lia. Defined.

(** The cap is reached: forty-two nested pairs of parentheses lose two
    pairs in each iteration, and after twenty iterations the loop stops
    with a change still pending. *)
Example simplify_reaches_the_cap :
  let text := replicate 42 Char.lparen ++ utf8 "A" ++ replicate 42 Char.rparen in
  let final := Nat.iter 20 loop_body (initial_state text) in
  changed final = true ∧ iteration final = 20%Z
  ∧ simplify 21 text = Some (final_cleanup final)
  ∧ (final_cleanup final).1 = utf8 "((A))".
Proof. vm_compute. done. Qed.

(** ** The scenarios of the specification, computed *)

Example validate_unbalanced :
  validate_expression (utf8 "(A ∧ B") = (false, UnbalancedParentheses).
Proof. vm_compute. done. Qed.

Example extract_three_variables :
  sorted (extract_variables (utf8 "(A ∧ B) ∨ ¬C"))
  = [utf8 "A"; utf8 "B"; utf8 "C"].
Proof. vm_compute. done. Qed.

Example evaluate_implication :
  evaluate_expression (utf8 "A → B") {[ utf8 "A" := true; utf8 "B" := false ]}
  = Ok false.
Proof. vm_compute. done. Qed.

Example simplify_idempotent_law :
  simplify 21 (utf8 "A ∧ A")
  = Some (utf8 "A", [utf8 "Original: A ∧ A"; utf8 "Applied A ∧ A → A: A"]).
Proof. vm_compute. done. Qed.

(** The placement check counts a parenthesis as an operator: a text that
    begins with one is rejected. *)
Example validate_leading_parenthesis :
  validate_expression (utf8 "(A ∧ B) ∨ C")
  = (false, BinaryOperatorPosition (utf8 "(")).
Proof. vm_compute. done. Qed.

(** The arrow inside "<->" is replaced first, so the text reads as an
    implication. *)
Example tokenize_biconditional_spelling :
  _tokenize (utf8 "a <-> b") = [utf8 "A"; utf8 "→"; utf8 "B"].
Proof. vm_compute. done. Qed.

(** ** Instances of the further properties *)

Import TruthTableQueries.

Lemma postfix_rearranges_tokens_witness :
  to_postfix (utf8 "A ∧ (B ∨ C)")
  = Ok [utf8 "A"; utf8 "B"; utf8 "C"; utf8 "∨"; utf8 "∧"]
  ∧ List.filter is_operand [utf8 "A"; utf8 "B"; utf8 "C"; utf8 "∨"; utf8 "∧"]
    = List.filter is_operand (_tokenize (utf8 "A ∧ (B ∨ C)")).
Proof.
  assert (Hp : to_postfix (utf8 "A ∧ (B ∨ C)")
    = Ok [utf8 "A"; utf8 "B"; utf8 "C"; utf8 "∨"; utf8 "∧"])
    by (vm_compute; reflexivity).
  split; [exact Hp|].
  exact (proj1 (postfix_rearranges_tokens _ _ Hp)).
Defined.

Lemma valid_postfix_has_no_parentheses_witness :
  (validate_expression (utf8 "A ∧ (B ∨ C) ∧ D")).1 = true
  ∧ ∃ postfix,
      to_postfix (utf8 "A ∧ (B ∨ C) ∧ D") = Ok postfix
      ∧ Forall (λ t, is_paren_token t = false) postfix
      ∧ postfix ≡ₚ List.filter not_paren_token
                     (_tokenize (utf8 "A ∧ (B ∨ C) ∧ D")).
Proof.
  assert (Hvalid : (validate_expression (utf8 "A ∧ (B ∨ C) ∧ D")).1 = true)
    by (vm_compute; reflexivity).
  split; [exact Hvalid|].
  exact (valid_postfix_has_no_parentheses _ Hvalid).
Defined.

Lemma ascii_case_is_immaterial_witness :
  Forall (λ c, (c < 128)%Z) (utf8 "a and b")
  ∧ _tokenize (Str.upper (utf8 "a and b")) = _tokenize (utf8 "a and b").
Proof.
  assert (Hascii : Forall (λ c, (c < 128)%Z) (utf8 "a and b")).
  { apply (bool_decide_unpack _). vm_compute. exact I. }
  split; [exact Hascii|].
  exact (proj1 (ascii_case_is_immaterial _ Hascii)).
Defined.

Lemma constant_truth_table_witness :
  (validate_expression (utf8 "1 ∨ 0")).1 = true
  ∧ extract_variables (utf8 "1 ∨ 0") = ∅
  ∧ evaluate_expression (utf8 "1 ∨ 0") ∅ = Ok true
  ∧ generate_truth_table (utf8 "1 ∨ 0") = Ok ([ {[ result_key := true ]} ], []).
Proof.
  assert (Hvalid : (validate_expression (utf8 "1 ∨ 0")).1 = true)
    by (vm_compute; reflexivity).
  assert (Hnone : extract_variables (utf8 "1 ∨ 0") = ∅)
    by (vm_compute; reflexivity).
  assert (Hev : evaluate_expression (utf8 "1 ∨ 0") ∅ = Ok true)
    by (vm_compute; reflexivity).
  split; [exact Hvalid|]. split; [exact Hnone|]. split; [exact Hev|].
  exact (proj2 (constant_truth_table _ _ Hvalid Hnone Hev)).
Defined.

Lemma generated_row_content_witness :
  generate_truth_table (utf8 "¬A")
  = Ok ([ {[ utf8 "A" := false; utf8 "result" := true ]};
          {[ utf8 "A" := true; utf8 "result" := false ]} ], [utf8 "A"])
  ∧ [ ({[ utf8 "A" := false; utf8 "result" := true ]} : gmap str bool);
      {[ utf8 "A" := true; utf8 "result" := false ]} ] !! 1
    = Some {[ utf8 "A" := true; utf8 "result" := false ]}
  ∧ 1 < 2 ^ length [utf8 "A"].
Proof.
  assert (Hgen : generate_truth_table (utf8 "¬A")
    = Ok ([ {[ utf8 "A" := false; utf8 "result" := true ]};
            {[ utf8 "A" := true; utf8 "result" := false ]} ], [utf8 "A"]))
    by (vm_compute; reflexivity).
  split; [exact Hgen|]. split; [reflexivity|].
  exact (proj1 (generated_row_content _ _ _ 1 _ Hgen eq_refl)).
Defined.

Lemma summary_classifies_witness :
  get_truth_table_summary
    [ {[ result_key := true ]}; {[ result_key := false ]} ] []
  = Ok (Some {| total_rows := 2; true_count := 1; false_count := 1;
                is_tautology := false; is_contradiction := false;
                is_contingency := true |})
  ∧ ([ ({[ result_key := true ]} : gmap str bool);
       {[ result_key := false ]} ] ≠ []).
Proof.
  assert (Hs : get_truth_table_summary
    [ {[ result_key := true ]}; {[ result_key := false ]} ] []
    = Ok (Some {| total_rows := 2; true_count := 1; false_count := 1;
                  is_tautology := false; is_contradiction := false;
                  is_contingency := true |}))
    by (vm_compute; reflexivity).
  split; [exact Hs|].
  exact (proj1 (summary_classifies _ _ _ Hs)).
Defined.

Lemma minterms_and_maxterms_partition_witness :
  Forall (λ row : gmap str bool, is_Some (row !! result_key))
    [ {[ result_key := true ]}; {[ result_key := false ]} ]
  ∧ ∃ minterms maxterms,
      find_minterms [ {[ result_key := true ]}; {[ result_key := false ]} ] []
      = Ok minterms
      ∧ find_maxterms [ {[ result_key := true ]}; {[ result_key := false ]} ] []
        = Ok maxterms
      ∧ minterms ++ maxterms ≡ₚ seq 0 2.
Proof.
  assert (Hall : Forall (λ row : gmap str bool, is_Some (row !! result_key))
    [ {[ result_key := true ]}; {[ result_key := false ]} ]).
  { repeat constructor; by eexists. }
  split; [exact Hall|].
  destruct (minterms_and_maxterms_partition _ [] Hall)
    as (minterms & maxterms & Hmin & Hmax & _ & _ & _ & _ & Hperm & _).
  exists minterms, maxterms. split; [exact Hmin|]. split; [exact Hmax|].
  exact Hperm.
Defined.

Lemma term_queries_fail_on_missing_result_witness :
  (find_minterms [ (∅ : gmap str bool) ] [] = Raise (KeyError result_key)
   ∨ find_maxterms [ (∅ : gmap str bool) ] [] = Raise (KeyError result_key))
  ∧ Exists (λ row : gmap str bool, row !! result_key = None) [ ∅ ].
Proof.
  assert (Hraise :
    find_minterms [ (∅ : gmap str bool) ] [] = Raise (KeyError result_key)
    ∨ find_maxterms [ (∅ : gmap str bool) ] [] = Raise (KeyError result_key)).
  { left. vm_compute. reflexivity. }
  split; [exact Hraise|].
  exact (proj2 (term_queries_fail_on_missing_result _ _ _ Hraise)).
Defined.

Lemma summary_matches_evaluation_witness :
  generate_truth_table (utf8 "A ∨ ¬A")
  = Ok ([ {[ utf8 "A" := false; utf8 "result" := true ]};
          {[ utf8 "A" := true; utf8 "result" := true ]} ], [utf8 "A"])
  ∧ ∃ s,
      get_truth_table_summary
        [ {[ utf8 "A" := false; utf8 "result" := true ]};
          {[ utf8 "A" := true; utf8 "result" := true ]} ] [utf8 "A"]
      = Ok (Some s)
      ∧ total_rows s = (2 ^ Z.of_nat 1)%Z.
Proof.
  assert (Hgen : generate_truth_table (utf8 "A ∨ ¬A")
    = Ok ([ {[ utf8 "A" := false; utf8 "result" := true ]};
            {[ utf8 "A" := true; utf8 "result" := true ]} ], [utf8 "A"]))
    by (vm_compute; reflexivity).
  split; [exact Hgen|].
  destruct (summary_matches_evaluation _ _ _ Hgen) as (s & Hs & Htotal & _).
  exists s. split; [exact Hs | exact Htotal].
Defined.

Lemma trace_shape_witness :
  simplify 21 (utf8 "(a && a)")
  = Some (utf8 "A",
          [utf8 "Original: (A ∧ A)"; utf8 "Applied A ∧ A → A: (A)";
           utf8 "Removed redundant parentheses: A"])
  ∧ length [utf8 "Original: (A ∧ A)"; utf8 "Applied A ∧ A → A: (A)";
            utf8 "Removed redundant parentheses: A"] ≤ 42.
Proof.
  assert (Hrun : simplify 21 (utf8 "(a && a)")
    = Some (utf8 "A",
            [utf8 "Original: (A ∧ A)"; utf8 "Applied A ∧ A → A: (A)";
             utf8 "Removed redundant parentheses: A"]))
    by (vm_compute; reflexivity).
  split; [exact Hrun|].
  destruct (trace_shape _ _ _ _ Hrun) as (loop_steps & cleanup_steps & _ & _
    & _ & _ & Hlen).
  exact Hlen.
Defined.

(** The double negation is left as it is. *)
Example simplify_double_negation :
  simplify 21 (utf8 "¬¬A") = Some (utf8 "¬ ¬ A", [utf8 "Original: ¬ ¬ A"]).
Proof. vm_compute. done. Qed.

Lemma eval_postfix_computes_truth_value_witness :
  letters_only (FBin Implies (FVar 65) (FNot (FVar 66))) = true
  ∧ eval_postfix {[ utf8 "A" := true; utf8 "B" := true ]}
      [utf8 "A"; utf8 "B"; utf8 "¬"; utf8 "→"] []
    = Ok false.
Proof.
  split; [reflexivity|].
  exact (eval_postfix_computes_truth_value
           {[ utf8 "A" := true; utf8 "B" := true ]}
           (FBin Implies (FVar 65) (FNot (FVar 66))) eq_refl).
Defined.

Lemma two_operators_by_precedence_witness :
  _tokenize (utf8 "A ∨ B ∧ C")
  = [utf8 "A"; utf8 "∨"; utf8 "B"; utf8 "∧"; utf8 "C"]
  ∧ to_postfix (utf8 "A ∨ B ∧ C")
    = Ok [utf8 "A"; utf8 "B"; utf8 "C"; utf8 "∧"; utf8 "∨"].
Proof.
  assert (Htok : _tokenize (utf8 "A ∨ B ∧ C")
    = [utf8 "A"; utf8 "∨"; utf8 "B"; utf8 "∧"; utf8 "C"])
    by (vm_compute; reflexivity).
  split; [exact Htok|].
  exact (two_operators_by_precedence _ _ _ _ _ _ Htok
           eq_refl eq_refl eq_refl eq_refl eq_refl eq_refl eq_refl).
Defined.

Lemma leading_double_negation_fails_witness :
  _tokenize (utf8 "¬¬A") = [utf8 "¬"; utf8 "¬"; utf8 "A"]
  ∧ mem (utf8 "¬") negations = true
  ∧ ((∃ more, to_postfix (utf8 "¬¬A") = Ok (utf8 "¬" :: more)
              ∧ evaluate_expression (utf8 "¬¬A") ∅
                = Raise (ValueError MissingOperandNegation))
     ∨ evaluate_expression (utf8 "¬¬A") ∅ = Raise IndexError).
Proof.
  assert (Htok : _tokenize (utf8 "¬¬A") = [utf8 "¬"; utf8 "¬"; utf8 "A"])
    by (vm_compute; reflexivity).
  split; [exact Htok|]. split; [reflexivity|].
  exact (leading_double_negation_fails _ _ _ _ ∅ Htok eq_refl eq_refl).
Defined.

Lemma punctuation_is_passed_over_witness :
  utf8 "A" ∈ _tokenize (utf8 "A & B")
  ∧ _tokenize (utf8 "A & B") = [utf8 "A"; utf8 "B"]
  ∧ utf8 "A" ∉ punctuation_spellings.
Proof.
  assert (Htok : _tokenize (utf8 "A & B") = [utf8 "A"; utf8 "B"])
    by (vm_compute; reflexivity).
  assert (Hin : utf8 "A" ∈ _tokenize (utf8 "A & B")).
  { rewrite Htok. apply elem_of_cons. by left. }
  split; [exact Hin|]. split; [exact Htok|].
  exact (proj1 (punctuation_is_passed_over _ _ Hin)).
Defined.
